(** * storm-analysis, sa_library/ia_utilities.c

    A shallow embedding of the k-d tree and of the peak utilities of
    [ia_utilities.c], and the properties of its specification.

    Numbers.  A C [double] is modelled by an exact rational ([Q]): every
    finite double is a rational, and the model computes sums, products and
    comparisons without rounding.  NaN, infinities and rounding are outside
    the model; the square root of [nearestKDTree] is kept symbolic.  A C
    [int] that only counts or indexes is a [nat]; an [int] that may be
    negative is a [Z]; no [int] overflows.  Theorems that say
    which points a search returns for all inputs of a kind (the nearest
    one, all those strictly within a radius, all local maxima) are stated
    for inputs on the grid [on_grid], on which the source computes its
    differences, squares and sums without rounding, so that the values of
    the model are those of the source ([dist_sq_on_grid],
    [hyperrect_dist_sq_on_grid]).

    Memory.  Allocation ([malloc]) always succeeds, so the error returns of
    the source for a failed allocation do not appear.  An array is a list;
    a read past its end yields 0 and a write past its end is dropped (the
    source has undefined behaviour there).  A tree is not mutated once it
    is built, so a pointer to a node is modelled by the node.

    Layout.  The model of the source comes first (modules [KD], [Peaks] and
    [Flm], one definition per function, with the names of the source), then
    the vocabulary of the specification, then the theorems. *)

From Stdlib Require Import List ZArith QArith Qabs Qround Lqa Lia Bool Permutation.
Import ListNotations.

Open Scope Q_scope.

(** ** Arrays and loops *)

(** [a[i]] for an array of doubles. *)
Definition aget (a : list Q) (i : nat) : Q := nth i a 0.

(** [a[i] = v]; a write past the end of the modelled array is dropped. *)
Fixpoint upd {A : Type} (i : nat) (v : A) (l : list A) : list A :=
  match l, i with
  | [], _ => []
  | _ :: t, O => v :: t
  | h :: t, S j => h :: upd j v t
  end.

(** [for (i = start; i < start + n; i++) s = body i s]. *)
Fixpoint for_loop {S : Type} (n start : nat) (body : nat -> S -> S) (s : S) : S :=
  match n with
  | O => s
  | Datatypes.S n' => for_loop n' (Datatypes.S start) body (body start s)
  end.

(** [#define SQ(x) ((x) * (x))] *)
Definition SQ (x : Q) : Q := x * x.

(** [x < y] on doubles, as a boolean. *)
Definition Qlt_bool (x y : Q) : bool := negb (Qle_bool y x).

(** ** The k-d tree *)

Module KD.

(** [struct kdnode]; [Null] is the null pointer.  The tree is never mutated
    after its construction, so a pointer to a node is the node. *)
Inductive kdnode : Type :=
| Null
| Node (pos : list Q) (dir : nat) (data : Z) (left right : kdnode).

Definition node_pos (n : kdnode) : list Q :=
  match n with Null => [] | Node p _ _ _ _ => p end.

Definition node_data (n : kdnode) : Z :=
  match n with Null => 0%Z | Node _ _ d _ _ => d end.

(** [struct kdhyperrect] *)
Record kdhyperrect : Type := mkRect {
  rect_dim : nat;
  rect_min : list Q;
  rect_max : list Q
}.

(** [struct kdtree]; [kd_rect = None] is the null [rect] pointer.  The
    field [destr] is not part of the record: no function modelled here
    but [kd_clear] and [kd_free] reads it, and these take it as an
    argument. *)
Record kdtree : Type := mkTree {
  kd_dim : nat;
  kd_root : kdnode;
  kd_rect : option kdhyperrect
}.

(** [struct res_node]: one entry of a result list. *)
Record res_node : Type := mkRes {
  item : kdnode;
  res_dist_sq : Q
}.

(** [struct kdres].  [rlist] is the list after its dummy head node, [riter]
    the part of it from the cursor on. *)
Record kdres : Type := mkSet {
  res_tree : kdtree;
  rlist : list res_node;
  riter : list res_node;
  size : Z
}.

Definition kd_create (k : nat) : kdtree := mkTree k Null None.

(** The squared distance loop of [find_nearest], [kd_nearest_i] and
    [kd_nearest]: [for (i = 0; i < dim; i++) dist_sq += SQ(a[i] - b[i])]. *)
Definition dist_sq (dim : nat) (a b : list Q) : Q :=
  for_loop dim 0 (fun i acc => acc + SQ (aget a i - aget b i)) 0.

(** [insert_rec]; [(node->dir + 1) % dim] is defined for [dim > 0] only,
    which the theorems assume where the dimension is not fixed. *)
Fixpoint insert_rec (node : kdnode) (pos : list Q) (data : Z) (dir dim : nat)
  : kdnode :=
  match node with
  | Null => Node (firstn dim pos) dir data Null Null
  | Node npos ndir ndata l r =>
      let new_dir := Nat.modulo (ndir + 1) dim in
      if Qlt_bool (aget pos ndir) (aget npos ndir)
      then Node npos ndir ndata (insert_rec l pos data new_dir dim) r
      else Node npos ndir ndata l (insert_rec r pos data new_dir dim)
  end.

Definition hyperrect_create (dim : nat) (min max : list Q) : kdhyperrect :=
  mkRect dim (firstn dim min) (firstn dim max).

Definition hyperrect_duplicate (rect : kdhyperrect) : kdhyperrect :=
  hyperrect_create (rect_dim rect) (rect_min rect) (rect_max rect).

Definition hyperrect_extend (rect : kdhyperrect) (pos : list Q) : kdhyperrect :=
  for_loop (rect_dim rect) 0
    (fun i r =>
       let r1 := if Qlt_bool (aget pos i) (aget (rect_min r) i)
                 then mkRect (rect_dim r) (upd i (aget pos i) (rect_min r)) (rect_max r)
                 else r in
       if Qlt_bool (aget (rect_max r1) i) (aget pos i)
       then mkRect (rect_dim r1) (rect_min r1) (upd i (aget pos i) (rect_max r1))
       else r1)
    rect.

Definition hyperrect_dist_sq (rect : kdhyperrect) (pos : list Q) : Q :=
  for_loop (rect_dim rect) 0
    (fun i result =>
       if Qlt_bool (aget pos i) (aget (rect_min rect) i)
       then result + SQ (aget (rect_min rect) i - aget pos i)
       else if Qlt_bool (aget (rect_max rect) i) (aget pos i)
            then result + SQ (aget (rect_max rect) i - aget pos i)
            else result)
    0.

Definition kd_insert (tree : kdtree) (pos : list Q) (data : Z) : kdtree :=
  let root := insert_rec (kd_root tree) pos data 0 (kd_dim tree) in
  match kd_rect tree with
  | None => mkTree (kd_dim tree) root
              (Some (hyperrect_create (kd_dim tree) pos pos))
  | Some rect => mkTree (kd_dim tree) root (Some (hyperrect_extend rect pos))
  end.

(** [rlist_insert]: with [dist_sq >= 0] an ordered insertion, otherwise the
    new entry goes right after the dummy head, that is to the front. *)
Fixpoint rlist_insert_ordered (rl : list res_node) (rnode : res_node)
  : list res_node :=
  match rl with
  | [] => [rnode]
  | n :: rest =>
      if Qlt_bool (res_dist_sq n) (res_dist_sq rnode)
      then n :: rlist_insert_ordered rest rnode
      else rnode :: rl
  end.

Definition rlist_insert (rl : list res_node) (it : kdnode) (d : Q)
  : list res_node :=
  if Qle_bool 0 d then rlist_insert_ordered rl (mkRes it d)
  else mkRes it d :: rl.

(** [find_nearest]: returns the number of results added and the result
    list.  The [-1] of a failed allocation never occurs, so the test
    [ret >= 0] of the source always holds. *)
Fixpoint find_nearest (node : kdnode) (pos : list Q) (range : Q)
  (rl : list res_node) (ordered : bool) (dim : nat) : Z * list res_node :=
  match node with
  | Null => (0%Z, rl)
  | Node npos ndir ndata l r =>
      let d := dist_sq dim npos pos in
      let '(added_res, list1) :=
        if Qle_bool d (SQ range)
        then (1%Z, rlist_insert rl node (if ordered then d else -1))
        else (0%Z, rl) in
      let dx := aget pos ndir - aget npos ndir in
      let '(ret, list2) :=
        find_nearest (if Qle_bool dx 0 then l else r) pos range list1 ordered dim in
      if Qlt_bool (Qabs dx) range
      then
        let '(ret', list3) :=
          find_nearest (if Qle_bool dx 0 then r else l) pos range list2 ordered dim in
        ((added_res + ret + ret')%Z, list3)
      else ((added_res + ret)%Z, list2)
  end.

Definition kd_res_rewind (rset : kdres) : kdres :=
  mkSet (res_tree rset) (rlist rset) (rlist rset) (size rset).

Definition kd_nearest_range (kd : kdtree) (pos : list Q) (range : Q) : kdres :=
  let '(ret, l) := find_nearest (kd_root kd) pos range [] false (kd_dim kd) in
  kd_res_rewind (mkSet kd l [] ret).

Definition kd_res_size (set : kdres) : Z := size set.

(** [kd_res_next] moves the cursor; the returned flag of the source is not
    used by any caller in this file.  The source reads [rset->riter->next]:
    it is called only while the cursor is on an entry, and the value of the
    model on a cursor past the end stands for no run of the source. *)
Definition kd_res_next (rset : kdres) : kdres :=
  mkSet (res_tree rset) (rlist rset) (tl (riter rset)) (size rset).

(** [kd_res_item(rset, pos)]: the data of the current item and, for a non
    null [pos], the item's coordinates.  A null cursor yields the null
    pointer [0] and leaves [pos] as it is. *)
Definition kd_res_item (rset : kdres) (pos : list Q) : Z * list Q :=
  match riter rset with
  | n :: _ => (node_data (item n), firstn (kd_dim (res_tree rset)) (node_pos (item n)))
  | [] => (0%Z, pos)
  end.

Definition kd_res_item_data (rset : kdres) : Z :=
  match riter rset with
  | n :: _ => node_data (item n)
  | [] => 0%Z
  end.

(** The pointers [rect->min + dir] and [rect->max + dir] of [kd_nearest_i]:
    which of the two arrays the pointer goes into. *)
Inductive bound : Type := Min | Max.

Definition coord_get (b : bound) (rect : kdhyperrect) (dir : nat) : Q :=
  match b with
  | Min => aget (rect_min rect) dir
  | Max => aget (rect_max rect) dir
  end.

Definition coord_set (b : bound) (rect : kdhyperrect) (dir : nat) (v : Q)
  : kdhyperrect :=
  match b with
  | Min => mkRect (rect_dim rect) (upd dir v (rect_min rect)) (rect_max rect)
  | Max => mkRect (rect_dim rect) (rect_min rect) (upd dir v (rect_max rect))
  end.

(** [kd_nearest_i]: the state [*result], [*result_dist_sq] and [*rect] is
    passed in and returned.  The source never calls it on a null node. *)
Fixpoint kd_nearest_i (node : kdnode) (pos : list Q) (result : kdnode)
  (result_dist_sq : Q) (rect : kdhyperrect) : kdnode * Q * kdhyperrect :=
  match node with
  | Null => (result, result_dist_sq, rect)
  | Node npos dir ndata l r =>
      let le0 := Qle_bool (aget pos dir - aget npos dir) 0 in
      let nearer_subtree := if le0 then l else r in
      let farther_subtree := if le0 then r else l in
      let nearer_hyperrect_coord := if le0 then Max else Min in
      let farther_hyperrect_coord := if le0 then Min else Max in
      let '(result1, dist1, rect1) :=
        match nearer_subtree with
        | Null => (result, result_dist_sq, rect)
        | Node _ _ _ _ _ =>
            let dummy := coord_get nearer_hyperrect_coord rect dir in
            let sliced := coord_set nearer_hyperrect_coord rect dir (aget npos dir) in
            let '(res, d, rect') :=
              kd_nearest_i nearer_subtree pos result result_dist_sq sliced in
            (res, d, coord_set nearer_hyperrect_coord rect' dir dummy)
        end in
      let d := dist_sq (rect_dim rect1) npos pos in
      let '(result2, dist2) :=
        if Qlt_bool d dist1 then (node, d) else (result1, dist1) in
      match farther_subtree with
      | Null => (result2, dist2, rect1)
      | Node _ _ _ _ _ =>
          let dummy := coord_get farther_hyperrect_coord rect1 dir in
          let sliced := coord_set farther_hyperrect_coord rect1 dir (aget npos dir) in
          let '(res, d', rect') :=
            if Qlt_bool (hyperrect_dist_sq sliced pos) dist2
            then kd_nearest_i farther_subtree pos result2 dist2 sliced
            else (result2, dist2, sliced) in
          (res, d', coord_set farther_hyperrect_coord rect' dir dummy)
      end
  end.

(** [kd_nearest]: [None] is the null pointer the source returns. *)
Definition kd_nearest (kd : kdtree) (pos : list Q) : option kdres :=
  match kd_rect kd with
  | None => None
  | Some kdrect =>
      let rect := hyperrect_duplicate kdrect in
      let result := kd_root kd in
      let d := dist_sq (kd_dim kd) (node_pos result) pos in
      let '(result', _, _) := kd_nearest_i (kd_root kd) pos result d rect in
      match result' with
      | Null => None
      | Node _ _ _ _ _ =>
          Some (kd_res_rewind (mkSet kd (rlist_insert [] result' (-1)) [] 1%Z))
      end
  end.

(** [clear_rec]: frees the nodes of a subtree, children first.  The model
    returns what is observable of it: the data pointers handed to the
    destructor, in the order of the calls; [destr = false] is the null
    destructor of the source, which is not called. *)
Fixpoint clear_rec (node : kdnode) (destr : bool) : list Z :=
  match node with
  | Null => []
  | Node _ _ data l r =>
      clear_rec l destr ++ clear_rec r destr ++ (if destr then [data] else [])
  end.

(** [kd_clear]: the emptied tree and the destructor calls.  [destr] stands
    for [tree->destr], set by [kd_data_destructor]. *)
Definition kd_clear (tree : kdtree) (destr : bool) : kdtree * list Z :=
  (mkTree (kd_dim tree) Null None, clear_rec (kd_root tree) destr).

(** [kd_free]: [kd_clear] and the release of the tree itself; what remains
    observable is the sequence of destructor calls.  A null tree is left
    alone. *)
Definition kd_free (tree : option kdtree) (destr : bool) : list Z :=
  match tree with
  | Some t => snd (kd_clear t destr)
  | None => []
  end.

(** [kd_res_end]: the cursor is past the last entry. *)
Definition kd_res_end (rset : kdres) : bool :=
  match riter rset with [] => true | _ :: _ => false end.

(** The value [kd_res_next] returns: whether the cursor, once moved, is on
    an entry. *)
Definition kd_res_next_ret (rset : kdres) : bool :=
  negb (kd_res_end (kd_res_next rset)).

End KD.

(** ** Peak utilities *)

Module Peaks.
Import KD.

(** Modelled from the spec: the status constants [RUNNING], [CONVERGED] and
    [ERROR] of [multi_fit.h], which the source includes and which is not
    part of the sources at hand; the specification gives the status of a
    peak as the closed enumeration of these three. *)
Inductive status : Type := RUNNING | CONVERGED | ERROR.

Definition status_eqb (a b : status) : bool :=
  match a, b with
  | RUNNING, RUNNING | CONVERGED, CONVERGED | ERROR, ERROR => true
  | _, _ => false
  end.

(** [status[i]] *)
Definition sget (st : list status) (i : nat) : status := nth i st RUNNING.

Definition createKDTree (x y : list Q) (n : nat) : kdtree :=
  for_loop n 0
    (fun i kd => kd_insert kd [aget x i; aget y i] (Z.of_nat i))
    (kd_create 2).

(** The loop of [markDimmerPeaks] that looks for a brighter neighbour, with
    its [break]; [n] is the number of iterations left. *)
Fixpoint brighter_scan (n : nat) (set_r : kdres) (h : list Q) (i : nat) : bool :=
  match n with
  | O => false
  | S n' =>
      let k := Z.to_nat (kd_res_item_data set_r) in
      if Qlt_bool (aget h i) (aget h k) then true
      else brighter_scan n' (kd_res_next set_r) h i
  end.

(** The loop over [set_n] shared by [markDimmerPeaks] and
    [markLowSignificancePeaks]. *)
Definition mark_neighbors (set_n : kdres) (st : list status) : list status :=
  snd (for_loop (Z.to_nat (kd_res_size set_n)) 0
         (fun _ '(set, st) =>
            let k := Z.to_nat (kd_res_item_data set) in
            let st' := if status_eqb (sget st k) CONVERGED
                       then upd k RUNNING st else st in
            (kd_res_next set, st'))
         (set_n, st)).

Definition markDimmerPeaks_step (kd : kdtree) (x y h : list Q)
  (r_removal r_neighbors : Q) (i : nat) (s : Z * list status)
  : Z * list status :=
  let '(removed, st) := s in
  if status_eqb (sget st i) ERROR then s
  else
    let pos := [aget x i; aget y i] in
    let set_r := kd_nearest_range kd pos r_removal in
    if (kd_res_size set_r <? 2)%Z then s
    else
      let is_dimmer :=
        brighter_scan (Z.to_nat (kd_res_size set_r)) set_r h i in
      if is_dimmer
      then
        let st1 := upd i ERROR st in
        let set_n := kd_nearest_range kd pos r_neighbors in
        ((removed + 1)%Z, mark_neighbors set_n st1)
      else s.

Definition markDimmerPeaks (x y h : list Q) (st : list status)
  (r_removal r_neighbors : Q) (np : nat) : Z * list status :=
  let kd := createKDTree x y np in
  for_loop np 0 (markDimmerPeaks_step kd x y h r_removal r_neighbors) (0%Z, st).

Definition markLowSignificancePeaks_step (kd : kdtree) (x y sig : list Q)
  (min_sig r_neighbors : Q) (i : nat) (s : Z * list status)
  : Z * list status :=
  let '(removed, st) := s in
  if status_eqb (sget st i) ERROR then s
  else if Qlt_bool min_sig (aget sig i) then s
  else
    let st1 := upd i ERROR st in
    let pos := [aget x i; aget y i] in
    let set_n := kd_nearest_range kd pos r_neighbors in
    ((removed + 1)%Z, mark_neighbors set_n st1).

Definition markLowSignificancePeaks (x y sig : list Q) (st : list status)
  (min_sig r_neighbors : Q) (np : nat) : Z * list status :=
  let kd := createKDTree x y np in
  for_loop np 0 (markLowSignificancePeaks_step kd x y sig min_sig r_neighbors)
    (0%Z, st).

(** A value of the [dist] array of [nearestKDTree]: the square root of a
    rational is kept as its argument, [Dsqrt dd] standing for [sqrt(dd)],
    so that no rounding enters; [Dlit v] is the number [v]. *)
Inductive dval : Type := Dsqrt (dd : Q) | Dlit (v : Q).

(** The loop of [nearestKDTree] over a result set, on [(set, min_dd, min_i)]. *)
Definition nearest_scan (set : kdres) (xi yi : Q) (min_dd : Q) (min_i : Z)
  : kdres * Q * Z :=
  for_loop (Z.to_nat (kd_res_size set)) 0
    (fun _ '(set, min_dd, min_i) =>
       let pos := snd (kd_res_item set [xi; yi]) in
       let dx := aget pos 0 - xi in
       let dy := aget pos 1 - yi in
       let dd := dx * dx + dy * dy in
       let '(min_dd', min_i') :=
         if Qlt_bool dd min_dd then (dd, kd_res_item_data set)
         else (min_dd, min_i) in
       (kd_res_next set, min_dd', min_i'))
    (set, min_dd, min_i).

Definition nearestKDTree (kd : kdtree) (x y : list Q) (dist : list dval)
  (index : list Z) (radius : Q) (n : nat) : list dval * list Z :=
  for_loop n 0
    (fun i '(dist, index) =>
       let set := kd_nearest_range kd [aget x i; aget y i] radius in
       let '(_, min_dd, min_i) :=
         nearest_scan set (aget x i) (aget y i) (radius * radius + (1 # 10)) (-1)%Z in
       if (0 <=? min_i)%Z
       then (upd i (Dsqrt min_dd) dist, upd i min_i index)
       else (upd i (Dlit (-1)) dist, upd i (-1)%Z index))
    (dist, index).

Definition runningIfHasNeighbors (c_x c_y n_x n_y : list Q) (st : list status)
  (radius : Q) (nc nn : nat) : list status :=
  let kd := createKDTree n_x n_y nn in
  for_loop nc 0
    (fun i st =>
       if status_eqb (sget st i) RUNNING || status_eqb (sget st i) ERROR then st
       else
         let set := kd_nearest_range kd [aget c_x i; aget c_y i] radius in
         if (0 <? kd_res_size set)%Z then upd i RUNNING st else st)
    st.

End Peaks.

(** ** The local maxima scanner *)

Module Flm.

(** [struct flmData] *)
Record flmData : Type := mkFlm {
  margin : Z;
  n_peaks : Z;
  z_range : Z;
  xsize : Z;
  ysize : Z;
  zsize : Z;
  radius : Q;
  threshold : Q;
  z_values : list Q;
  taken : list (list Z);
  images : list (list Q)
}.

(** The conversion of a double to an [int]: towards zero. *)
Definition trunc (q : Q) : Z :=
  if Qle_bool 0 q then Qfloor q else Qceiling q.

(** [images[zi][yi*xsize+xi]] and [taken[zi][yi*xsize+xi]].  In the source
    the indexes are never negative when [margin >= 0]. *)
Definition pixel (images : list (list Q)) (xsize zi yi xi : Z) : Q :=
  nth (Z.to_nat (yi * xsize + xi)) (nth (Z.to_nat zi) images []) 0.

Definition taken_at (taken : list (list Z)) (xsize zi yi xi : Z) : Z :=
  nth (Z.to_nat (yi * xsize + xi)) (nth (Z.to_nat zi) taken []) 0%Z.

Definition taken_incr (taken : list (list Z)) (xsize zi yi xi : Z)
  : list (list Z) :=
  upd (Z.to_nat zi)
      (upd (Z.to_nat (yi * xsize + xi)) (taken_at taken xsize zi yi xi + 1)%Z
           (nth (Z.to_nat zi) taken []))
      taken.

(** The values [s, s+1, ..., e] of [for (i = s; i <= e; i++)]. *)
Definition zrange (s e : Z) : list Z :=
  map (fun k => (s + Z.of_nat k)%Z) (seq 0 (Z.to_nat (e - s + 1))).

(** The test of [isLocalMaxima] on one pixel of the search region: [true]
    when the pixel makes the function return 0. *)
Definition disqualifies (flm : flmData) (cur : Q) (cy cx zi yi xi : Z) : bool :=
  let rr := trunc (radius flm * radius flm) in
  let dy := ((yi - cy) * (yi - cy))%Z in
  let dx := ((xi - cx) * (xi - cx))%Z in
  if (dx + dy <=? rr)%Z
  then
    if (yi <=? cy)%Z && (xi <=? cx)%Z
    then Qlt_bool cur (pixel (images flm) (xsize flm) zi yi xi)
    else Qle_bool cur (pixel (images flm) (xsize flm) zi yi xi)
  else false.

(** [isLocalMaxima]: the three loops return 0 at the first pixel that
    disqualifies the candidate, and 1 when there is none. *)
Definition isLocalMaxima (flm : flmData) (cur : Q)
  (sz ez sy cy ey sx cx ex : Z) : bool :=
  forallb (fun zi =>
    forallb (fun yi =>
      forallb (fun xi => negb (disqualifies flm cur cy cx zi yi xi))
              (zrange sx ex))
            (zrange sy ey))
          (zrange sz ez).

(** The local state of [findLocalMaxima]: the counter [np], the mask
    [flm_data->taken] and the four output arrays. *)
Record scan : Type := mkScan {
  np : Z;
  s_taken : list (list Z);
  out_z : list Q;
  out_y : list Q;
  out_x : list Q;
  out_h : list Q
}.

(** A loop body either goes on or executes [return]. *)
Inductive ctl : Type := Go (s : scan) | Return (s : scan).

(** [for (i = start; i < start + n; i++) body], stopped by a [return]. *)
Fixpoint for_ctl (n : nat) (start : Z) (body : Z -> scan -> ctl) (s : scan)
  : ctl :=
  match n with
  | O => Go s
  | S n' =>
      match body start s with
      | Go s' => for_ctl n' (start + 1)%Z body s'
      | Return s' => Return s'
      end
  end.

(** The body of the innermost loop of [findLocalMaxima]. *)
Definition visit (flm : flmData) (sz ez sy ey zi yi xi : Z) (s : scan) : ctl :=
  if Qlt_bool (threshold flm) (pixel (images flm) (xsize flm) zi yi xi)
  then
    if (taken_at (s_taken s) (xsize flm) zi yi xi <? 1)%Z
    then
      let sx := (xi - Qceiling (radius flm))%Z in
      let sx := if (sx <? 0)%Z then 0%Z else sx in
      let ex := (xi + Qceiling (radius flm))%Z in
      let ex := if (ex >=? xsize flm)%Z then (xsize flm - 1)%Z else ex in
      let cur := pixel (images flm) (xsize flm) zi yi xi in
      let s' :=
        if isLocalMaxima flm cur sz ez sy yi ey sx xi ex
        then
          let i := Z.to_nat (np s) in
          mkScan (np s + 1)%Z
                 (taken_incr (s_taken s) (xsize flm) zi yi xi)
                 (upd i (nth (Z.to_nat zi) (z_values flm) 0) (out_z s))
                 (upd i (inject_Z yi) (out_y s))
                 (upd i (inject_Z xi) (out_x s))
                 (upd i cur (out_h s))
        else s in
      if (np s' >=? n_peaks flm)%Z then Return s' else Go s'
    else Go s
  else Go s.

(** The three nested loops of [findLocalMaxima], from [np = 0]. *)
Definition scan_stack (flm : flmData) (z y x h : list Q) : ctl :=
  for_ctl (Z.to_nat (zsize flm)) 0
    (fun zi s =>
       let sz := (zi - z_range flm)%Z in
       let sz := if (sz <? 0)%Z then 0%Z else sz in
       let ez := (zi + z_range flm)%Z in
       let ez := if (ez >=? zsize flm)%Z then (zsize flm - 1)%Z else ez in
       for_ctl (Z.to_nat (ysize flm - margin flm - margin flm)) (margin flm)
         (fun yi s =>
            let sy := trunc (inject_Z yi - radius flm) in
            let sy := if (sy <? 0)%Z then 0%Z else sy in
            let ey := trunc (inject_Z yi + radius flm) in
            let ey := if (ey >=? ysize flm)%Z then (ysize flm - 1)%Z else ey in
            for_ctl (Z.to_nat (xsize flm - margin flm - margin flm)) (margin flm)
              (visit flm sz ez sy ey zi yi)
              s)
         s)
    (mkScan 0 (taken flm) z y x h).

(** [findLocalMaxima]: the scanner's data on return, and the final state of
    the locals.  [np] counts the entries written: entry [np] is written and
    then [np] is incremented.  Only when the loops run to their end is
    [flm_data->n_peaks] assigned. *)
Definition findLocalMaxima (flm : flmData) (z y x h : list Q) : flmData * scan :=
  match scan_stack flm z y x h with
  | Go s =>
      (mkFlm (margin flm) (np s) (z_range flm) (xsize flm) (ysize flm)
             (zsize flm) (radius flm) (threshold flm) (z_values flm)
             (s_taken s) (images flm), s)
  | Return s =>
      (mkFlm (margin flm) (n_peaks flm) (z_range flm) (xsize flm) (ysize flm)
             (zsize flm) (radius flm) (threshold flm) (z_values flm)
             (s_taken s) (images flm), s)
  end.

(** [for (i = start; i < start + n; i++) s = body i s] with an [int] index. *)
Fixpoint for_z {S : Type} (n : nat) (start : Z) (body : Z -> S -> S) (s : S) : S :=
  match n with
  | O => s
  | Datatypes.S n' => for_z n' (start + 1)%Z body (body start s)
  end.

(** [calcMaxPeaks]: the number of pixels inside the margins that are above
    the threshold and not taken. *)
Definition calcMaxPeaks (flm : flmData) : Z :=
  for_z (Z.to_nat (zsize flm)) 0
    (fun zi np =>
       for_z (Z.to_nat (ysize flm - margin flm - margin flm)) (margin flm)
         (fun yi np =>
            for_z (Z.to_nat (xsize flm - margin flm - margin flm)) (margin flm)
              (fun xi np =>
                 if Qlt_bool (threshold flm) (pixel (images flm) (xsize flm) zi yi xi)
                 then
                   if (taken_at (taken flm) (xsize flm) zi yi xi <? 1)%Z
                   then (np + 1)%Z else np
                 else np)
              np)
         np)
    0%Z.

End Flm.

(** ** Specification vocabulary *)

Import KD Peaks Flm.

(** *** The index *)

(** The points of a tree with their payloads: the node itself, then its
    left and right subtrees. *)
Fixpoint points (t : kdnode) : list (list Q * Z) :=
  match t with
  | Null => []
  | Node p _ d l r => (p, d) :: points l ++ points r
  end.

(** The k-d partition: at a node that splits on [dir], the left subtree lies
    strictly below the node's coordinate and the right subtree at or above. *)
Fixpoint kd_ordered (dim : nat) (t : kdnode) : Prop :=
  match t with
  | Null => True
  | Node p dir _ l r =>
      (dir < dim)%nat /\
      (forall q, In q (points l) -> aget (fst q) dir < aget p dir) /\
      (forall q, In q (points r) -> aget p dir <= aget (fst q) dir) /\
      kd_ordered dim l /\ kd_ordered dim r
  end.

(** A point lies in a bounding region. *)
Definition in_rect (rect : kdhyperrect) (p : list Q) : Prop :=
  forall i, (i < rect_dim rect)%nat ->
    aget (rect_min rect) i <= aget p i /\ aget p i <= aget (rect_max rect) i.

(** A bounding region of dimension [dim] with its two arrays allocated. *)
Definition rect_wf (dim : nat) (r : kdhyperrect) : Prop :=
  rect_dim r = dim /\ length (rect_min r) = dim /\ length (rect_max r) = dim.

(** The index obtained by inserting the points [pts], with their payloads,
    in this order into an empty index of dimension [dim]. *)
Definition build (dim : nat) (pts : list (list Q * Z)) : kdtree :=
  fold_left (fun kd p => kd_insert kd (fst p) (snd p)) pts (kd_create dim).

(** What an index stores of an inserted point: its first [dim] coordinates. *)
Definition stored (dim : nat) (p : list Q * Z) : list Q * Z :=
  (firstn dim (fst p), snd p).

(** The invariant of an index of dimension [dim] holding the points [pts]. *)
Definition tree_inv (dim : nat) (pts : list (list Q * Z)) (kd : kdtree) : Prop :=
  kd_dim kd = dim /\
  kd_ordered dim (kd_root kd) /\
  Permutation (points (kd_root kd)) (map (stored dim) pts) /\
  match kd_rect kd with
  | None => pts = []
  | Some r =>
      pts <> [] /\ rect_wf dim r /\
      forall p, In p (points (kd_root kd)) -> in_rect r (fst p)
  end.

(** *** Queries *)

(** The points and payloads of a result list, in the order of the cursor. *)
Definition res_points (rl : list res_node) : list (list Q * Z) :=
  map (fun r => (node_pos (item r), node_data (item r))) rl.

(** What a range search over the tree [t] makes of the result list [rl]: it
    puts in front of it entries that lie within the range and come from
    different nodes of [t], and returns their number. *)
Definition adds_from (dim : nat) (pos : list Q) (range : Q) (t : kdnode)
  (rl : list res_node) (out : Z * list res_node) : Prop :=
  exists found,
    out = (Z.of_nat (length found), found ++ rl) /\
    (forall p, In p (res_points found) -> dist_sq dim (fst p) pos <= SQ range) /\
    exists rest, Permutation (res_points found ++ rest) (points t).



(** *** Peaks *)

(** The peaks as they are inserted by [createKDTree]. *)
Definition peak_points (x y : list Q) (n : nat) : list (list Q * Z) :=
  map (fun i => ([aget x i; aget y i], Z.of_nat i)) (seq 0 n).

(** The squared distance between the index point [k] of [(ix, iy)] and the
    query point [i] of [(x, y)]. *)
Definition query_dist_sq (ix iy : list Q) (k : nat) (x y : list Q) (i : nat) : Q :=
  dist_sq 2 [aget ix k; aget iy k] [aget x i; aget y i].

(** The status changes the consolidation operations make to one peak: none,
    from [CONVERGED] to [RUNNING], or from a status other than [ERROR] to
    [ERROR] when the suppression rule [rule] applies to the peak. *)
Definition transition (rule : Prop) (old new : status) : Prop :=
  new = old \/
  (old = CONVERGED /\ new = RUNNING) \/
  (old <> ERROR /\ new = ERROR /\ rule).

(** The suppression rule of [markDimmerPeaks] for peak [i]: some peak
    within [r_removal] of it is strictly brighter. *)
Definition dimmer_rule (x y h : list Q) (r_removal : Q) (np i : nat) : Prop :=
  (i < np)%nat /\
  exists k, (k < np)%nat /\ aget h i < aget h k /\
    dist_sq 2 [aget x k; aget y k] [aget x i; aget y i] <= SQ r_removal.

(** The suppression rule of [markLowSignificancePeaks] for peak [i]. *)
Definition low_significance_rule (sig : list Q) (min_sig : Q) (np i : nat) : Prop :=
  (i < np)%nat /\ aget sig i <= min_sig.

(** One iteration of the loop over the neighbours, on the entry [e]. *)
Definition mark_entry (st : list status) (e : res_node) : list status :=
  let k := Z.to_nat (node_data (item e)) in
  if status_eqb (sget st k) CONVERGED then upd k RUNNING st else st.

(** The decision of [markDimmerPeaks] on a peak [i] that is not in state
    [ERROR]: its range query has at least two results, one of them
    strictly brighter.  No status enters it. *)
Definition is_dimmer (x y h : list Q) (r_removal : Q) (np i : nat) : bool :=
  let set_r :=
    kd_nearest_range (createKDTree x y np) [aget x i; aget y i] r_removal in
  negb (kd_res_size set_r <? 2)%Z
  && brighter_scan (Z.to_nat (kd_res_size set_r)) set_r h i.

(** The peaks below [m] that [markDimmerPeaks] sets to [ERROR]. *)
Definition dimmer_marked (x y h : list Q) (st : list status) (r_removal : Q)
  (np m : nat) : list nat :=
  filter (fun k => negb (status_eqb (sget st k) ERROR)
                   && is_dimmer x y h r_removal np k)
         (seq 0 m).

(** The status [runningIfHasNeighbors] gives to the current peak [i]. *)
Definition running_status (c_x c_y n_x n_y : list Q) (st : list status)
  (radius : Q) (nn i : nat) : status :=
  if status_eqb (sget st i) RUNNING || status_eqb (sget st i) ERROR
  then sget st i
  else
    if (0 <? kd_res_size (kd_nearest_range (createKDTree n_x n_y nn)
                            [aget c_x i; aget c_y i] radius))%Z
    then RUNNING else sget st i.

(** The squared distance [nearestKDTree] computes for a result entry, from
    the coordinates that [kd_res_item] copies out of an index of dimension
    [dim]. *)
Definition entry_dd (dim : nat) (xi yi : Q) (e : res_node) : Q :=
  let pos := firstn dim (node_pos (item e)) in
  (aget pos 0 - xi) * (aget pos 0 - xi) + (aget pos 1 - yi) * (aget pos 1 - yi).

(** One iteration of the scan of [nearestKDTree] on [(min_dd, min_i)]. *)
Definition scan_entry (dim : nat) (xi yi : Q) (acc : Q * Z) (e : res_node)
  : Q * Z :=
  if Qlt_bool (entry_dd dim xi yi e) (fst acc)
  then (entry_dd dim xi yi e, node_data (item e)) else acc.

(** What [nearestKDTree] writes to [dist[i]] and [index[i]]. *)
Definition nearest_entry (kd : kdtree) (x y : list Q) (radius : Q) (i : nat)
  : dval * Z :=
  let set := kd_nearest_range kd [aget x i; aget y i] radius in
  let '(_, min_dd, min_i) :=
    nearest_scan set (aget x i) (aget y i) (radius * radius + (1 # 10)) (-1)%Z in
  if (0 <=? min_i)%Z then (Dsqrt min_dd, min_i) else (Dlit (-1), (-1)%Z).

(** *** The scanner *)

(** The output arrays of a scan state agree with the caller's arrays
    [z], [y], [x], [h] from index [np] on: nothing was written there. *)
Definition untouched_from_np (z y x h : list Q) (s : scan) : Prop :=
  forall j, (Z.to_nat (np s) <= j)%nat ->
    nth j (out_z s) 0 = nth j z 0 /\ nth j (out_y s) 0 = nth j y 0 /\
    nth j (out_x s) 0 = nth j x 0 /\ nth j (out_h s) 0 = nth j h 0.

(** What holds of the scan when a loop goes on and when it returns, for the
    maximum peak count [n]. *)
Definition scan_post (n : Z) (z y x h : list Q) (c : ctl) : Prop :=
  match c with
  | Go s => (0 <= np s < n)%Z /\ untouched_from_np z y x h s
  | Return s => np s = n /\ untouched_from_np z y x h s
  end.

(** *** Inputs used below *)

(** Three points, the second and the third at the same distance from the
    query point [nearest_tie_query]. *)
Definition nearest_tie_points : list (list Q * Z) :=
  [([0; 0], 0%Z); ([10; 5], 1%Z); ([10; 3], 2%Z)].

Definition nearest_tie_query : list Q := [10; 4].

(** Two peaks with the same [x]; the second one is at distance exactly 1
    from the point (0, 5). *)
Definition edge_x : list Q := [1; 1].
Definition edge_y : list Q := [0; 5].

(** Four peaks; peak 1 is at distance exactly 2 from peak 2, peak 3 at
    distance 1 from peak 2. *)
Definition dim_x : list Q := [2; 2; 0; 0].
Definition dim_y : list Q := [0; 10; 10; 11].
Definition dim_h : list Q := [1; 9; 5; 5].

(** Four peaks; peak 1 is at distance exactly 3 from peak 2 and already in
    state [ERROR]. *)
Definition err_x : list Q := [3; 3; 0; 0].
Definition err_y : list Q := [0; 7; 7; 8].
Definition err_h : list Q := [1; 8; 4; 4].
Definition err_status : list status := [RUNNING; ERROR; RUNNING; RUNNING].

(** One plane of 2 x 2 pixels, with two pixels of intensity 5 at
    (y, x) = (0, 1) and (1, 0); radius 2, no margin, threshold 0. *)
Definition antidiagonal : flmData :=
  mkFlm 0 10 0 2 2 1 2 0 [0] [[0; 0; 0; 0]%Z] [[0; 5; 5; 0]].

(** One plane of one pixel of intensity 5 and a maximum peak count of 0. *)
Definition no_room : flmData :=
  mkFlm 0 0 0 1 1 1 1 0 [7] [[0]%Z] [[5]].

(** One plane of 1 x 3 pixels, all local maxima for radius 0, and a maximum
    peak count of 2. *)
Definition room_for_two : flmData :=
  mkFlm 0 2 0 3 1 1 0 0 [7] [[0; 0; 0]%Z] [[5; 6; 7]].

(** *** Further vocabulary *)

(** The split axes cycle: a node splits on [dir], its children on
    [(dir + 1) mod dim]. *)
Fixpoint axes_cycle (dim dir : nat) (t : kdnode) : Prop :=
  match t with
  | Null => True
  | Node _ d _ l r =>
      d = dir /\
      axes_cycle dim (Nat.modulo (dir + 1) dim) l /\
      axes_cycle dim (Nat.modulo (dir + 1) dim) r
  end.


(** The unit square, a region used as an example. *)
Definition unit_rect : kdhyperrect := mkRect 2 [0; 0] [1; 1].

(** The peaks below [np] whose status an operation changed to [ERROR]. *)
Definition newly_error (st st' : list status) (np : nat) : list nat :=
  filter (fun k => negb (status_eqb (sget st k) ERROR)
                   && status_eqb (sget st' k) ERROR)
         (seq 0 np).

(** Three converged peaks in a row: peak 1 is dim and of low significance
    and lies at distance 1 from peak 0; peak 2 is far from both. *)
Definition near_x : list Q := [0; 1; 8].
Definition near_y : list Q := [0; 0; 0].
Definition near_h : list Q := [9; 2; 5].
Definition near_sig : list Q := [9; 1; 9].
Definition near_status : list status := [CONVERGED; CONVERGED; CONVERGED].

(** *** The scanner and the pixels it visits *)

(** The pixels that [findLocalMaxima] and [calcMaxPeaks] visit. *)
Definition in_scan (flm : flmData) (zi yi xi : Z) : Prop :=
  (0 <= zi < zsize flm)%Z /\
  (margin flm <= yi < ysize flm - margin flm)%Z /\
  (margin flm <= xi < xsize flm - margin flm)%Z.

(** The pixel [(z', y', x')] comes at or after [(zi, yi, xi)] in the order
    of the three loops. *)
Definition not_before (zi yi xi z' y' x' : Z) : Prop :=
  (zi < z')%Z \/ (z' = zi /\ ((yi < y')%Z \/ (y' = yi /\ (xi <= x')%Z))).

(** The mask [t] is still the mask of [flm] at every visited pixel at or
    after [(zi, yi, xi)]. *)
Definition mask_kept_from (flm : flmData) (t : list (list Z)) (zi yi xi : Z)
  : Prop :=
  forall z' y' x', in_scan flm z' y' x' -> not_before zi yi xi z' y' x' ->
    taken_at t (xsize flm) z' y' x' = taken_at (taken flm) (xsize flm) z' y' x'.

(** A scan loop and a counting loop side by side: [R] relates the scan
    state and the count while the scan goes on; when it has returned, its
    number of peaks is at most the count. *)
Definition counted (R : scan -> Z -> Prop) (k : ctl) (c : Z) : Prop :=
  match k with
  | Go s => R s c
  | Return s => (np s <= c)%Z
  end.

(** The state of a finished loop. *)
Definition ctl_scan (k : ctl) : scan :=
  match k with Go s | Return s => s end.

(** *** The scan as one loop over the visited pixels *)

(** The values [start, start + 1, ..., start + n - 1] of a loop index. *)
Fixpoint zcount (start : Z) (n : nat) : list Z :=
  match n with
  | O => []
  | S n' => start :: zcount (start + 1)%Z n'
  end.

(** The pixels [findLocalMaxima] visits, in the order of its three loops. *)
Definition scan_cells (flm : flmData) : list (Z * Z * Z) :=
  flat_map (fun zi =>
    flat_map (fun yi =>
      map (fun xi => (zi, yi, xi))
          (zcount (margin flm) (Z.to_nat (xsize flm - margin flm - margin flm))))
      (zcount (margin flm) (Z.to_nat (ysize flm - margin flm - margin flm))))
    (zcount 0 (Z.to_nat (zsize flm))).

(** The search region [findLocalMaxima] sets around a pixel. *)
Definition z_lo (flm : flmData) (zi : Z) : Z :=
  let sz := (zi - z_range flm)%Z in if (sz <? 0)%Z then 0%Z else sz.

Definition z_hi (flm : flmData) (zi : Z) : Z :=
  let ez := (zi + z_range flm)%Z in
  if (ez >=? zsize flm)%Z then (zsize flm - 1)%Z else ez.

Definition y_lo (flm : flmData) (yi : Z) : Z :=
  let sy := trunc (inject_Z yi - radius flm) in if (sy <? 0)%Z then 0%Z else sy.

Definition y_hi (flm : flmData) (yi : Z) : Z :=
  let ey := trunc (inject_Z yi + radius flm) in
  if (ey >=? ysize flm)%Z then (ysize flm - 1)%Z else ey.

Definition x_lo (flm : flmData) (xi : Z) : Z :=
  let sx := (xi - Qceiling (radius flm))%Z in if (sx <? 0)%Z then 0%Z else sx.

Definition x_hi (flm : flmData) (xi : Z) : Z :=
  let ex := (xi + Qceiling (radius flm))%Z in
  if (ex >=? xsize flm)%Z then (xsize flm - 1)%Z else ex.

(** The call of [isLocalMaxima] that [findLocalMaxima] makes on a pixel. *)
Definition maximum_at (flm : flmData) (zi yi xi : Z) : bool :=
  isLocalMaxima flm (pixel (images flm) (xsize flm) zi yi xi)
    (z_lo flm zi) (z_hi flm zi) (y_lo flm yi) yi (y_hi flm yi)
    (x_lo flm xi) xi (x_hi flm xi).

(** The body of the innermost loop of [findLocalMaxima] on a pixel. *)
Definition visit_cell (flm : flmData) (c : Z * Z * Z) (s : scan) : ctl :=
  let '(zi, yi, xi) := c in
  visit flm (z_lo flm zi) (z_hi flm zi) (y_lo flm yi) (y_hi flm yi) zi yi xi s.

(** A loop over a list, stopped by a [return]. *)
Fixpoint ctl_fold {A : Type} (body : A -> scan -> ctl) (l : list A) (s : scan)
  : ctl :=
  match l with
  | [] => Go s
  | a :: l' =>
      match body a s with
      | Go s' => ctl_fold body l' s'
      | Return s' => Return s'
      end
  end.

(** The pixels [findLocalMaxima] reports when it reaches them: above the
    threshold, not taken at the call, and a local maximum. *)
Definition qualifies (flm : flmData) (c : Z * Z * Z) : bool :=
  let '(zi, yi, xi) := c in
  Qlt_bool (threshold flm) (pixel (images flm) (xsize flm) zi yi xi)
  && (taken_at (taken flm) (xsize flm) zi yi xi <? 1)%Z
  && maximum_at flm zi yi xi.

(** The state after the pixel [c] was written as the next peak. *)
Definition record_peak (flm : flmData) (c : Z * Z * Z) (s : scan) : scan :=
  let '(zi, yi, xi) := c in
  let i := Z.to_nat (np s) in
  mkScan (np s + 1)%Z
         (taken_incr (s_taken s) (xsize flm) zi yi xi)
         (upd i (nth (Z.to_nat zi) (z_values flm) 0) (out_z s))
         (upd i (inject_Z yi) (out_y s))
         (upd i (inject_Z xi) (out_x s))
         (upd i (pixel (images flm) (xsize flm) zi yi xi) (out_h s)).

(** Entry [j] of the output arrays of [s] describes the pixel [c]. *)
Definition reports (flm : flmData) (s : scan) (j : nat) (c : Z * Z * Z) : Prop :=
  let '(zi, yi, xi) := c in
  nth j (out_z s) 0 = nth (Z.to_nat zi) (z_values flm) 0 /\
  nth j (out_y s) 0 = inject_Z yi /\
  nth j (out_x s) 0 = inject_Z xi /\
  nth j (out_h s) 0 = pixel (images flm) (xsize flm) zi yi xi.

(** The output arrays of [s] have room for [n_peaks] entries. *)
Definition room (flm : flmData) (s : scan) : Prop :=
  (Z.to_nat (n_peaks flm) <= length (out_z s))%nat /\
  (Z.to_nat (n_peaks flm) <= length (out_y s))%nat /\
  (Z.to_nat (n_peaks flm) <= length (out_x s))%nat /\
  (Z.to_nat (n_peaks flm) <= length (out_h s))%nat.

Definition cell_in_scan (flm : flmData) (c : Z * Z * Z) : Prop :=
  let '(zi, yi, xi) := c in in_scan flm zi yi xi.

(** The entry of the mask [t] for the pixel [c], and whether the mask has
    such an entry. *)
Definition cell_taken (flm : flmData) (t : list (list Z)) (c : Z * Z * Z) : Z :=
  let '(zi, yi, xi) := c in taken_at t (xsize flm) zi yi xi.

Definition cell_in_range (flm : flmData) (t : list (list Z)) (c : Z * Z * Z)
  : Prop :=
  let '(zi, yi, xi) := c in
  (Z.to_nat zi < length t)%nat /\
  (Z.to_nat (yi * xsize flm + xi) < length (nth (Z.to_nat zi) t []))%nat.

(** The pixel [c] is visited before the pixel [c']. *)
Definition strictly_before (c c' : Z * Z * Z) : Prop :=
  let '(zi, yi, xi) := c in
  let '(z', y', x') := c' in
  not_before zi yi (xi + 1) z' y' x'.

(** A list of pixels in the order of the scan. *)
Fixpoint scan_ordered (l : list (Z * Z * Z)) : Prop :=
  match l with
  | [] => True
  | c :: rest => (forall c', In c' rest -> strictly_before c c') /\ scan_ordered rest
  end.

(** The pixels [calcMaxPeaks] counts: above the threshold and not taken. *)
Definition candidate (flm : flmData) (c : Z * Z * Z) : bool :=
  let '(zi, yi, xi) := c in
  Qlt_bool (threshold flm) (pixel (images flm) (xsize flm) zi yi xi)
  && (taken_at (taken flm) (xsize flm) zi yi xi <? 1)%Z.

(** *** Inputs on which the arithmetic of the source is exact *)

(** A number on the grid: a multiple of 1/1024 of magnitude at most 4096.
    Such a number is a double.  The difference of two numbers on the grid,
    the square of this difference and a sum of at most 128 such squares are
    multiples of 2^-20 whose numerator is at most 2^53 in magnitude, and so
    are doubles as well: on coordinates and radii on the grid the source
    computes its differences, squares and sums without rounding, and its
    values are those of this model. *)
Definition on_grid (c : Q) : Prop :=
  exists n : Z, (Z.abs n <= 4194304)%Z /\ c == n # 1024.

(** Points with all their coordinates on the grid. *)
Definition grid_points (pts : list (list Q * Z)) : Prop :=
  Forall (fun p => Forall on_grid (fst p)) pts.

(** The first [n] peaks of the arrays [x] and [y] are on the grid. *)
Definition grid_peaks (x y : list Q) (n : nat) : Prop :=
  forall i, (i < n)%nat -> on_grid (aget x i) /\ on_grid (aget y i).

(** ** Basic facts on comparisons, arrays and loops *)

Lemma Qlt_bool_true (x y : Q) : Qlt_bool x y = true <-> x < y.
Proof.
  unfold Qlt_bool. rewrite negb_true_iff.
  split; intro H.
  - apply Qnot_le_lt. intro Hle. apply Qle_bool_iff in Hle. congruence.
  - destruct (Qle_bool y x) eqn:E; [|reflexivity].
    apply Qle_bool_iff in E. lra.
Qed.

Lemma Qlt_bool_false (x y : Q) : Qlt_bool x y = false <-> y <= x.
Proof.
  unfold Qlt_bool. rewrite negb_false_iff. apply Qle_bool_iff.
Qed.

Lemma Qle_bool_false (x y : Q) : Qle_bool x y = false <-> y < x.
Proof.
  split; intro H.
  - apply Qnot_le_lt. intro Hle. apply Qle_bool_iff in Hle. congruence.
  - destruct (Qle_bool x y) eqn:E; [|reflexivity].
    apply Qle_bool_iff in E. lra.
Qed.

Lemma SQ_nonneg (x : Q) : 0 <= SQ x.
Proof. unfold SQ. nra. Qed.

Lemma upd_length {A : Type} (i : nat) (v : A) (l : list A) :
  length (upd i v l) = length l.
Proof.
  revert i. induction l as [|a l IH]; intros [|i]; simpl; auto.
Qed.

Lemma nth_upd_other {A : Type} (i j : nat) (v d : A) (l : list A) :
  i <> j -> nth j (upd i v l) d = nth j l d.
Proof.
  revert i j. induction l as [|a l IH]; intros [|i] [|j] H; simpl; auto.
  congruence.
Qed.

Lemma nth_upd_same {A : Type} (i : nat) (v d : A) (l : list A) :
  (i < length l)%nat -> nth i (upd i v l) d = v.
Proof.
  revert i. induction l as [|a l IH]; intros [|i] H; simpl in *; try lia; auto.
  apply IH. lia.
Qed.

Lemma nth_upd_cases {A : Type} (i j : nat) (v d : A) (l : list A) :
  nth j (upd i v l) d = nth j l d \/ (i = j /\ nth j (upd i v l) d = v).
Proof.
  destruct (Nat.eq_dec i j) as [->|Hne].
  - destruct (Nat.lt_ge_cases j (length l)) as [Hlt|Hge].
    + right. split; [reflexivity|]. now apply nth_upd_same.
    + left. rewrite !nth_overflow; auto. now rewrite upd_length.
  - left. now apply nth_upd_other.
Qed.

Lemma upd_restore {A : Type} (i : nat) (v d : A) (l : list A) :
  upd i (nth i l d) (upd i v l) = l.
Proof.
  revert i. induction l as [|a l IH]; intros [|i]; simpl; auto.
  now rewrite IH.
Qed.


Lemma for_loop_inv {S : Type} (P : nat -> S -> Prop) (n start : nat)
  (body : nat -> S -> S) (s : S) :
  P start s ->
  (forall i s', (start <= i < start + n)%nat -> P i s' -> P (Datatypes.S i) (body i s')) ->
  P (start + n)%nat (for_loop n start body s).
Proof.
  revert start s. induction n as [|n IH]; intros start s H0 Hstep; simpl.
  - now rewrite Nat.add_0_r.
  - replace (start + Datatypes.S n)%nat with (Datatypes.S start + n)%nat by lia.
    apply IH.
    + apply Hstep; [lia|assumption].
    + intros i s' Hi. apply Hstep. lia.
Qed.

Lemma for_loop_snoc {S : Type} (n start : nat) (body : nat -> S -> S) (s : S) :
  for_loop (Datatypes.S n) start body s
  = body (start + n)%nat (for_loop n start body s).
Proof.
  revert start s. induction n as [|n IH]; intros start s.
  - simpl. now rewrite Nat.add_0_r.
  - change (for_loop (Datatypes.S (Datatypes.S n)) start body s)
      with (for_loop (Datatypes.S n) (Datatypes.S start) body (body start s)).
    rewrite IH. simpl. f_equal. lia.
Qed.

(** ** Exact arithmetic on the grid *)

Lemma on_grid_Z (n : Z) : (Z.abs n <= 4096)%Z -> on_grid (inject_Z n).
Proof.
  intro H. exists (n * 1024)%Z. split; [lia|].
  unfold Qeq, inject_Z. simpl. lia.
Qed.

(** The square of a difference of two numbers on the grid is a multiple of
    2^-20 with a numerator of at most 2^46. *)
Lemma on_grid_diff_sq (a b : Q) :
  on_grid a -> on_grid b ->
  exists n : Z, (0 <= n <= 70368744177664)%Z /\ SQ (a - b) == n # 1048576.
Proof.
  intros (na & Ha & Ea) (nb & Hb & Eb).
  exists ((na - nb) * (na - nb))%Z. split.
  { assert (Hd : (-8388608 <= na - nb <= 8388608)%Z) by lia.
    generalize dependent (na - nb)%Z. intros d Hd.
    assert (0 <= (8388608 - d) * (8388608 + d))%Z by (apply Z.mul_nonneg_nonneg; lia).
    nia. }
  unfold SQ. rewrite Ea, Eb. unfold Qeq. simpl. ring.
Qed.

(** Every partial sum of the squared distance loop, over at most 128
    coordinates on the grid, is a multiple of 2^-20 with a numerator of at
    most 2^53: the loop of the source adds without rounding. *)
Lemma dist_sq_on_grid (m : nat) (p q : list Q) :
  (m <= 128)%nat ->
  (forall i, (i < m)%nat -> on_grid (aget p i) /\ on_grid (aget q i)) ->
  exists n : Z,
    (0 <= n <= Z.of_nat m * 70368744177664)%Z /\
    (n <= 9007199254740992)%Z /\
    dist_sq m p q == n # 1048576.
Proof.
  intros Hm Hg.
  assert (H : exists n : Z, (0 <= n <= Z.of_nat (0 + m) * 70368744177664)%Z /\
                            dist_sq m p q == n # 1048576).
  { unfold dist_sq.
    apply (for_loop_inv
             (fun i acc => exists n : Z,
                (0 <= n <= Z.of_nat i * 70368744177664)%Z /\ acc == n # 1048576)
             m 0).
    - exists 0%Z. split; [lia|reflexivity].
    - intros i acc Hi (n & Hn & En).
      destruct (Hg i ltac:(lia)) as [Hp Hq].
      destruct (on_grid_diff_sq _ _ Hp Hq) as (k & Hk & Ek).
      exists (n + k)%Z. split; [lia|].
      rewrite En, Ek. unfold Qeq. simpl. ring. }
  destruct H as (n & Hn & En). exists n.
  split; [exact Hn|]. split; [lia|exact En].
Qed.

(** The same for the loop of [hyperrect_dist_sq], on a region and a point
    with coordinates on the grid. *)
Lemma hyperrect_dist_sq_on_grid (rect : kdhyperrect) (pos : list Q) :
  (rect_dim rect <= 128)%nat ->
  (forall i, (i < rect_dim rect)%nat ->
     on_grid (aget (rect_min rect) i) /\ on_grid (aget (rect_max rect) i) /\
     on_grid (aget pos i)) ->
  exists n : Z,
    (0 <= n <= 9007199254740992)%Z /\
    hyperrect_dist_sq rect pos == n # 1048576.
Proof.
  intros Hm Hg.
  assert (H : exists n : Z,
            (0 <= n <= Z.of_nat (0 + rect_dim rect) * 70368744177664)%Z /\
            hyperrect_dist_sq rect pos == n # 1048576).
  { unfold hyperrect_dist_sq.
    apply (for_loop_inv
             (fun i acc => exists n : Z,
                (0 <= n <= Z.of_nat i * 70368744177664)%Z /\ acc == n # 1048576)
             (rect_dim rect) 0).
    - exists 0%Z. split; [lia|reflexivity].
    - intros i acc Hi (n & Hn & En).
      destruct (Hg i ltac:(lia)) as (Hlo & Hhi & Hp).
      destruct (on_grid_diff_sq _ _ Hlo Hp) as (k1 & Hk1 & Ek1).
      destruct (on_grid_diff_sq _ _ Hhi Hp) as (k2 & Hk2 & Ek2).
      destruct (Qlt_bool (aget pos i) (aget (rect_min rect) i)).
      + exists (n + k1)%Z. split; [lia|].
        rewrite En, Ek1. unfold Qeq. simpl. ring.
      + destruct (Qlt_bool (aget (rect_max rect) i) (aget pos i)).
        * exists (n + k2)%Z. split; [lia|].
          rewrite En, Ek2. unfold Qeq. simpl. ring.
        * exists n. split; [lia|exact En]. }
  destruct H as (n & Hn & En). exists n. split; [lia|exact En].
Qed.

(** ** Squared distances *)

Lemma aget_firstn (n i : nat) (a : list Q) :
  (i < n)%nat -> aget (firstn n a) i = aget a i.
Proof.
  unfold aget. revert i a. induction n as [|n IH]; intros i a H; [lia|].
  destruct a as [|x a]; simpl; [now destruct i|].
  destruct i as [|i]; simpl; auto. apply IH. lia.
Qed.

Lemma for_loop_le (n start : nat) (f g : nat -> Q -> Q) (a1 a2 : Q) :
  a1 <= a2 ->
  (forall i u v, (start <= i < start + n)%nat -> u <= v -> f i u <= g i v) ->
  for_loop n start f a1 <= for_loop n start g a2.
Proof.
  revert start a1 a2. induction n as [|n IH]; intros start a1 a2 H0 H; simpl; auto.
  apply IH.
  - apply H; [lia|assumption].
  - intros i u v Hi Huv. apply H; [lia|assumption].
Qed.

Lemma sumsq_acc_le (n start : nat) (a b : list Q) (acc : Q) :
  acc <= for_loop n start (fun i s => s + SQ (aget a i - aget b i)) acc.
Proof.
  revert start acc. induction n as [|n IH]; intros start acc; simpl; [lra|].
  eapply Qle_trans; [|apply IH].
  pose proof (SQ_nonneg (aget a start - aget b start)). lra.
Qed.

Lemma sumsq_term_le (n start d : nat) (a b : list Q) (acc : Q) :
  (start <= d < start + n)%nat ->
  acc + SQ (aget a d - aget b d)
  <= for_loop n start (fun i s => s + SQ (aget a i - aget b i)) acc.
Proof.
  revert start acc. induction n as [|n IH]; intros start acc H; simpl; [lia|].
  destruct (Nat.eq_dec d start) as [->|Hne].
  - apply sumsq_acc_le.
  - eapply Qle_trans; [|apply IH; lia].
    pose proof (SQ_nonneg (aget a start - aget b start)). lra.
Qed.

Lemma dist_sq_nonneg (dim : nat) (a b : list Q) : 0 <= dist_sq dim a b.
Proof. apply sumsq_acc_le. Qed.

Lemma dist_sq_term (dim d : nat) (a b : list Q) :
  (d < dim)%nat -> SQ (aget a d - aget b d) <= dist_sq dim a b.
Proof.
  intro H. unfold dist_sq.
  eapply Qle_trans; [|apply (sumsq_term_le dim 0 d); lia]. lra.
Qed.



(** ** Insertion *)

Lemma points_insert_rec (t : kdnode) (pos : list Q) (data : Z) (dir dim : nat) :
  Permutation (points (insert_rec t pos data dir dim))
              ((firstn dim pos, data) :: points t).
Proof.
  revert dir. induction t as [|p d dt l IHl r IHr]; intro dir; simpl.
  - apply Permutation_refl.
  - destruct (Qlt_bool (aget pos d) (aget p d)); simpl.
    + rewrite (IHl _). simpl. apply perm_swap.
    + rewrite (IHr _).
      rewrite <- Permutation_middle. apply perm_swap.
Qed.

Lemma kd_ordered_insert_rec (t : kdnode) (pos : list Q) (data : Z) (dir dim : nat) :
  (dir < dim)%nat -> kd_ordered dim t ->
  kd_ordered dim (insert_rec t pos data dir dim).
Proof.
  revert dir. induction t as [|p d dt l IHl r IHr]; intros dir Hdir Hord; simpl.
  - repeat split; auto; intros q [].
  - destruct Hord as (Hd & Hl & Hr & Hol & Hor).
    assert (Hnew : (Nat.modulo (d + 1) dim < dim)%nat)
      by (apply Nat.mod_upper_bound; lia).
    destruct (Qlt_bool (aget pos d) (aget p d)) eqn:E; simpl.
    + repeat split; auto.
      intros q Hq.
      apply (Permutation_in _ (points_insert_rec l pos data _ dim)) in Hq.
      destruct Hq as [<-|Hq]; [|now apply Hl].
      simpl. rewrite aget_firstn by assumption. now apply Qlt_bool_true.
    + repeat split; auto.
      intros q Hq.
      apply (Permutation_in _ (points_insert_rec r pos data _ dim)) in Hq.
      destruct Hq as [<-|Hq]; [|now apply Hr].
      simpl. rewrite aget_firstn by assumption. now apply Qlt_bool_false.
Qed.

(** ** The bounding region *)

Lemma aget_upd_same (i : nat) (v : Q) (l : list Q) :
  (i < length l)%nat -> aget (upd i v l) i = v.
Proof. apply nth_upd_same. Qed.

Lemma aget_upd_other (i j : nat) (v : Q) (l : list Q) :
  i <> j -> aget (upd i v l) j = aget l j.
Proof. apply nth_upd_other. Qed.

Lemma in_rect_widen (r r' : kdhyperrect) (p : list Q) :
  rect_dim r' = rect_dim r ->
  (forall i, (i < rect_dim r)%nat ->
     aget (rect_min r') i <= aget (rect_min r) i /\
     aget (rect_max r) i <= aget (rect_max r') i) ->
  in_rect r p -> in_rect r' p.
Proof.
  intros Hd Hw Hin i Hi. rewrite Hd in Hi.
  destruct (Hw i Hi), (Hin i Hi). split; lra.
Qed.

Lemma hyperrect_extend_spec (dim : nat) (r : kdhyperrect) (pos : list Q) :
  rect_wf dim r ->
  rect_wf dim (hyperrect_extend r pos) /\
  (forall i, (i < dim)%nat ->
     aget (rect_min (hyperrect_extend r pos)) i <= aget (rect_min r) i /\
     aget (rect_max r) i <= aget (rect_max (hyperrect_extend r pos)) i) /\
  (forall i, (i < dim)%nat ->
     aget (rect_min (hyperrect_extend r pos)) i <= aget pos i /\
     aget pos i <= aget (rect_max (hyperrect_extend r pos)) i).
Proof.
  intros (Hd & Hmin & Hmax). unfold hyperrect_extend. rewrite Hd.
  pose (P := fun (k : nat) (r' : kdhyperrect) =>
    rect_wf dim r' /\
    (forall i, (i < dim)%nat ->
       aget (rect_min r') i <= aget (rect_min r) i /\
       aget (rect_max r) i <= aget (rect_max r') i) /\
    (forall i, (i < k)%nat ->
       aget (rect_min r') i <= aget pos i /\ aget pos i <= aget (rect_max r') i)).
  match goal with |- context [for_loop dim 0 ?b r] =>
    assert (HP : P (0 + dim)%nat (for_loop dim 0 b r)) end.
  { apply for_loop_inv.
    - split; [repeat split; auto|]. split; [intros i Hi; split; lra|intros i Hi; lia].
    - intros k r' Hk ((Hd' & Hmin' & Hmax') & Hw & Hc).
      destruct (Qlt_bool (aget pos k) (aget (rect_min r') k)) eqn:E1;
        [apply Qlt_bool_true in E1 | apply Qlt_bool_false in E1]; simpl;
      match goal with |- context [Qlt_bool ?a ?b] =>
        destruct (Qlt_bool a b) eqn:E2;
          [apply Qlt_bool_true in E2 | apply Qlt_bool_false in E2] end; simpl;
      (split; [unfold rect_wf; simpl; rewrite ?upd_length; auto|]);
      (split; [intros i Hi; simpl; destruct (Hw i Hi);
        destruct (Nat.eq_dec k i) as [->|Hne];
        rewrite ?aget_upd_same by lia; rewrite ?aget_upd_other by lia;
        split; lra|]);
      (intros i Hi; simpl; destruct (Nat.eq_dec k i) as [->|Hne];
        [rewrite ?aget_upd_same by lia; split; lra
        |rewrite ?aget_upd_other by lia; apply Hc; lia]). }
  destruct HP as (Hwf' & Hw' & Hc'). auto.
Qed.

(** ** The index built by insertions *)

Lemma tree_inv_create (dim : nat) : (0 < dim)%nat -> tree_inv dim [] (kd_create dim).
Proof. intro H. repeat split; simpl; auto. Qed.

Lemma tree_inv_insert (dim : nat) (pts : list (list Q * Z)) (kd : kdtree)
  (p : list Q * Z) :
  (0 < dim)%nat -> (dim <= length (fst p))%nat ->
  tree_inv dim pts kd ->
  tree_inv dim (pts ++ [p]) (kd_insert kd (fst p) (snd p)).
Proof.
  intros Hdim Hlen (Hd & Hord & Hperm & Hrect).
  assert (Hperm' :
    Permutation (points (insert_rec (kd_root kd) (fst p) (snd p) 0 dim))
                (map (stored dim) (pts ++ [p]))).
  { rewrite points_insert_rec, map_app. simpl.
    rewrite <- Permutation_cons_append. now apply perm_skip. }
  assert (Hord' : kd_ordered dim (insert_rec (kd_root kd) (fst p) (snd p) 0 dim))
    by now apply kd_ordered_insert_rec.
  unfold kd_insert. rewrite Hd.
  destruct (kd_rect kd) as [r|] eqn:Er.
  - destruct Hrect as (Hne & Hwf & Hin).
    destruct (hyperrect_extend_spec dim r (fst p) Hwf) as (Hwf' & Hw & Hc).
    split; [reflexivity|]. split; [exact Hord'|]. split; [exact Hperm'|].
    simpl. split; [|split; [exact Hwf'|]].
    + intro H. now apply app_eq_nil in H as [_ H].
    + intros q Hq.
      apply (Permutation_in _ (points_insert_rec _ _ _ _ _)) in Hq.
      destruct Hwf as (Hrd & _). destruct Hwf' as (Hrd' & _).
      destruct Hq as [<-|Hq].
      * intros i Hi. simpl. rewrite aget_firstn by lia. apply Hc. lia.
      * apply (in_rect_widen r); [lia| |apply Hin, Hq].
        intros j Hj. apply Hw. lia.
  - subst pts.
    split; [reflexivity|]. split; [exact Hord'|]. split; [exact Hperm'|].
    simpl. split; [discriminate|]. split.
    + unfold rect_wf. simpl. rewrite length_firstn. lia.
    + intros q Hq. apply (Permutation_in _ Hperm') in Hq. simpl in Hq.
      destruct Hq as [<-|[]]. intros i Hi. simpl. lra.
Qed.

Lemma build_snoc (dim : nat) (pts : list (list Q * Z)) (p : list Q * Z) :
  build dim (pts ++ [p]) = kd_insert (build dim pts) (fst p) (snd p).
Proof. unfold build. now rewrite fold_left_app. Qed.

Lemma tree_inv_build (dim : nat) (pts : list (list Q * Z)) :
  (0 < dim)%nat ->
  Forall (fun p => (dim <= length (fst p))%nat) pts ->
  tree_inv dim pts (build dim pts).
Proof.
  intro Hdim. induction pts as [|p pts IH] using rev_ind; intro Hall.
  - now apply tree_inv_create.
  - rewrite build_snoc. apply Forall_app in Hall as [Hpts Hp].
    apply tree_inv_insert; auto. now inversion Hp.
Qed.

(** ** The range search *)

Lemma perm_interchange {A : Type} (a b c d : list A) :
  Permutation ((a ++ b) ++ (c ++ d)) ((a ++ c) ++ (b ++ d)).
Proof.
  rewrite <- !app_assoc. apply Permutation_app_head.
  apply Permutation_app_swap_app.
Qed.

Lemma perm_reverse3 {A : Type} (x y z : list A) :
  Permutation (x ++ y ++ z) (z ++ y ++ x).
Proof.
  rewrite (Permutation_app_comm x (y ++ z)).
  rewrite <- app_assoc. apply Permutation_app_swap_app.
Qed.

Lemma perm_found3 {A : Type} (f0 f1 f2 r0 r1 r2 : list A) :
  Permutation ((f2 ++ f1 ++ f0) ++ r2 ++ r1 ++ r0)
              ((f0 ++ r0) ++ (f1 ++ r1) ++ f2 ++ r2).
Proof.
  rewrite (perm_interchange f2 (f1 ++ f0) r2 (r1 ++ r0)).
  rewrite (perm_interchange f1 f0 r1 r0).
  apply perm_reverse3.
Qed.

Lemma find_nearest_adds (node : kdnode) (pos : list Q) (range : Q) (dim : nat) :
  forall rl, adds_from dim pos range node rl
               (find_nearest node pos range rl false dim).
Proof.
  induction node as [|p d dt l IHl r IHr]; intro rl.
  - exists []. split; [reflexivity|]. split; [intros q []|].
    exists []. apply Permutation_refl.
  - cbn [find_nearest].
    set (dx := aget pos d - aget p d).
    assert (Hsub : exists t1 t2,
      (if Qle_bool dx 0 then l else r) = t1 /\
      (if Qle_bool dx 0 then r else l) = t2 /\
      (forall rl, adds_from dim pos range t1 rl (find_nearest t1 pos range rl false dim)) /\
      (forall rl, adds_from dim pos range t2 rl (find_nearest t2 pos range rl false dim)) /\
      Permutation (points t1 ++ points t2) (points l ++ points r)).
    { destruct (Qle_bool dx 0).
      - exists l, r. repeat split; auto.
      - exists r, l. repeat split; auto. apply Permutation_app_comm. }
    destruct Hsub as (t1 & t2 & -> & -> & H1 & H2 & Hperm).
    assert (Hhead : exists f0,
      (if Qle_bool (dist_sq dim p pos) (SQ range)
       then (1%Z, rlist_insert rl (Node p d dt l r) (-1))
       else (0%Z, rl)) = (Z.of_nat (length f0), f0 ++ rl) /\
      (forall q, In q (res_points f0) -> dist_sq dim (fst q) pos <= SQ range) /\
      exists rest0, Permutation (res_points f0 ++ rest0) [(p, dt)]).
    { destruct (Qle_bool (dist_sq dim p pos) (SQ range)) eqn:E.
      - exists [mkRes (Node p d dt l r) (-1)]. split; [reflexivity|]. split.
        + intros q [<-|[]]. simpl. now apply Qle_bool_iff.
        + exists []. apply Permutation_refl.
      - exists []. split; [reflexivity|]. split; [intros q []|].
        exists [(p, dt)]. apply Permutation_refl. }
    destruct Hhead as (f0 & -> & Hin0 & rest0 & Hp0).
    destruct (H1 (f0 ++ rl)) as (f1 & -> & Hin1 & rest1 & Hp1).
    destruct (Qlt_bool (Qabs dx) range).
    + destruct (H2 (f1 ++ f0 ++ rl)) as (f2 & -> & Hin2 & rest2 & Hp2).
      exists (f2 ++ f1 ++ f0). split; [|split].
      * rewrite !length_app, <- !app_assoc. f_equal. lia.
      * intros q Hq. unfold res_points in Hq. rewrite !map_app in Hq.
        apply in_app_or in Hq as [Hq|Hq]; [now apply Hin2|].
        apply in_app_or in Hq as [Hq|Hq]; [now apply Hin1|now apply Hin0].
      * exists (rest2 ++ rest1 ++ rest0). unfold res_points in *.
        rewrite !map_app. simpl points.
        rewrite perm_found3, Hp0, Hp1, Hp2. simpl. apply perm_skip. exact Hperm.
    + exists (f1 ++ f0). split; [|split].
      * rewrite !length_app, <- !app_assoc. f_equal. lia.
      * intros q Hq. unfold res_points in Hq. rewrite !map_app in Hq.
        apply in_app_or in Hq as [Hq|Hq]; [now apply Hin1|now apply Hin0].
      * exists (points t2 ++ rest1 ++ rest0). unfold res_points in *.
        rewrite !map_app. simpl points.
        pose proof (perm_found3
          (map (fun r0 => (node_pos (item r0), node_data (item r0))) f0)
          (map (fun r0 => (node_pos (item r0), node_data (item r0))) f1)
          [] rest0 rest1 (points t2)) as HP.
        simpl in HP. rewrite HP, Hp0, Hp1. simpl. apply perm_skip. exact Hperm.
Qed.

Lemma find_nearest_keeps (node : kdnode) (pos : list Q) (range : Q) (dim : nat)
  (rl : list res_node) (q : list Q * Z) :
  In q (res_points rl) ->
  In q (res_points (snd (find_nearest node pos range rl false dim))).
Proof.
  intro H. destruct (find_nearest_adds node pos range dim rl) as (f & -> & _).
  simpl. unfold res_points. rewrite map_app. apply in_or_app. now right.
Qed.

Lemma find_nearest_snd_node (p : list Q) (d : nat) (dt : Z) (l r : kdnode)
  (pos : list Q) (range : Q) (rl : list res_node) (dim : nat) :
  snd (find_nearest (Node p d dt l r) pos range rl false dim)
  = let dx := aget pos d - aget p d in
    let list1 := if Qle_bool (dist_sq dim p pos) (SQ range)
                 then mkRes (Node p d dt l r) (-1) :: rl else rl in
    let list2 :=
      snd (find_nearest (if Qle_bool dx 0 then l else r) pos range list1 false dim) in
    if Qlt_bool (Qabs dx) range
    then snd (find_nearest (if Qle_bool dx 0 then r else l) pos range list2 false dim)
    else list2.
Proof.
  cbn [find_nearest]. cbv zeta.
  set (list1 := if Qle_bool (dist_sq dim p pos) (SQ range)
                then mkRes (Node p d dt l r) (-1) :: rl else rl).
  replace (if Qle_bool (dist_sq dim p pos) (SQ range)
           then (1%Z, rlist_insert rl (Node p d dt l r) (-1))
           else (0%Z, rl))
    with (if Qle_bool (dist_sq dim p pos) (SQ range) then 1%Z else 0%Z, list1)
    by (unfold list1; destruct (Qle_bool (dist_sq dim p pos) (SQ range)); reflexivity).
  set (t1 := if Qle_bool (aget pos d - aget p d) 0 then l else r).
  set (t2 := if Qle_bool (aget pos d - aget p d) 0 then r else l).
  destruct (find_nearest t1 pos range list1 false dim) as [ret list2].
  cbn [snd].
  destruct (Qlt_bool (Qabs (aget pos d - aget p d)) range); [|reflexivity].
  destruct (find_nearest t2 pos range list2 false dim) as [ret' list3].
  reflexivity.
Qed.

(** Every point of the tree that is strictly closer to [pos] than [range]
    is found. *)
Lemma find_nearest_complete (node : kdnode) (pos : list Q) (range : Q) (dim : nat) :
  kd_ordered dim node -> 0 <= range ->
  forall rl q, In q (points node) -> dist_sq dim (fst q) pos < SQ range ->
  In q (res_points (snd (find_nearest node pos range rl false dim))).
Proof.
  intros Hord Hrange.
  induction node as [|p d dt l IHl r IHr]; intros rl q Hq Hd; [inversion Hq|].
  destruct Hord as (Hdir & Hl & Hr & Hol & Hor).
  specialize (IHl Hol). specialize (IHr Hor).
  rewrite find_nearest_snd_node. cbv zeta.
  set (dx := aget pos d - aget p d).
  set (list1 := if Qle_bool (dist_sq dim p pos) (SQ range)
                then mkRes (Node p d dt l r) (-1) :: rl else rl).
  pose proof (dist_sq_term dim d (fst q) pos Hdir) as Hterm.
  simpl in Hq. destruct Hq as [<-|Hq].
  - (* the node itself *)
    assert (H1 : In (p, dt) (res_points list1)).
    { unfold list1. simpl in Hd.
      destruct (Qle_bool (dist_sq dim p pos) (SQ range)) eqn:E.
      - now left.
      - apply Qle_bool_false in E. lra. }
    destruct (Qlt_bool (Qabs dx) range); repeat apply find_nearest_keeps; exact H1.
  - apply in_app_or in Hq.
    destruct (Qle_bool dx 0) eqn:Edx.
    + apply Qle_bool_iff in Edx.
      destruct Hq as [Hq|Hq].
      * destruct (Qlt_bool (Qabs dx) range);
          [apply find_nearest_keeps|]; now apply IHl.
      * destruct (Qlt_bool (Qabs dx) range) eqn:Eabs; [now apply IHr|].
        exfalso. apply Qlt_bool_false in Eabs.
        specialize (Hr q Hq).
        rewrite Qabs_neg in Eabs by exact Edx.
        unfold dx, SQ in *. nra.
    + apply Qle_bool_false in Edx.
      destruct Hq as [Hq|Hq].
      * destruct (Qlt_bool (Qabs dx) range) eqn:Eabs; [now apply IHl|].
        exfalso. apply Qlt_bool_false in Eabs.
        specialize (Hl q Hq).
        rewrite Qabs_pos in Eabs by lra.
        unfold dx, SQ in *. nra.
      * destruct (Qlt_bool (Qabs dx) range);
          [apply find_nearest_keeps|]; now apply IHr.
Qed.

(** ** The nearest-neighbour search *)





Lemma coord_set_restore (b : bound) (rect : kdhyperrect) (dir : nat) (v : Q) :
  coord_set b (coord_set b rect dir v) dir (coord_get b rect dir) = rect.
Proof.
  destruct rect as [rd mn mx], b; simpl; unfold aget; now rewrite upd_restore.
Qed.




Section NearestSearch.

Variables (dim : nat) (pos : list Q).




End NearestSearch.

Lemma insert_rec_node (t : kdnode) (pos : list Q) (data : Z) (dir dim : nat) :
  insert_rec t pos data dir dim <> Null.
Proof.
  destruct t; simpl; [discriminate|].
  destruct (Qlt_bool _ _); discriminate.
Qed.

Lemma kd_insert_nonempty (kd : kdtree) (pos : list Q) (data : Z) :
  kd_root (kd_insert kd pos data) <> Null /\
  kd_rect (kd_insert kd pos data) <> None.
Proof.
  unfold kd_insert. destruct (kd_rect kd); simpl;
    (split; [apply insert_rec_node|discriminate]).
Qed.

Lemma build_nonempty (dim : nat) (pts : list (list Q * Z)) :
  pts <> [] ->
  kd_root (build dim pts) <> Null /\ kd_rect (build dim pts) <> None.
Proof.
  intro H. destruct (exists_last H) as (pts' & p & ->).
  rewrite build_snoc. apply kd_insert_nonempty.
Qed.


(** The best node of [kd_nearest_i] is a node whenever the first guess is. *)
Lemma kd_nearest_i_result (node : kdnode) (pos : list Q) :
  forall result rd rect,
    result <> Null ->
    fst (fst (kd_nearest_i node pos result rd rect)) <> Null.
Proof.
  induction node as [|p d dt l IHl r IHr]; intros result rd rect Hres; [exact Hres|].
  cbn [kd_nearest_i]. cbv zeta.
  set (le0 := Qle_bool (aget pos d - aget p d) 0).
  assert (Hsub : forall t, t = l \/ t = r ->
            forall result rd rect, result <> Null ->
              fst (fst (kd_nearest_i t pos result rd rect)) <> Null)
    by (intros t [->| ->]; assumption).
  generalize (Hsub (if le0 then l else r) (ltac:(destruct le0; auto))).
  generalize (Hsub (if le0 then r else l) (ltac:(destruct le0; auto))).
  generalize (if le0 then l else r) as t1.
  generalize (if le0 then r else l) as t2.
  generalize (if le0 then Max else Min) as b1.
  generalize (if le0 then Min else Max) as b2.
  intros b2 b1 t2 t1 H2 H1.
  assert (E1 : exists res1 rd1 rect1,
    match t1 with
    | Null => (result, rd, rect)
    | Node _ _ _ _ _ =>
        let '(res, d0, rect') :=
          kd_nearest_i t1 pos result rd (coord_set b1 rect d (aget p d)) in
        (res, d0, coord_set b1 rect' d (coord_get b1 rect d))
    end = (res1, rd1, rect1) /\ res1 <> Null).
  { destruct t1 as [|? ? ? ? ?]; [now exists result, rd, rect|].
    specialize (H1 result rd (coord_set b1 rect d (aget p d)) Hres).
    destruct (kd_nearest_i _ pos result rd _) as [[res1 rd1] rect1].
    now exists res1, rd1, (coord_set b1 rect1 d (coord_get b1 rect d)). }
  destruct E1 as (res1 & rd1 & rect1 & -> & Hres1).
  assert (E2 : exists res2 rd2,
    (if Qlt_bool (dist_sq (rect_dim rect1) p pos) rd1
     then (Node p d dt l r, dist_sq (rect_dim rect1) p pos)
     else (res1, rd1)) = (res2, rd2) /\ res2 <> Null).
  { destruct (Qlt_bool _ rd1); eexists; eexists; split;
      try reflexivity; auto; discriminate. }
  destruct E2 as (res2 & rd2 & -> & Hres2).
  destruct t2 as [|? ? ? ? ?]; [exact Hres2|].
  destruct (Qlt_bool _ rd2).
  - specialize (H2 res2 rd2 (coord_set b2 rect1 d (aget p d)) Hres2).
    destruct (kd_nearest_i _ pos res2 rd2 _) as [[res3 rd3] rect3]. exact H2.
  - exact Hres2.
Qed.

(** C9.  A nearest-neighbour query on an index without points returns no
    result set (the null pointer of the source) and raises nothing; on an
    index with at least one inserted point it returns a result set of size
    one whose list holds exactly one entry, with the cursor on it. *)
Theorem kd_nearest_empty_or_single (dim : nat) (q : list Q) :
  (0 < dim)%nat ->
  kd_nearest (build dim []) q = None /\
  forall p pts, exists rset,
    kd_nearest (build dim (p :: pts)) q = Some rset /\
    kd_res_size rset = 1%Z /\
    length (rlist rset) = 1%nat /\
    riter rset = rlist rset.
Proof.
  intros _. split; [reflexivity|].
  intros p pts.
  destruct (build_nonempty dim (p :: pts)) as [Hroot Hrect]; [discriminate|].
  unfold kd_nearest.
  destruct (kd_rect (build dim (p :: pts))) as [r|]; [|contradiction].
  pose proof (kd_nearest_i_result (kd_root (build dim (p :: pts))) q
                (kd_root (build dim (p :: pts)))
                (dist_sq (kd_dim (build dim (p :: pts)))
                         (node_pos (kd_root (build dim (p :: pts)))) q)
                (hyperrect_duplicate r) Hroot) as Hres.
  destruct (kd_nearest_i _ q _ _ _) as [[res' rd'] rect'].
  simpl in Hres. destruct res' as [|rp rdir rdt rl rr]; [contradiction|].
  eexists. split; [reflexivity|]. repeat split.
Qed.

Lemma kd_nearest_empty_or_single_witness :
  kd_nearest (build 2 []) nearest_tie_query = None /\
  forall p pts, exists rset,
    kd_nearest (build 2 (p :: pts)) nearest_tie_query = Some rset /\
    kd_res_size rset = 1%Z /\
    length (rlist rset) = 1%nat /\
    riter rset = rlist rset.
Proof.
  apply (kd_nearest_empty_or_single 2 nearest_tie_query). lia.
Defined.





(** ** The index over peaks and its range queries *)

Lemma for_loop_fold {S : Type} (n start : nat) (body : nat -> S -> S) (s : S) :
  for_loop n start body s = fold_left (fun s i => body i s) (seq start n) s.
Proof.
  revert start s. induction n as [|n IH]; intros start s; simpl; auto.
Qed.

Lemma createKDTree_build (x y : list Q) (n : nat) :
  createKDTree x y n = build 2 (peak_points x y n).
Proof.
  unfold createKDTree, build, peak_points. rewrite for_loop_fold.
  generalize (kd_create 2) as kd. generalize 0%nat as start.
  induction n as [|n IH]; intros start kd; simpl; auto.
Qed.

Lemma tree_inv_createKDTree (x y : list Q) (n : nat) :
  tree_inv 2 (peak_points x y n) (createKDTree x y n).
Proof.
  rewrite createKDTree_build. apply tree_inv_build; [lia|].
  apply Forall_forall. intros p Hp.
  apply in_map_iff in Hp as (i & <- & _). simpl. lia.
Qed.

Lemma points_createKDTree (x y : list Q) (n : nat) (p : list Q * Z) :
  In p (points (kd_root (createKDTree x y n))) <->
  exists i, (i < n)%nat /\ p = ([aget x i; aget y i], Z.of_nat i).
Proof.
  destruct (tree_inv_createKDTree x y n) as (_ & _ & Hperm & _).
  split.
  - intro H. apply (Permutation_in _ Hperm) in H.
    apply in_map_iff in H as (q & <- & Hq).
    apply in_map_iff in Hq as (i & <- & Hi).
    apply in_seq in Hi. exists i. split; [lia|reflexivity].
  - intros (i & Hi & ->).
    apply (Permutation_in _ (Permutation_sym Hperm)).
    apply in_map_iff. exists ([aget x i; aget y i], Z.of_nat i).
    split; [reflexivity|].
    apply in_map_iff. exists i. split; [reflexivity|]. apply in_seq. lia.
Qed.

(** The result set of a range query: its size is the length of its list,
    the cursor is at the start, every entry lies within the range and the
    entries come from different nodes of the tree. *)
Lemma kd_nearest_range_spec (kd : kdtree) (pos : list Q) (range : Q) :
  kd_res_size (kd_nearest_range kd pos range)
  = Z.of_nat (length (rlist (kd_nearest_range kd pos range))) /\
  riter (kd_nearest_range kd pos range) = rlist (kd_nearest_range kd pos range) /\
  (forall p, In p (res_points (rlist (kd_nearest_range kd pos range))) ->
     dist_sq (kd_dim kd) (fst p) pos <= SQ range) /\
  exists rest,
    Permutation (res_points (rlist (kd_nearest_range kd pos range)) ++ rest)
                (points (kd_root kd)).
Proof.
  unfold kd_nearest_range.
  destruct (find_nearest_adds (kd_root kd) pos range (kd_dim kd) [])
    as (found & -> & Hin & rest & Hperm).
  simpl. rewrite app_nil_r. repeat split; auto. now exists rest.
Qed.

Lemma kd_nearest_range_sound (x y : list Q) (n : nat) (pos : list Q) (range : Q)
  (r : res_node) :
  In r (rlist (kd_nearest_range (createKDTree x y n) pos range)) ->
  exists k, (k < n)%nat /\ node_data (item r) = Z.of_nat k /\
    node_pos (item r) = [aget x k; aget y k] /\
    dist_sq 2 [aget x k; aget y k] pos <= SQ range.
Proof.
  intro Hr.
  destruct (kd_nearest_range_spec (createKDTree x y n) pos range)
    as (_ & _ & Hin & rest & Hperm).
  assert (Hp : In (node_pos (item r), node_data (item r))
                  (res_points (rlist (kd_nearest_range (createKDTree x y n) pos range))))
    by (unfold res_points; apply in_map_iff; now exists r).
  specialize (Hin _ Hp).
  assert (Hq : In (node_pos (item r), node_data (item r))
                  (points (kd_root (createKDTree x y n))))
    by (apply (Permutation_in _ Hperm); apply in_or_app; now left).
  apply points_createKDTree in Hq as (k & Hk & E).
  injection E as E1 E2. exists k. repeat split; auto.
  destruct (tree_inv_createKDTree x y n) as (Hd & _).
  rewrite Hd in Hin. simpl in Hin. now rewrite E1 in Hin.
Qed.

(** Every peak strictly closer than [range] is in the result set. *)
Lemma kd_nearest_range_complete (x y : list Q) (n : nat) (pos : list Q)
  (range : Q) (k : nat) :
  0 <= range -> (k < n)%nat ->
  dist_sq 2 [aget x k; aget y k] pos < SQ range ->
  In ([aget x k; aget y k], Z.of_nat k)
     (res_points (rlist (kd_nearest_range (createKDTree x y n) pos range))).
Proof.
  intros Hrange Hk Hd.
  destruct (tree_inv_createKDTree x y n) as (Hdim & Hord & _).
  assert (Hq : In ([aget x k; aget y k], Z.of_nat k)
                  (points (kd_root (createKDTree x y n))))
    by (apply points_createKDTree; now exists k).
  pose proof (find_nearest_complete (kd_root (createKDTree x y n)) pos range 2
                Hord Hrange [] _ Hq Hd) as H.
  unfold kd_nearest_range. rewrite Hdim.
  destruct (find_nearest _ pos range [] false 2) as [ret l]. exact H.
Qed.

(** ** Status updates *)

Lemma status_eqb_eq (a b : status) : status_eqb a b = true <-> a = b.
Proof. destruct a, b; simpl; split; congruence. Qed.

Lemma status_eqb_neq (a b : status) : status_eqb a b = false <-> a <> b.
Proof. destruct a, b; simpl; split; congruence. Qed.

Lemma sget_upd (st : list status) (i k : nat) (v : status) :
  sget (upd i v st) k = sget st k \/ (i = k /\ sget (upd i v st) k = v).
Proof. apply nth_upd_cases. Qed.

Lemma transition_refl (rule : Prop) (s : status) : transition rule s s.
Proof. now left. Qed.

Lemma transition_trans (rule : Prop) (a b c : status) :
  transition rule a b -> transition rule b c -> transition rule a c.
Proof.
  unfold transition.
  intros [->|[[-> ->]|(Ha & -> & Hr)]] [->|[[E ->]|(Hb & -> & Hr')]];
    try congruence; try tauto.
  - right. right. repeat split; auto. discriminate.
Qed.

Lemma transition_weaken (rule rule' : Prop) (a b : status) :
  (rule -> rule') -> transition rule a b -> transition rule' a b.
Proof. unfold transition. tauto. Qed.

Lemma transition_error (rule : Prop) (s : status) :
  transition rule ERROR s -> s = ERROR.
Proof. intros [->|[[E _]|(E & _)]]; congruence. Qed.

(** The loop over the neighbours changes a status only from [CONVERGED] to
    [RUNNING]. *)
Lemma mark_neighbors_transition (set_n : kdres) (st : list status) (k : nat) :
  transition False (sget st k) (sget (mark_neighbors set_n st) k).
Proof.
  unfold mark_neighbors.
  pose (P := fun (_ : nat) (s : kdres * list status) =>
               transition False (sget st k) (sget (snd s) k)).
  apply (for_loop_inv P (Z.to_nat (kd_res_size set_n)) 0).
  - apply transition_refl.
  - intros j [set st'] _ HP. unfold P in *. simpl in *.
    destruct (status_eqb (sget st' (Z.to_nat (kd_res_item_data set))) CONVERGED) eqn:E;
      [|exact HP].
    apply status_eqb_eq in E.
    destruct (sget_upd st' (Z.to_nat (kd_res_item_data set)) k RUNNING)
      as [Hsame|[Hk Hnew]].
    + now rewrite Hsame.
    + rewrite Hnew. eapply transition_trans; [exact HP|].
      right. left. split; [|reflexivity]. now rewrite <- Hk.
Qed.

(** A brighter neighbour found by the scan is an entry of the result set. *)
Lemma brighter_scan_true (n : nat) (set_r : kdres) (h : list Q) (i : nat) :
  (n <= length (riter set_r))%nat ->
  brighter_scan n set_r h i = true ->
  exists r, In r (riter set_r) /\
    aget h i < aget h (Z.to_nat (node_data (item r))).
Proof.
  revert set_r. induction n as [|n IH]; intros set_r Hn H; simpl in H; [discriminate|].
  unfold kd_res_item_data in H.
  destruct (riter set_r) as [|r rest] eqn:Er; [simpl in Hn; lia|].
  destruct (Qlt_bool (aget h i) (aget h (Z.to_nat (node_data (item r))))) eqn:E.
  - apply Qlt_bool_true in E. exists r. split; [now left|exact E].
  - destruct (IH (kd_res_next set_r)) as (r' & Hr & Hlt).
    + simpl. rewrite Er. simpl in *. lia.
    + exact H.
    + exists r'. split; [|exact Hlt]. simpl in Hr. rewrite Er in Hr. now right.
Qed.

Lemma markDimmerPeaks_step_transition (x y h : list Q)
  (r_removal r_neighbors : Q) (np i : nat) (s : Z * list status) (k : nat) :
  (i < np)%nat ->
  transition (dimmer_rule x y h r_removal np k)
    (sget (snd s) k)
    (sget (snd (markDimmerPeaks_step (createKDTree x y np) x y h
                  r_removal r_neighbors i s)) k).
Proof.
  intro Hi. destruct s as [removed st]. unfold markDimmerPeaks_step.
  destruct (status_eqb (sget st i) ERROR) eqn:Eerr; [apply transition_refl|].
  apply status_eqb_neq in Eerr.
  set (set_r := kd_nearest_range (createKDTree x y np) [aget x i; aget y i] r_removal).
  destruct (kd_res_size set_r <? 2)%Z; [apply transition_refl|].
  destruct (brighter_scan (Z.to_nat (kd_res_size set_r)) set_r h i) eqn:Eb;
    [|apply transition_refl].
  destruct (kd_nearest_range_spec (createKDTree x y np) [aget x i; aget y i] r_removal)
    as (Hsize & Hiter & _).
  fold set_r in Hsize, Hiter.
  apply brighter_scan_true in Eb as (r & Hr & Hlt);
    [|rewrite Hsize, Hiter, Nat2Z.id; lia].
  assert (Hrule : dimmer_rule x y h r_removal np i).
  { split; [exact Hi|].
    rewrite Hiter in Hr.
    apply kd_nearest_range_sound in Hr as (j & Hj & Hdata & _ & Hd).
    exists j. rewrite Hdata, Nat2Z.id in Hlt. auto. }
  simpl snd.
  eapply transition_trans;
    [|eapply transition_weaken; [|apply mark_neighbors_transition]; tauto].
  destruct (sget_upd st i k ERROR) as [Hsame|[<- Hnew]].
  - rewrite Hsame. apply transition_refl.
  - rewrite Hnew. right. right. auto.
Qed.

Lemma markLowSignificancePeaks_step_transition (x y sig : list Q)
  (min_sig r_neighbors : Q) (np i : nat) (s : Z * list status) (k : nat) :
  (i < np)%nat ->
  transition (low_significance_rule sig min_sig np k)
    (sget (snd s) k)
    (sget (snd (markLowSignificancePeaks_step (createKDTree x y np) x y sig
                  min_sig r_neighbors i s)) k).
Proof.
  intro Hi. destruct s as [removed st]. unfold markLowSignificancePeaks_step.
  destruct (status_eqb (sget st i) ERROR) eqn:Eerr; [apply transition_refl|].
  apply status_eqb_neq in Eerr.
  destruct (Qlt_bool min_sig (aget sig i)) eqn:Esig; [apply transition_refl|].
  apply Qlt_bool_false in Esig.
  simpl snd.
  eapply transition_trans;
    [|eapply transition_weaken; [|apply mark_neighbors_transition]; tauto].
  destruct (sget_upd st i k ERROR) as [Hsame|[<- Hnew]].
  - rewrite Hsame. apply transition_refl.
  - rewrite Hnew. right. right. repeat split; auto.
Qed.






(** ** The local maxima scanner *)

Lemma for_ctl_post (n : Z) (z y x h : list Q) (body : Z -> scan -> ctl) :
  (forall i s, scan_post n z y x h (Go s) -> scan_post n z y x h (body i s)) ->
  forall k start s,
    scan_post n z y x h (Go s) ->
    scan_post n z y x h (for_ctl k start body s).
Proof.
  intros Hbody k. induction k as [|k IH]; intros start s Hs; simpl; [exact Hs|].
  specialize (Hbody start s Hs).
  destruct (body start s) as [s'|s']; [now apply IH|exact Hbody].
Qed.

Lemma visit_post (flm : flmData) (z y x h : list Q) (sz ez sy ey zi yi xi : Z)
  (s : scan) :
  scan_post (n_peaks flm) z y x h (Go s) ->
  scan_post (n_peaks flm) z y x h (visit flm sz ez sy ey zi yi xi s).
Proof.
  intros [Hnp Hun]. unfold visit.
  destruct (Qlt_bool _ _); [|now split].
  destruct (_ <? 1)%Z; [|now split].
  match goal with |- context [isLocalMaxima ?a ?b ?c ?d ?e ?f ?g ?i ?j ?k] =>
    destruct (isLocalMaxima a b c d e f g i j k) end.
  - cbn [np].
    assert (Hun' : untouched_from_np z y x h
              (mkScan (np s + 1)
                 (taken_incr (s_taken s) (xsize flm) zi yi xi)
                 (upd (Z.to_nat (np s)) (nth (Z.to_nat zi) (z_values flm) 0) (out_z s))
                 (upd (Z.to_nat (np s)) (inject_Z yi) (out_y s))
                 (upd (Z.to_nat (np s)) (inject_Z xi) (out_x s))
                 (upd (Z.to_nat (np s)) (pixel (images flm) (xsize flm) zi yi xi) (out_h s)))).
    { intros j Hj. cbn [np out_z out_y out_x out_h] in *.
      assert (Hne : Z.to_nat (np s) <> j) by lia.
      rewrite !nth_upd_other by exact Hne. apply Hun. lia. }
    destruct (np s + 1 >=? n_peaks flm)%Z eqn:E; rewrite Z.geb_leb in E.
    + apply Z.leb_le in E. split; [cbn [np]; lia|exact Hun'].
    + apply Z.leb_gt in E. split; [cbn [np]; lia|exact Hun'].
  - destruct (np s >=? n_peaks flm)%Z eqn:E; rewrite Z.geb_leb in E.
    + apply Z.leb_le in E. lia.
    + now split.
Qed.

Lemma scan_stack_post (flm : flmData) (z y x h : list Q) :
  (1 <= n_peaks flm)%Z ->
  scan_post (n_peaks flm) z y x h (scan_stack flm z y x h).
Proof.
  intro Hn. unfold scan_stack.
  apply for_ctl_post.
  - intros zi s Hs. apply for_ctl_post; [|exact Hs].
    intros yi s' Hs'. apply for_ctl_post; [|exact Hs'].
    intros xi s'' Hs''. now apply visit_post.
  - split; [simpl; lia|]. intros j _. now simpl.
Qed.

(** C8, as the code has it.  For a maximum peak count [n_peaks] of at least
    1, [findLocalMaxima] writes at most [n_peaks] entries: the entries it
    writes are those below the final [np], which is at most [n_peaks], and
    the output arrays are as the caller passed them from index [np] on.
    The scan returns early exactly with [np = n_peaks], and keeps what was
    written; when it runs to its end, [np < n_peaks].  In both cases
    [flm_data->n_peaks] is the number [np] of entries written on return. *)
Theorem findLocalMaxima_capacity (flm : flmData) (z y x h : list Q) :
  (1 <= n_peaks flm)%Z ->
  let s := snd (findLocalMaxima flm z y x h) in
  (0 <= np s <= n_peaks flm)%Z /\
  untouched_from_np z y x h s /\
  n_peaks (fst (findLocalMaxima flm z y x h)) = np s /\
  match scan_stack flm z y x h with
  | Return s' => s' = s /\ np s = n_peaks flm
  | Go s' => s' = s /\ (np s < n_peaks flm)%Z
  end.
Proof.
  intros Hn. pose proof (scan_stack_post flm z y x h Hn) as H.
  unfold findLocalMaxima.
  destruct (scan_stack flm z y x h) as [s'|s']; simpl in *.
  - destruct H as [Hnp Hun].
    split; [lia|]. split; [exact Hun|]. split; [reflexivity|]. split; [reflexivity|lia].
  - destruct H as [Hnp Hun].
    split; [lia|]. split; [exact Hun|]. split; [now rewrite Hnp|]. split; [reflexivity|lia].
Qed.

Lemma findLocalMaxima_capacity_witness :
  let s := snd (findLocalMaxima room_for_two [0; 0; 0] [0; 0; 0] [0; 0; 0] [0; 0; 0]) in
  (0 <= np s <= n_peaks room_for_two)%Z /\
  untouched_from_np [0; 0; 0] [0; 0; 0] [0; 0; 0] [0; 0; 0] s /\
  n_peaks (fst (findLocalMaxima room_for_two [0; 0; 0] [0; 0; 0] [0; 0; 0] [0; 0; 0]))
  = np s /\
  match scan_stack room_for_two [0; 0; 0] [0; 0; 0] [0; 0; 0] [0; 0; 0] with
  | Return s' => s' = s /\ np s = n_peaks room_for_two
  | Go s' => s' = s /\ (np s < n_peaks room_for_two)%Z
  end.
Proof.
  apply (findLocalMaxima_capacity room_for_two [0; 0; 0] [0; 0; 0] [0; 0; 0] [0; 0; 0]).
  simpl. lia.
Defined.

(** C8, the count 0.  With a maximum peak count of 0 and one pixel above
    the threshold, [findLocalMaxima] writes entry 0 of the output arrays
    and returns with [n_peaks] still 0: one entry is written, which is more
    than the maximum, and [n_peaks] is not the number of entries written. *)
Lemma findLocalMaxima_no_room :
  let r := findLocalMaxima no_room [0] [0] [0] [0] in
  n_peaks no_room = 0%Z /\
  np (snd r) = 1%Z /\
  out_h (snd r) = [5] /\ out_z (snd r) = [7] /\
  ~ (np (snd r) <= n_peaks no_room)%Z /\
  n_peaks (fst r) <> np (snd r).
Proof. vm_compute. repeat split; intro H; try discriminate; now apply H. Qed.

(** The tie-break of [isLocalMaxima]: within the disk, a pixel at or below
    the candidate in both [y] and [x] disqualifies it when strictly
    brighter, any other pixel when at least as bright. *)
Lemma disqualifies_rule (flm : flmData) (cur : Q) (cy cx zi yi xi : Z) :
  ((xi - cx) * (xi - cx) + (yi - cy) * (yi - cy)
   <= trunc (radius flm * radius flm))%Z ->
  ((yi <= cy)%Z /\ (xi <= cx)%Z ->
     (disqualifies flm cur cy cx zi yi xi = true <->
      cur < pixel (images flm) (xsize flm) zi yi xi)) /\
  (~ ((yi <= cy)%Z /\ (xi <= cx)%Z) ->
     (disqualifies flm cur cy cx zi yi xi = true <->
      cur <= pixel (images flm) (xsize flm) zi yi xi)).
Proof.
  intro Hin. unfold disqualifies. cbv zeta.
  replace (_ <=? trunc (radius flm * radius flm))%Z with true
    by (symmetry; now apply Z.leb_le).
  split.
  - intros [Hy Hx].
    replace (yi <=? cy)%Z with true by (symmetry; now apply Z.leb_le).
    replace (xi <=? cx)%Z with true by (symmetry; now apply Z.leb_le).
    simpl. apply Qlt_bool_true.
  - intro Hn.
    replace ((yi <=? cy)%Z && (xi <=? cx)%Z) with false.
    + apply Qle_bool_iff.
    + symmetry. apply andb_false_iff.
      destruct (Z.leb_spec yi cy); [|now left].
      destruct (Z.leb_spec xi cx); [|now right]. tauto.
Qed.

(** A candidate is not disqualified by the comparison with itself. *)
Lemma disqualifies_self (flm : flmData) (cz cy cx : Z) :
  disqualifies flm (pixel (images flm) (xsize flm) cz cy cx) cy cx cz cy cx
  = false.
Proof.
  unfold disqualifies. cbv zeta.
  destruct (_ <=? trunc (radius flm * radius flm))%Z; [|reflexivity].
  rewrite !Z.leb_refl. simpl. apply Qlt_bool_false. lra.
Qed.

(** Two pixels of the same intensity within the disk of each other, the
    second at or above the first in both [y] and [x]: the second
    disqualifies the first and is not disqualified by it. *)
Lemma disqualifies_tie_ordered (flm : flmData) (v : Q) (z1 z2 y1 x1 y2 x2 : Z) :
  pixel (images flm) (xsize flm) z1 y1 x1 = v ->
  pixel (images flm) (xsize flm) z2 y2 x2 = v ->
  ((x2 - x1) * (x2 - x1) + (y2 - y1) * (y2 - y1)
   <= trunc (radius flm * radius flm))%Z ->
  (y1 <= y2)%Z -> (x1 <= x2)%Z -> (y1, x1) <> (y2, x2) ->
  disqualifies flm v y1 x1 z2 y2 x2 = true /\
  disqualifies flm v y2 x2 z1 y1 x1 = false.
Proof.
  intros H1 H2 Hin Hy Hx Hne. split.
  - apply (proj2 (disqualifies_rule flm v y1 x1 z2 y2 x2 Hin)).
    + intros [Hy' Hx']. apply Hne. f_equal; lia.
    + rewrite H2. lra.
  - destruct (disqualifies flm v y2 x2 z1 y1 x1) eqn:E; [|reflexivity].
    apply (proj1 (disqualifies_rule flm v y2 x2 z1 y1 x1
                    ltac:(replace ((x1 - x2) * (x1 - x2) + (y1 - y2) * (y1 - y2))%Z
                            with ((x2 - x1) * (x2 - x1) + (y2 - y1) * (y2 - y1))%Z
                            by ring; exact Hin))) in E; [|now split].
    rewrite H1 in E. lra.
Qed.

(** C3, at a failing input.  Two pixels of the same intensity 5 at
    (y, x) = (0, 1) and (1, 0), within the radius 2 of each other and above
    every other pixel: each one disqualifies the other, [isLocalMaxima]
    returns 0 for both, and [findLocalMaxima] reports no maximum. *)
Theorem isLocalMaxima_antidiagonal_tie :
  disqualifies antidiagonal 5 0 1 0 1 0 = true /\
  disqualifies antidiagonal 5 1 0 0 0 1 = true /\
  isLocalMaxima antidiagonal 5 0 0 0 0 1 0 1 1 = false /\
  isLocalMaxima antidiagonal 5 0 0 0 1 1 0 0 1 = false /\
  np (snd (findLocalMaxima antidiagonal [0; 0] [0; 0] [0; 0] [0; 0])) = 0%Z /\
  n_peaks (fst (findLocalMaxima antidiagonal [0; 0] [0; 0] [0; 0] [0; 0])) = 0%Z.
Proof. vm_compute. repeat split. Qed.

(** ** What the range query does return *)

(** On an index built from [pts], a range query with a radius [range >= 0]
    returns only inserted points within the radius, each inserted point at
    most once, and every inserted point that is strictly closer than the
    radius; its size is the number of entries of its list. *)
Lemma kd_nearest_range_strict (dim : nat) (pts : list (list Q * Z)) (q : list Q)
  (range : Q) :
  (0 < dim)%nat ->
  Forall (fun p => length (fst p) = dim) pts ->
  0 <= range ->
  let rset := kd_nearest_range (build dim pts) q range in
  kd_res_size rset = Z.of_nat (length (rlist rset)) /\
  riter rset = rlist rset /\
  (forall p, In p (res_points (rlist rset)) ->
     In p pts /\ dist_sq dim (fst p) q <= SQ range) /\
  (forall p, In p pts -> dist_sq dim (fst p) q < SQ range ->
     In p (res_points (rlist rset))) /\
  (exists rest, Permutation (res_points (rlist rset) ++ rest) pts) /\
  (NoDup pts -> NoDup (res_points (rlist rset))).
Proof.
  intros Hdim Hlen Hrange rset.
  assert (Hlen' : Forall (fun p => (dim <= length (fst p))%nat) pts)
    by (eapply Forall_impl; [|exact Hlen]; simpl; intros p Hp; lia).
  destruct (tree_inv_build dim pts Hdim Hlen') as (Hkd & Hord & Hperm & _).
  assert (Hid : map (stored dim) pts = pts).
  { clear - Hlen. induction Hlen as [|p l Hp _ IH]; [reflexivity|].
    simpl. rewrite IH. f_equal. unfold stored. rewrite <- Hp, firstn_all.
    now destruct p. }
  rewrite Hid in Hperm.
  destruct (kd_nearest_range_spec (build dim pts) q range)
    as (Hsize & Hiter & Hin & rest & Hrest).
  fold rset in Hsize, Hiter, Hin, Hrest. rewrite Hkd in Hin.
  assert (Hall : Permutation (res_points (rlist rset) ++ rest) pts)
    by (eapply Permutation_trans; eassumption).
  split; [exact Hsize|]. split; [exact Hiter|]. split; [|split; [|split]].
  - intros p Hp. split; [|now apply Hin].
    apply (Permutation_in _ Hall). apply in_or_app. now left.
  - intros p Hp Hd.
    apply (Permutation_in _ (Permutation_sym Hperm)) in Hp.
    pose proof (find_nearest_complete (kd_root (build dim pts)) q range dim
                  Hord Hrange [] p Hp Hd) as H.
    unfold rset, kd_nearest_range. rewrite Hkd.
    destruct (find_nearest _ q range [] false dim) as [ret l]. exact H.
  - now exists rest.
  - intro Hnd. apply (Permutation_NoDup (Permutation_sym Hall)) in Hnd.
    now apply NoDup_app_remove_r in Hnd.
Qed.

(** For distinct entries and a radius larger than the distance of every
    inserted point from the query point, the range query returns all the
    inserted points, each exactly once. *)
Lemma kd_nearest_range_all (dim : nat) (pts : list (list Q * Z)) (q : list Q)
  (range : Q) :
  (0 < dim)%nat ->
  Forall (fun p => length (fst p) = dim) pts ->
  NoDup pts ->
  0 <= range ->
  (forall p, In p pts -> dist_sq dim (fst p) q < SQ range) ->
  Permutation (res_points (rlist (kd_nearest_range (build dim pts) q range))) pts.
Proof.
  intros Hdim Hlen Hnd Hrange Hall.
  destruct (kd_nearest_range_strict dim pts q range Hdim Hlen Hrange)
    as (_ & _ & Hsound & Hcomplete & _ & Hnd').
  apply NoDup_Permutation; [now apply Hnd'|exact Hnd|].
  intro p. split; intro Hp.
  - now apply Hsound.
  - apply Hcomplete; auto.
Qed.

(** ** What [markDimmerPeaks] does *)

Lemma mark_neighbors_length (set_n : kdres) (st : list status) :
  length (mark_neighbors set_n st) = length st.
Proof.
  unfold mark_neighbors.
  pose (P := fun (_ : nat) (s : kdres * list status) => length (snd s) = length st).
  apply (for_loop_inv P (Z.to_nat (kd_res_size set_n)) 0); [reflexivity|].
  intros j [set st'] _ HP. unfold P in *. simpl in *.
  destruct (status_eqb _ CONVERGED); [now rewrite upd_length|exact HP].
Qed.

Lemma mark_neighbors_error (set_n : kdres) (st : list status) (k : nat) :
  sget (mark_neighbors set_n st) k = ERROR <-> sget st k = ERROR.
Proof.
  pose proof (mark_neighbors_transition set_n st k) as [H|[[H1 H2]|(_ & _ & [])]].
  - now rewrite H.
  - rewrite H1, H2. split; discriminate.
Qed.

Lemma sget_upd_error (st : list status) (i k : nat) :
  (i < length st)%nat ->
  (sget (upd i ERROR st) k = ERROR <-> k = i \/ sget st k = ERROR).
Proof.
  intro Hi. unfold sget. destruct (Nat.eq_dec i k) as [<-|Hne].
  - rewrite nth_upd_same by exact Hi. tauto.
  - rewrite nth_upd_other by exact Hne. split; [tauto|].
    intros [E|E]; [congruence|exact E].
Qed.

(** The statuses [markDimmerPeaks] sets to [ERROR] and the number it
    returns: a peak ends in state [ERROR] exactly when it was in that state
    at the call or [is_dimmer] holds of it, whatever the other statuses
    are, and the returned count is the number of peaks newly set to
    [ERROR]. *)
Lemma markDimmerPeaks_marks (x y h : list Q) (st : list status)
  (r_removal r_neighbors : Q) (np : nat) :
  (np <= length st)%nat ->
  (forall k, (k < np)%nat ->
     (sget (snd (markDimmerPeaks x y h st r_removal r_neighbors np)) k = ERROR <->
      sget st k = ERROR \/ is_dimmer x y h r_removal np k = true)) /\
  fst (markDimmerPeaks x y h st r_removal r_neighbors np)
  = Z.of_nat (length (dimmer_marked x y h st r_removal np np)).
Proof.
  intro Hlen. unfold markDimmerPeaks.
  pose (P := fun (m : nat) (s : Z * list status) =>
    length (snd s) = length st /\
    (forall k, sget (snd s) k = ERROR <->
               sget st k = ERROR \/
               ((k < m)%nat /\ is_dimmer x y h r_removal np k = true)) /\
    fst s = Z.of_nat (length (dimmer_marked x y h st r_removal np m))).
  assert (HP : P (0 + np)%nat
                 (for_loop np 0
                    (markDimmerPeaks_step (createKDTree x y np) x y h
                       r_removal r_neighbors) (0%Z, st))).
  { apply for_loop_inv.
    - split; [reflexivity|]. split; [|reflexivity].
      intro k. simpl. split; [tauto|]. intros [E|[E _]]; [exact E|lia].
    - intros m [removed s] Hm (HL & HE & HC). simpl in HL, HE, HC.
      assert (Hseq : dimmer_marked x y h st r_removal np (S m)
                     = dimmer_marked x y h st r_removal np m
                       ++ (if negb (status_eqb (sget st m) ERROR)
                              && is_dimmer x y h r_removal np m
                           then [m] else [])).
      { unfold dimmer_marked. rewrite seq_S, filter_app. simpl.
        now destruct (negb _ && _). }
      assert (Hm_err : sget s m = ERROR <-> sget st m = ERROR).
      { rewrite HE. split; [|tauto]. intros [E|[E _]]; [exact E|lia]. }
      unfold P, markDimmerPeaks_step.
      destruct (status_eqb (sget s m) ERROR) eqn:Eerr.
      + (* already in state ERROR *)
        apply status_eqb_eq in Eerr. apply Hm_err in Eerr.
        simpl. split; [exact HL|]. split.
        * intro k. rewrite HE. split; [intros [E|[E1 E2]]; [tauto|right; split; [lia|exact E2]]|].
          intros [E|[E1 E2]]; [tauto|].
          destruct (Nat.eq_dec k m) as [->|Hne]; [tauto|right; split; [lia|exact E2]].
        * rewrite Hseq, length_app.
          apply status_eqb_eq in Eerr. rewrite Eerr. simpl. rewrite HC. lia.
      + apply status_eqb_neq in Eerr.
        assert (Est : status_eqb (sget st m) ERROR = false)
          by (apply status_eqb_neq; intro E; apply Eerr; now apply Hm_err).
        fold (is_dimmer x y h r_removal np m) in *.
        assert (Hdec :
          (if (kd_res_size (kd_nearest_range (createKDTree x y np)
                              [aget x m; aget y m] r_removal) <? 2)%Z
           then (removed, s)
           else
             if brighter_scan
                  (Z.to_nat (kd_res_size (kd_nearest_range (createKDTree x y np)
                                            [aget x m; aget y m] r_removal)))
                  (kd_nearest_range (createKDTree x y np) [aget x m; aget y m] r_removal)
                  h m
             then ((removed + 1)%Z,
                   mark_neighbors
                     (kd_nearest_range (createKDTree x y np) [aget x m; aget y m] r_neighbors)
                     (upd m ERROR s))
             else (removed, s))
          = if is_dimmer x y h r_removal np m
            then ((removed + 1)%Z,
                  mark_neighbors
                    (kd_nearest_range (createKDTree x y np) [aget x m; aget y m] r_neighbors)
                    (upd m ERROR s))
            else (removed, s)).
        { unfold is_dimmer. cbv zeta.
          destruct (kd_res_size _ <? 2)%Z; simpl; [reflexivity|].
          now destruct (brighter_scan _ _ h m). }
        cbv zeta. rewrite Hdec. clear Hdec.
        rewrite Hseq, length_app, Est. simpl negb. rewrite andb_true_l.
        destruct (is_dimmer x y h r_removal np m) eqn:Edim; simpl.
        * split; [now rewrite mark_neighbors_length, upd_length|]. split.
          -- intro k. rewrite mark_neighbors_error, sget_upd_error by lia.
             rewrite HE. split.
             ++ intros [->|[E|[E1 E2]]]; [right; split; [lia|exact Edim]|tauto|].
                right. split; [lia|exact E2].
             ++ intros [E|[E1 E2]]; [tauto|].
                destruct (Nat.eq_dec k m) as [->|Hne]; [tauto|].
                right. right. split; [lia|exact E2].
          -- rewrite HC. lia.
        * split; [exact HL|]. split.
          -- intro k. rewrite HE. split.
             ++ intros [E|[E1 E2]]; [tauto|right; split; [lia|exact E2]].
             ++ intros [E|[E1 E2]]; [tauto|].
                destruct (Nat.eq_dec k m) as [->|Hne]; [congruence|].
                right. split; [lia|exact E2].
          -- rewrite HC. lia. }
  destruct HP as (_ & HE & HC). split; [|exact HC].
  intros k Hk. rewrite HE. simpl. split; [|tauto].
  intros [E|[_ E]]; tauto.
Qed.

Lemma brighter_scan_complete (set_r : kdres) (h : list Q) (i : nat) (r : res_node) :
  In r (riter set_r) ->
  aget h i < aget h (Z.to_nat (node_data (item r))) ->
  brighter_scan (length (riter set_r)) set_r h i = true.
Proof.
  destruct set_r as [t rl it sz]. simpl.
  revert rl sz. induction it as [|e it IH]; intros rl sz Hin Hlt; [inversion Hin|].
  simpl. unfold kd_res_item_data. simpl.
  destruct (Qlt_bool (aget h i) (aget h (Z.to_nat (node_data (item e))))) eqn:E;
    [reflexivity|].
  destruct Hin as [->|Hin].
  - apply Qlt_bool_true in Hlt. congruence.
  - unfold kd_res_next. simpl. now apply IH.
Qed.

Lemma two_members_length {A : Type} (a b : A) (l : list A) :
  In a l -> In b l -> a <> b -> (2 <= length l)%nat.
Proof.
  intros Ha Hb Hne. destruct l as [|c [|d l]]; simpl in *; try lia.
  destruct Ha as [->|[]], Hb as [->|[]]. congruence.
Qed.

Lemma dist_sq_2 (a0 a1 b0 b1 : Q) :
  dist_sq 2 [a0; a1] [b0; b1] == (a0 - b0) * (a0 - b0) + (a1 - b1) * (a1 - b1).
Proof. unfold dist_sq, SQ, aget. simpl. ring. Qed.

(** A strictly brighter peak strictly closer than [r_removal] makes
    [is_dimmer] hold. *)
Lemma is_dimmer_strict (x y h : list Q) (r_removal : Q) (np i k : nat) :
  0 <= r_removal -> (i < np)%nat -> (k < np)%nat ->
  dist_sq 2 [aget x k; aget y k] [aget x i; aget y i] < SQ r_removal ->
  aget h i < aget h k ->
  is_dimmer x y h r_removal np i = true.
Proof.
  intros Hr Hi Hk Hd Hh. unfold is_dimmer. cbv zeta.
  set (set_r := kd_nearest_range (createKDTree x y np) [aget x i; aget y i] r_removal).
  destruct (kd_nearest_range_spec (createKDTree x y np) [aget x i; aget y i] r_removal)
    as (Hsize & Hiter & _).
  fold set_r in Hsize, Hiter.
  assert (Hself : In ([aget x i; aget y i], Z.of_nat i) (res_points (rlist set_r))).
  { apply kd_nearest_range_complete; auto.
    pose proof (dist_sq_nonneg 2 [aget x k; aget y k] [aget x i; aget y i]).
    assert (H0 : dist_sq 2 [aget x i; aget y i] [aget x i; aget y i] == 0)
      by (rewrite dist_sq_2; ring).
    rewrite H0. lra. }
  assert (Hother : In ([aget x k; aget y k], Z.of_nat k) (res_points (rlist set_r)))
    by (apply kd_nearest_range_complete; auto).
  assert (Hne : i <> k) by (intros ->; lra).
  assert (Hlen : (2 <= length (rlist set_r))%nat).
  { unfold res_points in Hself, Hother.
    rewrite <- (length_map (fun r => (node_pos (item r), node_data (item r)))).
    apply (two_members_length _ _ _ Hself Hother).
    intro E. injection E as _ _ E. lia. }
  apply andb_true_iff. split.
  - apply negb_true_iff, Z.ltb_ge. lia.
  - rewrite Hsize, Nat2Z.id, <- Hiter.
    unfold res_points in Hother. apply in_map_iff in Hother as (r & Er & Hr').
    injection Er as _ Edata.
    apply (brighter_scan_complete set_r h i r); [now rewrite Hiter|].
    now rewrite Edata, Nat2Z.id.
Qed.

(** [is_dimmer] holds only with a strictly brighter peak within
    [r_removal]. *)
Lemma is_dimmer_sound (x y h : list Q) (r_removal : Q) (np i : nat) :
  is_dimmer x y h r_removal np i = true ->
  exists k, (k < np)%nat /\ aget h i < aget h k /\
    dist_sq 2 [aget x k; aget y k] [aget x i; aget y i] <= SQ r_removal.
Proof.
  unfold is_dimmer. cbv zeta. intro H.
  apply andb_true_iff in H as [_ H].
  destruct (kd_nearest_range_spec (createKDTree x y np) [aget x i; aget y i] r_removal)
    as (Hsize & Hiter & _).
  apply brighter_scan_true in H as (r & Hr & Hlt);
    [|rewrite Hsize, Hiter, Nat2Z.id; lia].
  rewrite Hiter in Hr.
  apply kd_nearest_range_sound in Hr as (j & Hj & Hdata & _ & Hd).
  exists j. rewrite Hdata, Nat2Z.id in Hlt. auto.
Qed.

Lemma mark_neighbors_loop (n : nat) :
  forall (start : nat) (set : kdres) (st : list status),
    (n <= length (riter set))%nat ->
    snd (for_loop n start
           (fun _ '(set, st) =>
              let k := Z.to_nat (kd_res_item_data set) in
              let st' := if status_eqb (sget st k) CONVERGED
                         then upd k RUNNING st else st in
              (kd_res_next set, st'))
           (set, st))
    = fold_left mark_entry (firstn n (riter set)) st.
Proof.
  induction n as [|n IH]; intros start set st Hn; [reflexivity|].
  destruct set as [t rl it sz]. simpl in Hn.
  destruct it as [|e it]; [simpl in Hn; lia|].
  cbn [for_loop]. unfold kd_res_item_data. cbn [riter]. cbv zeta.
  change (firstn (S n) (e :: it)) with (e :: firstn n it). cbn [fold_left].
  unfold kd_res_next. cbn [riter res_tree rlist size tl].
  rewrite IH by (simpl in *; lia). reflexivity.
Qed.

Lemma mark_entry_transition (st : list status) (e : res_node) (k : nat) :
  transition False (sget st k) (sget (mark_entry st e) k).
Proof.
  unfold mark_entry. cbv zeta.
  destruct (status_eqb (sget st (Z.to_nat (node_data (item e)))) CONVERGED) eqn:E;
    [|apply transition_refl].
  apply status_eqb_eq in E.
  destruct (sget_upd st (Z.to_nat (node_data (item e))) k RUNNING)
    as [Hsame|[<- Hnew]].
  - rewrite Hsame. apply transition_refl.
  - rewrite Hnew, E. right. left. auto.
Qed.

Lemma mark_entries_running (l : list res_node) :
  forall (st : list status) (k : nat),
    sget st k = RUNNING -> sget (fold_left mark_entry l st) k = RUNNING.
Proof.
  induction l as [|e l IH]; intros st k H; [exact H|].
  simpl. apply IH.
  destruct (mark_entry_transition st e k) as [E|[[E _]|(_ & _ & [])]];
    congruence.
Qed.

(** Every entry of the neighbour set whose peak is [CONVERGED] is set to
    [RUNNING]. *)
Lemma mark_entries_complete (l : list res_node) :
  forall (st : list status) (e : res_node),
    In e l ->
    (Z.to_nat (node_data (item e)) < length st)%nat ->
    sget st (Z.to_nat (node_data (item e))) = CONVERGED ->
    sget (fold_left mark_entry l st) (Z.to_nat (node_data (item e))) = RUNNING.
Proof.
  induction l as [|e0 l IH]; intros st e Hin Hlen Hst; [inversion Hin|].
  simpl. destruct Hin as [->|Hin].
  - apply mark_entries_running. unfold mark_entry. cbv zeta.
    rewrite Hst. simpl. unfold sget. now apply nth_upd_same.
  - destruct (mark_entry_transition st e0 (Z.to_nat (node_data (item e))))
      as [E|[[_ E]|(_ & _ & [])]].
    + apply IH; auto.
      * unfold mark_entry. cbv zeta.
        destruct (status_eqb _ CONVERGED); [now rewrite upd_length|exact Hlen].
      * congruence.
    + now apply mark_entries_running.
Qed.

(** A step of [markDimmerPeaks] on a peak with a strictly brighter peak
    strictly closer than [r_removal]: the peak is set to [ERROR], the count
    goes up by one, and every other peak strictly closer than
    [r_neighbors] that is [CONVERGED] is set to [RUNNING] (the peak itself
    is in state [ERROR] by then). *)
Lemma markDimmerPeaks_step_strict (x y h : list Q) (st : list status)
  (r_removal r_neighbors : Q) (np i k : nat) (removed : Z) :
  (np <= length st)%nat -> (i < np)%nat -> (k < np)%nat ->
  0 <= r_removal -> 0 <= r_neighbors ->
  sget st i <> ERROR ->
  query_dist_sq x y k x y i < SQ r_removal ->
  aget h i < aget h k ->
  let s' := markDimmerPeaks_step (createKDTree x y np) x y h
              r_removal r_neighbors i (removed, st) in
  fst s' = (removed + 1)%Z /\
  sget (snd s') i = ERROR /\
  forall j, (j < np)%nat -> j <> i ->
    query_dist_sq x y j x y i < SQ r_neighbors ->
    sget st j = CONVERGED ->
    sget (snd s') j = RUNNING.
Proof.
  intros Hlen Hi Hk Hr Hrn Hst Hd Hh.
  pose proof (is_dimmer_strict x y h r_removal np i k Hr Hi Hk Hd Hh) as Hdim.
  unfold is_dimmer in Hdim. cbv zeta in Hdim.
  apply andb_true_iff in Hdim as [Hsz Hscan]. apply negb_true_iff in Hsz.
  unfold markDimmerPeaks_step.
  replace (status_eqb (sget st i) ERROR) with false
    by (symmetry; now apply status_eqb_neq).
  cbv zeta. rewrite Hsz, Hscan. cbn [fst snd].
  split; [reflexivity|]. split.
  - apply mark_neighbors_error. unfold sget. apply nth_upd_same. lia.
  - intros j Hj Hji Hdj Hcj.
    unfold mark_neighbors.
    destruct (kd_nearest_range_spec (createKDTree x y np)
                [aget x i; aget y i] r_neighbors) as (Hsize & Hiter & _).
    rewrite mark_neighbors_loop by (rewrite Hsize, Nat2Z.id, Hiter; lia).
    rewrite Hsize, Nat2Z.id, Hiter, firstn_all.
    pose proof (kd_nearest_range_complete x y np [aget x i; aget y i]
                  r_neighbors j Hrn Hj Hdj) as Hin.
    unfold res_points in Hin. apply in_map_iff in Hin as (e & Ee & He).
    injection Ee as _ Edata.
    assert (Ek : Z.to_nat (node_data (item e)) = j) by lia.
    rewrite <- Ek.
    apply mark_entries_complete; [exact He| |].
    + rewrite upd_length, Ek. lia.
    + rewrite Ek. unfold sget. rewrite nth_upd_other by congruence. exact Hcj.
Qed.

(** Suppression does not look at the status of the brighter peak: a peak
    that is not in state [ERROR] at the call and has a strictly brighter
    peak strictly closer than [r_removal] ends in state [ERROR], whatever
    the statuses of the other peaks. *)
Lemma markDimmerPeaks_strict (x y h : list Q) (st : list status)
  (r_removal r_neighbors : Q) (np i k : nat) :
  (np <= length st)%nat ->
  0 <= r_removal -> (i < np)%nat -> (k < np)%nat ->
  dist_sq 2 [aget x k; aget y k] [aget x i; aget y i] < SQ r_removal ->
  aget h i < aget h k ->
  sget (snd (markDimmerPeaks x y h st r_removal r_neighbors np)) i = ERROR.
Proof.
  intros Hlen Hr Hi Hk Hd Hh.
  apply (proj1 (markDimmerPeaks_marks x y h st r_removal r_neighbors np Hlen)); auto.
  right. now apply (is_dimmer_strict x y h r_removal np i k).
Qed.

(** Peaks that are all strictly closer than [r_removal] to each other: a
    peak ends in state [ERROR] exactly when it was in that state or some
    peak is strictly brighter.  With heights 10, 5 and 3 and no [ERROR] at
    the call, the two dimmer peaks end in state [ERROR] and the brightest
    does not. *)
Lemma markDimmerPeaks_cluster (x y h : list Q) (st : list status)
  (r_removal r_neighbors : Q) (np : nat) :
  (np <= length st)%nat ->
  0 <= r_removal ->
  (forall i k, (i < np)%nat -> (k < np)%nat ->
     dist_sq 2 [aget x k; aget y k] [aget x i; aget y i] < SQ r_removal) ->
  forall i, (i < np)%nat ->
    (sget (snd (markDimmerPeaks x y h st r_removal r_neighbors np)) i = ERROR <->
     sget st i = ERROR \/ exists k, (k < np)%nat /\ aget h i < aget h k).
Proof.
  intros Hlen Hr Hnear i Hi.
  rewrite (proj1 (markDimmerPeaks_marks x y h st r_removal r_neighbors np Hlen)) by exact Hi.
  split; (intros [E|E]; [now left|right]).
  - apply is_dimmer_sound in E as (k & Hk & Hh & _). now exists k.
  - destruct E as (k & Hk & Hh).
    apply (is_dimmer_strict x y h r_removal np i k); auto.
Qed.

(** Three peaks strictly closer than [r_removal] to each other, of heights
    10, 5 and 3 and none in state [ERROR]: after the call the two dimmer
    peaks are in state [ERROR], the brightest is not, and 2 is returned. *)
Lemma markDimmerPeaks_three_peaks (x y : list Q) (st : list status)
  (r_removal r_neighbors : Q) :
  (3 <= length st)%nat ->
  0 <= r_removal ->
  (forall i k, (i < 3)%nat -> (k < 3)%nat ->
     dist_sq 2 [aget x k; aget y k] [aget x i; aget y i] < SQ r_removal) ->
  (forall i, (i < 3)%nat -> sget st i <> ERROR) ->
  let r := markDimmerPeaks x y [10; 5; 3] st r_removal r_neighbors 3 in
  sget (snd r) 0 <> ERROR /\ sget (snd r) 1 = ERROR /\ sget (snd r) 2 = ERROR.
Proof.
  intros Hlen Hr Hnear Hst r.
  pose proof (markDimmerPeaks_cluster x y [10; 5; 3] st r_removal r_neighbors 3
                Hlen Hr Hnear) as H.
  split; [|split].
  - intro E. apply H in E; [|lia].
    destruct E as [E|(k & Hk & Hh)]; [now apply (Hst 0%nat); [lia|]|].
    destruct k as [|[|[|k]]]; vm_compute in Hh; try discriminate; lia.
  - apply H; [lia|]. right. exists 0%nat. split; [lia|reflexivity].
  - apply H; [lia|]. right. exists 0%nat. split; [lia|reflexivity].
Qed.

(** ** What [runningIfHasNeighbors] does *)

Lemma runningIfHasNeighbors_status (c_x c_y n_x n_y : list Q) (st : list status)
  (radius : Q) (nc nn : nat) :
  (nc <= length st)%nat ->
  forall i,
    sget (runningIfHasNeighbors c_x c_y n_x n_y st radius nc nn) i
    = if (i <? nc)%nat then running_status c_x c_y n_x n_y st radius nn i
      else sget st i.
Proof.
  intro Hlen. unfold runningIfHasNeighbors.
  pose (P := fun (m : nat) (s : list status) =>
    length s = length st /\
    forall i, sget s i = if (i <? m)%nat
                         then running_status c_x c_y n_x n_y st radius nn i
                         else sget st i).
  match goal with |- forall i, sget (for_loop nc 0 ?b st) i = _ =>
    assert (HP : P (0 + nc)%nat (for_loop nc 0 b st)) end.
  { apply for_loop_inv.
    - split; [reflexivity|]. intro i. reflexivity.
    - intros m s Hm [HL HS].
      assert (Hsm : sget s m = sget st m).
      { rewrite HS. now rewrite Nat.ltb_irrefl. }
      assert (Hcase : forall s', length s' = length st ->
                (forall i, i <> m -> sget s' i = sget s i) ->
                sget s' m = running_status c_x c_y n_x n_y st radius nn m ->
                P (S m) s').
      { intros s' HL' Hother Hm'. split; [exact HL'|]. intro i.
        destruct (Nat.eq_dec i m) as [->|Hne].
        - rewrite Hm'. replace (m <? S m)%nat with true; [reflexivity|].
          symmetry. apply Nat.ltb_lt. lia.
        - rewrite Hother, HS by exact Hne.
          destruct (i <? m)%nat eqn:E1, (i <? S m)%nat eqn:E2; try reflexivity;
            apply Nat.ltb_lt in E1 || apply Nat.ltb_ge in E1;
            apply Nat.ltb_lt in E2 || apply Nat.ltb_ge in E2; lia. }
      rewrite Hsm.
      destruct (status_eqb (sget st m) RUNNING || status_eqb (sget st m) ERROR) eqn:Eskip.
      + apply Hcase; auto. unfold running_status. now rewrite Eskip.
      + destruct (0 <? kd_res_size _)%Z eqn:Esize.
        * apply Hcase.
          -- now rewrite upd_length.
          -- intros i Hne. unfold sget. apply nth_upd_other. congruence.
          -- unfold running_status. rewrite Eskip, Esize.
             unfold sget. apply nth_upd_same. lia.
        * apply Hcase; auto. unfold running_status. now rewrite Eskip, Esize. }
  destruct HP as [_ HS]. exact HS.
Qed.

(** A [CONVERGED] current peak with a new peak strictly closer than
    [radius] becomes [RUNNING]. *)
Lemma runningIfHasNeighbors_strict (c_x c_y n_x n_y : list Q) (st : list status)
  (radius : Q) (nc nn i k : nat) :
  (nc <= length st)%nat -> (i < nc)%nat -> (k < nn)%nat ->
  0 <= radius ->
  sget st i = CONVERGED ->
  dist_sq 2 [aget n_x k; aget n_y k] [aget c_x i; aget c_y i] < SQ radius ->
  sget (runningIfHasNeighbors c_x c_y n_x n_y st radius nc nn) i = RUNNING.
Proof.
  intros Hlen Hi Hk Hr Hst Hd.
  rewrite runningIfHasNeighbors_status by exact Hlen.
  replace (i <? nc)%nat with true by (symmetry; apply Nat.ltb_lt; lia).
  unfold running_status. rewrite Hst. simpl.
  destruct (kd_nearest_range_spec (createKDTree n_x n_y nn)
              [aget c_x i; aget c_y i] radius) as (Hsize & _).
  pose proof (kd_nearest_range_complete n_x n_y nn [aget c_x i; aget c_y i]
                radius k Hr Hk Hd) as Hin.
  unfold res_points in Hin. apply in_map_iff in Hin as (r & _ & Hin).
  replace (0 <? kd_res_size _)%Z with true; [reflexivity|].
  symmetry. apply Z.ltb_lt. rewrite Hsize.
  destruct (rlist _); [inversion Hin|simpl; lia].
Qed.

(** A current peak changes its status only from [CONVERGED] to [RUNNING],
    and only with a new peak within [radius]. *)
Lemma runningIfHasNeighbors_only_if (c_x c_y n_x n_y : list Q) (st : list status)
  (radius : Q) (nc nn i : nat) :
  (nc <= length st)%nat ->
  sget (runningIfHasNeighbors c_x c_y n_x n_y st radius nc nn) i <> sget st i ->
  sget st i = CONVERGED /\
  sget (runningIfHasNeighbors c_x c_y n_x n_y st radius nc nn) i = RUNNING /\
  exists k, (k < nn)%nat /\
    dist_sq 2 [aget n_x k; aget n_y k] [aget c_x i; aget c_y i] <= SQ radius.
Proof.
  intros Hlen. rewrite runningIfHasNeighbors_status by exact Hlen.
  destruct (i <? nc)%nat; [|congruence].
  unfold running_status.
  destruct (sget st i) eqn:Est; simpl; try congruence.
  destruct (kd_nearest_range_spec (createKDTree n_x n_y nn)
              [aget c_x i; aget c_y i] radius) as (Hsize & _).
  destruct (0 <? kd_res_size _)%Z eqn:E; [|congruence].
  intros _. split; [reflexivity|]. split; [reflexivity|].
  apply Z.ltb_lt in E. rewrite Hsize in E.
  destruct (rlist (kd_nearest_range (createKDTree n_x n_y nn)
                     [aget c_x i; aget c_y i] radius)) as [|r rest] eqn:Er;
    [simpl in E; lia|].
  destruct (kd_nearest_range_sound n_x n_y nn [aget c_x i; aget c_y i] radius r)
    as (k & Hk & _ & _ & Hd); [rewrite Er; now left|].
  now exists k.
Qed.

(** ** What [nearestKDTree] does *)

Lemma nearest_scan_loop (xi yi : Q) (n : nat) :
  forall (start : nat) (set : kdres) (m : Q) (i0 : Z),
    (n <= length (riter set))%nat ->
    for_loop n start
      (fun _ '(set, min_dd, min_i) =>
         let pos := snd (kd_res_item set [xi; yi]) in
         let dx := aget pos 0 - xi in
         let dy := aget pos 1 - yi in
         let dd := dx * dx + dy * dy in
         let '(min_dd', min_i') :=
           if Qlt_bool dd min_dd then (dd, kd_res_item_data set)
           else (min_dd, min_i) in
         (kd_res_next set, min_dd', min_i'))
      (set, m, i0)
    = (mkSet (res_tree set) (rlist set) (skipn n (riter set)) (size set),
       fst (fold_left (scan_entry (kd_dim (res_tree set)) xi yi)
                      (firstn n (riter set)) (m, i0)),
       snd (fold_left (scan_entry (kd_dim (res_tree set)) xi yi)
                      (firstn n (riter set)) (m, i0))).
Proof.
  induction n as [|n IH]; intros start set m i0 Hn.
  - simpl. now destruct set.
  - destruct set as [t rl it sz]. simpl in Hn.
    destruct it as [|e it]; [simpl in Hn; lia|].
    cbn [for_loop]. unfold kd_res_item, kd_res_item_data. cbn [riter res_tree snd].
    cbv zeta.
    change (firstn (S n) (e :: it)) with (e :: firstn n it).
    cbn [fold_left skipn rlist size].
    unfold scan_entry at 2 4. unfold entry_dd. cbn [fst]. cbv zeta.
    destruct (Qlt_bool _ m);
      unfold kd_res_next; cbn [riter res_tree rlist size tl];
      (rewrite IH by (simpl in *; lia)); reflexivity.
Qed.

Lemma scan_fold_min (dim : nat) (xi yi : Q) (l : list res_node) :
  forall acc,
    let acc' := fold_left (scan_entry dim xi yi) l acc in
    fst acc' <= fst acc /\
    (forall e, In e l -> fst acc' <= entry_dd dim xi yi e) /\
    (acc' = acc \/
     exists e, In e l /\ fst acc' = entry_dd dim xi yi e /\
               snd acc' = node_data (item e)).
Proof.
  induction l as [|e l IH]; intro acc; simpl.
  - split; [lra|]. split; [intros e []|now left].
  - destruct (IH (scan_entry dim xi yi acc e)) as (Hle & Hmin & Hor).
    assert (Hstep : fst (scan_entry dim xi yi acc e) <= fst acc /\
                    fst (scan_entry dim xi yi acc e) <= entry_dd dim xi yi e).
    { unfold scan_entry.
      destruct (Qlt_bool (entry_dd dim xi yi e) (fst acc)) eqn:E; simpl.
      - apply Qlt_bool_true in E. lra.
      - apply Qlt_bool_false in E. lra. }
    destruct Hstep as [Hs1 Hs2].
    split; [lra|]. split.
    + intros e' [<-|He']; [lra|now apply Hmin].
    + destruct Hor as [Hsame|(e' & He' & Hd & Hi)].
      * rewrite Hsame. unfold scan_entry.
        destruct (Qlt_bool (entry_dd dim xi yi e) (fst acc)); [|now left].
        right. exists e. simpl. auto.
      * right. exists e'. auto.
Qed.

Lemma nearestKDTree_entries (kd : kdtree) (x y : list Q) (dist : list dval)
  (index : list Z) (radius : Q) (n i : nat) :
  (n <= length dist)%nat -> (n <= length index)%nat -> (i < n)%nat ->
  nth i (fst (nearestKDTree kd x y dist index radius n)) (Dlit 0)
  = fst (nearest_entry kd x y radius i) /\
  nth i (snd (nearestKDTree kd x y dist index radius n)) 0%Z
  = snd (nearest_entry kd x y radius i).
Proof.
  intros Hd Hx Hi. unfold nearestKDTree.
  pose (P := fun (m : nat) (s : list dval * list Z) =>
    length (fst s) = length dist /\ length (snd s) = length index /\
    forall j, (j < m)%nat ->
      nth j (fst s) (Dlit 0) = fst (nearest_entry kd x y radius j) /\
      nth j (snd s) 0%Z = snd (nearest_entry kd x y radius j)).
  match goal with |- context [for_loop n 0 ?b (dist, index)] =>
    assert (HP : P (0 + n)%nat (for_loop n 0 b (dist, index))) end.
  { apply for_loop_inv.
    - split; [reflexivity|]. split; [reflexivity|]. intros j Hj. lia.
    - intros m [d ix] Hm (HL1 & HL2 & Hprev). simpl in HL1, HL2, Hprev.
      assert (Hstep : forall v k,
                (v, k) = nearest_entry kd x y radius m ->
                P (S m) (upd m v d, upd m k ix)).
      { intros v k E. split; [simpl; now rewrite upd_length|].
        split; [simpl; now rewrite upd_length|].
        intros j Hj. simpl.
        destruct (Nat.eq_dec m j) as [<-|Hne].
        - rewrite !nth_upd_same by lia. now rewrite <- E.
        - rewrite !nth_upd_other by exact Hne. apply Hprev. lia. }
      unfold nearest_entry in Hstep. cbv zeta in Hstep.
      destruct (nearest_scan _ (aget x m) (aget y m) _ _) as [[set' min_dd] min_i].
      destruct (0 <=? min_i)%Z; now apply Hstep. }
  destruct HP as (_ & _ & HP). now apply HP.
Qed.

Section NearestMatch.

Variables (ix iy : list Q) (n_index : nat) (x y : list Q) (radius : Q) (i : nat).

Lemma nearest_entry_fold :
  nearest_entry (createKDTree ix iy n_index) x y radius i
  = let acc :=
      fold_left (scan_entry 2 (aget x i) (aget y i))
        (rlist (kd_nearest_range (createKDTree ix iy n_index)
                  [aget x i; aget y i] radius))
        (radius * radius + (1 # 10), (-1)%Z) in
    if (0 <=? snd acc)%Z then (Dsqrt (fst acc), snd acc)
    else (Dlit (-1), (-1)%Z).
Proof.
  unfold nearest_entry, nearest_scan. cbv zeta.
  destruct (kd_nearest_range_spec (createKDTree ix iy n_index)
              [aget x i; aget y i] radius) as (Hsize & Hiter & _).
  rewrite nearest_scan_loop by (rewrite Hsize, Nat2Z.id, Hiter; lia).
  rewrite Hsize, Nat2Z.id, Hiter, firstn_all.
  replace (kd_dim (res_tree (kd_nearest_range (createKDTree ix iy n_index)
                               [aget x i; aget y i] radius)))
    with 2%nat; [reflexivity|].
  unfold kd_nearest_range.
  destruct (find_nearest _ _ radius [] false _) as [ret l]. simpl.
  symmetry. apply (tree_inv_createKDTree ix iy n_index).
Qed.

Lemma entry_of_result (e : res_node) :
  In e (rlist (kd_nearest_range (createKDTree ix iy n_index)
                 [aget x i; aget y i] radius)) ->
  exists k, (k < n_index)%nat /\ node_data (item e) = Z.of_nat k /\
    entry_dd 2 (aget x i) (aget y i) e == query_dist_sq ix iy k x y i /\
    query_dist_sq ix iy k x y i <= SQ radius.
Proof.
  intro He. apply kd_nearest_range_sound in He as (k & Hk & Hdata & Hpos & Hd).
  exists k. repeat split; auto.
  unfold entry_dd, query_dist_sq. rewrite Hpos. cbv zeta. simpl firstn.
  rewrite dist_sq_2. unfold aget. simpl. ring.
Qed.

(** Without an index point within [radius] of the query point [i], the
    distance -1 and the index -1 are reported. *)
Lemma nearest_entry_none :
  (forall k, (k < n_index)%nat -> SQ radius < query_dist_sq ix iy k x y i) ->
  nearest_entry (createKDTree ix iy n_index) x y radius i
  = (Dlit (-1), (-1)%Z).
Proof.
  intro Hfar. rewrite nearest_entry_fold.
  destruct (rlist (kd_nearest_range (createKDTree ix iy n_index)
                     [aget x i; aget y i] radius))
    as [|e rest] eqn:Er; [reflexivity|].
  destruct (entry_of_result e) as (k & Hk & _ & _ & Hd); [rewrite Er; now left|].
  specialize (Hfar k Hk). lra.
Qed.

(** With an index point strictly closer than [radius], the reported index
    is that of an index point at the least squared distance among the index
    points within [radius], and the reported distance is the square root of
    that squared distance. *)
Lemma nearest_entry_some (k : nat) :
  0 <= radius -> (k < n_index)%nat ->
  query_dist_sq ix iy k x y i < SQ radius ->
  exists j dd,
    (j < n_index)%nat /\
    nearest_entry (createKDTree ix iy n_index) x y radius i
    = (Dsqrt dd, Z.of_nat j) /\
    dd == query_dist_sq ix iy j x y i /\
    forall k', (k' < n_index)%nat ->
      query_dist_sq ix iy k' x y i <= SQ radius ->
      dd <= query_dist_sq ix iy k' x y i.
Proof.
  intros Hr Hk Hd. rewrite nearest_entry_fold. cbv zeta.
  set (rl := rlist (kd_nearest_range (createKDTree ix iy n_index)
                      [aget x i; aget y i] radius)).
  destruct (scan_fold_min 2 (aget x i) (aget y i) rl
              (radius * radius + (1 # 10), (-1)%Z)) as (Hle & Hmin & Hor).
  set (acc := fold_left (scan_entry 2 (aget x i) (aget y i)) rl
                (radius * radius + (1 # 10), (-1)%Z)) in *.
  assert (Hin : forall k', (k' < n_index)%nat ->
            query_dist_sq ix iy k' x y i < SQ radius ->
            exists e, In e rl /\
              entry_dd 2 (aget x i) (aget y i) e == query_dist_sq ix iy k' x y i).
  { intros k' Hk' Hd'.
    pose proof (kd_nearest_range_complete ix iy n_index [aget x i; aget y i]
                  radius k' Hr Hk' Hd') as H.
    unfold res_points in H. apply in_map_iff in H as (e & Ee & He).
    exists e. split; [exact He|].
    destruct (entry_of_result e He) as (k2 & _ & Hdata & Hdd & _).
    injection Ee as Epos Edata.
    assert (k2 = k') by lia. subst k2. exact Hdd. }
  destruct (Hin k Hk Hd) as (ek & Hek & Hddk).
  destruct Hor as [Hsame|(e & He & Hfst & Hsnd)].
  - exfalso. specialize (Hmin ek Hek). rewrite Hsame in Hmin. simpl in Hmin.
    unfold SQ in *. lra.
  - destruct (entry_of_result e He) as (j & Hj & Hdata & Hdd & Hdj).
    exists j, (fst acc). split; [exact Hj|]. split; [|split].
    + rewrite Hsnd, Hdata.
      replace (0 <=? Z.of_nat j)%Z with true; [reflexivity|].
      symmetry. apply Z.leb_le. lia.
    + rewrite Hfst. exact Hdd.
    + intros k' Hk' Hd'.
      destruct (Qlt_le_dec (query_dist_sq ix iy k' x y i) (SQ radius))
        as [Hlt|Hge].
      * destruct (Hin k' Hk' Hlt) as (e' & He' & Hdd').
        specialize (Hmin e' He'). lra.
      * rewrite Hfst. lra.
Qed.

End NearestMatch.

(** ** Points at exactly the query radius *)

(** C1, at a failing input.  The index holds the points (1, 0) and (1, 5),
    inserted in this order.  The point (1, 5) is at distance exactly 1 from
    (0, 5), so its squared distance is within the squared radius 1, and the
    range query around (0, 5) with radius 1 returns an empty result set:
    at the root the query point is at distance 1 = radius from the
    splitting plane, the test [fabs(dx) < range] fails and the right
    subtree, which holds (1, 5), is not searched. *)
Theorem kd_nearest_range_misses_boundary :
  In ([1; 5], 1%Z) (peak_points edge_x edge_y 2) /\
  dist_sq 2 [1; 5] [0; 5] <= SQ 1 /\
  rlist (kd_nearest_range (build 2 (peak_points edge_x edge_y 2)) [0; 5] 1) = [] /\
  kd_res_size (kd_nearest_range (build 2 (peak_points edge_x edge_y 2)) [0; 5] 1) = 0%Z.
Proof.
  split; [right; now left|]. split; [vm_compute; discriminate|].
  split; reflexivity.
Qed.

(** C1, radius 0: the query around the inserted point (1, 5) itself with
    radius 0 returns nothing either. *)
Lemma kd_nearest_range_misses_self :
  rlist (kd_nearest_range (build 2 (peak_points edge_x edge_y 2)) [1; 5] 0) = [].
Proof. reflexivity. Qed.

(** C2, at a failing input.  Peak 2 at (0, 10) of height 5 is not in state
    [ERROR]; its range query within [r_removal = 2] returns two results,
    peaks 3 and 2; peak 1 at (2, 10), at distance exactly 2, has height
    9 > 5.  [markDimmerPeaks] leaves peak 2 in state [RUNNING] and returns
    0. *)
Theorem markDimmerPeaks_misses_boundary :
  let st := [RUNNING; RUNNING; RUNNING; RUNNING] in
  dist_sq 2 [aget dim_x 1; aget dim_y 1] [aget dim_x 2; aget dim_y 2] <= SQ 2 /\
  aget dim_h 2 < aget dim_h 1 /\
  map snd (res_points (rlist (kd_nearest_range (createKDTree dim_x dim_y 4)
                                [aget dim_x 2; aget dim_y 2] 2)))
  = [3%Z; 2%Z] /\
  markDimmerPeaks dim_x dim_y dim_h st 2 2 4 = (0%Z, st).
Proof.
  split; [vm_compute; discriminate|]. split; [reflexivity|].
  split; reflexivity.
Qed.

(** C10, at a failing input.  Peak 1 at (3, 7) is in state [ERROR] and has
    height 8; peak 2 at (0, 7), of height 4 and in state [RUNNING], is at
    distance exactly [r_removal = 3] from it, and its range query returns
    two results.  [markDimmerPeaks] does not mark peak 2. *)
Theorem markDimmerPeaks_error_neighbor_boundary :
  dist_sq 2 [aget err_x 1; aget err_y 1] [aget err_x 2; aget err_y 2] <= SQ 3 /\
  aget err_h 2 < aget err_h 1 /\
  sget err_status 1 = ERROR /\
  sget err_status 2 = RUNNING /\
  kd_res_size (kd_nearest_range (createKDTree err_x err_y 4)
                 [aget err_x 2; aget err_y 2] 3) = 2%Z /\
  markDimmerPeaks err_x err_y err_h err_status 3 3 4 = (0%Z, err_status).
Proof.
  split; [vm_compute; discriminate|]. split; [reflexivity|].
  repeat split.
Qed.

(** C5, at failing inputs.  The index holds (1, 0) and (1, 5).  For the
    query point (0, 5) and [max_radius = 1] the index point (1, 5) lies
    within the radius, and [nearestKDTree] reports the distance -1 and the
    index -1.  For the query point (1, 5), which is an index point, and
    [max_radius = 0] it reports -1 and -1 as well. *)
Theorem nearestKDTree_misses_boundary :
  dist_sq 2 [1; 5] [0; 5] <= SQ 1 /\
  nearestKDTree (createKDTree edge_x edge_y 2) [0] [5] [Dlit 0] [0%Z] 1 1
  = ([Dlit (-1)], [(-1)%Z]) /\
  nearestKDTree (createKDTree edge_x edge_y 2) [1] [5] [Dlit 0] [0%Z] 0 1
  = ([Dlit (-1)], [(-1)%Z]).
Proof.
  split; [vm_compute; discriminate|]. split; reflexivity.
Qed.

(** C7, at a failing input.  The current peak (0, 5) is in state
    [CONVERGED]; the new peak (1, 5) lies at distance exactly
    [radius = 1] from it.  [runningIfHasNeighbors] leaves the status
    [CONVERGED]. *)
Theorem runningIfHasNeighbors_misses_boundary :
  dist_sq 2 [aget edge_x 1; aget edge_y 1] [0; 5] <= SQ 1 /\
  runningIfHasNeighbors [0] [5] edge_x edge_y [CONVERGED] 1 1 2 = [CONVERGED].
Proof.
  split; [vm_compute; discriminate|]. reflexivity.
Qed.

(** ** Further properties of the k-d tree *)

Lemma map_stored_id (dim : nat) (pts : list (list Q * Z)) :
  Forall (fun p => length (fst p) = dim) pts -> map (stored dim) pts = pts.
Proof.
  intro Hlen. induction Hlen as [|p l Hp _ IH]; [reflexivity|].
  simpl. rewrite IH. f_equal. unfold stored. rewrite <- Hp, firstn_all.
  now destruct p.
Qed.

Lemma Forall_length_le (dim : nat) (pts : list (list Q * Z)) :
  Forall (fun p => length (fst p) = dim) pts ->
  Forall (fun p => (dim <= length (fst p))%nat) pts.
Proof.
  intro H. eapply Forall_impl; [|exact H]. simpl. intros p Hp. lia.
Qed.

(** X1.  An index built by inserting points of the index's dimension holds
    exactly the inserted points with their payloads, each once, and keeps
    the k-d partition: at every node, the left subtree lies strictly below
    the node's coordinate on the node's axis and the right subtree at or
    above it. *)
Theorem build_contents_partition (dim : nat) (pts : list (list Q * Z)) :
  (0 < dim)%nat ->
  Forall (fun p => length (fst p) = dim) pts ->
  kd_dim (build dim pts) = dim /\
  Permutation (points (kd_root (build dim pts))) pts /\
  kd_ordered dim (kd_root (build dim pts)).
Proof.
  intros Hdim Hlen.
  destruct (tree_inv_build dim pts Hdim (Forall_length_le dim pts Hlen))
    as (Hkd & Hord & Hperm & _).
  rewrite (map_stored_id dim pts Hlen) in Hperm.
  split; [exact Hkd|]. split; [exact Hperm|exact Hord].
Qed.

Lemma build_contents_partition_witness :
  kd_dim (build 2 nearest_tie_points) = 2%nat /\
  Permutation (points (kd_root (build 2 nearest_tie_points))) nearest_tie_points /\
  kd_ordered 2 (kd_root (build 2 nearest_tie_points)).
Proof.
  apply (build_contents_partition 2 nearest_tie_points).
  - lia.
  - repeat constructor.
Defined.

Lemma axes_cycle_insert_rec (t : kdnode) (pos : list Q) (data : Z) (dir dim : nat) :
  axes_cycle dim dir t -> axes_cycle dim dir (insert_rec t pos data dir dim).
Proof.
  revert dir. induction t as [|p d dt l IHl r IHr]; intros dir H; simpl.
  - auto.
  - destruct H as (-> & Hl & Hr).
    destruct (Qlt_bool (aget pos dir) (aget p dir)); simpl; auto.
Qed.

(** X2.  The split axis cycles with the depth: the root splits on axis 0
    and the children of a node that splits on [dir] split on
    [(dir + 1) mod dim]. *)
Theorem build_axes_cycle (dim : nat) (pts : list (list Q * Z)) :
  (0 < dim)%nat -> axes_cycle dim 0 (kd_root (build dim pts)).
Proof.
  intros _. induction pts as [|p pts IH] using rev_ind; [exact I|].
  rewrite build_snoc. unfold kd_insert.
  assert (Hd : forall q, kd_dim (build dim q) = dim).
  { intro q. induction q as [|a q IHq] using rev_ind; [reflexivity|].
    rewrite build_snoc. unfold kd_insert. now destruct (kd_rect (build dim q)). }
  rewrite Hd.
  destruct (kd_rect (build dim pts)); simpl; now apply axes_cycle_insert_rec.
Qed.

Lemma build_axes_cycle_witness :
  axes_cycle 2 0 (kd_root (build 2 nearest_tie_points)).
Proof. apply (build_axes_cycle 2 nearest_tie_points). lia. Defined.

Lemma hyperrect_extend_tight (dim : nat) (r : kdhyperrect) (pos : list Q) :
  rect_wf dim r ->
  forall i, (i < dim)%nat ->
    (aget (rect_min (hyperrect_extend r pos)) i = aget (rect_min r) i \/
     aget (rect_min (hyperrect_extend r pos)) i = aget pos i) /\
    (aget (rect_max (hyperrect_extend r pos)) i = aget (rect_max r) i \/
     aget (rect_max (hyperrect_extend r pos)) i = aget pos i).
Proof.
  intros (Hd & Hmin & Hmax). unfold hyperrect_extend. rewrite Hd.
  pose (P := fun (k : nat) (r' : kdhyperrect) =>
    rect_wf dim r' /\
    forall i, (i < dim)%nat ->
      (aget (rect_min r') i = aget (rect_min r) i \/
       aget (rect_min r') i = aget pos i) /\
      (aget (rect_max r') i = aget (rect_max r) i \/
       aget (rect_max r') i = aget pos i)).
  match goal with |- context [for_loop dim 0 ?b r] =>
    assert (HP : P (0 + dim)%nat (for_loop dim 0 b r)) end.
  { apply for_loop_inv.
    - split; [repeat split; auto|]. intros i Hi. split; now left.
    - intros k r' Hk ((Hd' & Hmin' & Hmax') & Ht).
      destruct (Qlt_bool (aget pos k) (aget (rect_min r') k)); simpl;
      match goal with |- context [Qlt_bool ?a ?b] => destruct (Qlt_bool a b) end;
      simpl;
      (split; [unfold rect_wf; simpl; rewrite ?upd_length; auto|]);
      intros i Hi; simpl; destruct (Ht i Hi) as [H1 H2];
      destruct (Nat.eq_dec k i) as [->|Hne];
      rewrite ?aget_upd_same by lia; rewrite ?aget_upd_other by lia;
      split; auto. }
  destruct HP as (_ & HP). exact HP.
Qed.

(** X3.  The bounding region of an index with at least one point is the
    bounding box of the inserted points: it has the index's dimension, it
    contains every inserted point, and on every axis its minimum and its
    maximum are coordinates of inserted points. *)
Theorem build_bounding_region (dim : nat) (pts : list (list Q * Z)) :
  (0 < dim)%nat ->
  Forall (fun p => length (fst p) = dim) pts ->
  pts <> [] ->
  exists r,
    kd_rect (build dim pts) = Some r /\
    rect_dim r = dim /\
    (forall p, In p pts -> in_rect r (fst p)) /\
    (forall i, (i < dim)%nat ->
       (exists p, In p pts /\ aget (rect_min r) i = aget (fst p) i) /\
       (exists p, In p pts /\ aget (rect_max r) i = aget (fst p) i)).
Proof.
  intros Hdim Hlen Hne.
  pose proof (Forall_length_le dim) as Hlen'.
  (* containment, from the invariant of the index *)
  destruct (tree_inv_build dim pts Hdim (Hlen' _ Hlen)) as (_ & _ & Hperm & Hrect).
  destruct (kd_rect (build dim pts)) as [r|] eqn:Er; [|contradiction].
  destruct Hrect as (_ & Hwf & Hin).
  exists r. split; [reflexivity|]. split; [apply Hwf|]. split.
  - intros p Hp.
    assert (Hsp : stored dim p = p).
    { rewrite Forall_forall in Hlen. specialize (Hlen p Hp).
      unfold stored. rewrite <- Hlen, firstn_all. now destruct p. }
    rewrite <- Hsp at 1. apply Hin.
    apply (Permutation_in _ (Permutation_sym Hperm)). now apply in_map.
  - (* tightness, by induction on the insertions *)
    clear Hin Hperm Hwf. revert r Er.
    induction pts as [|p pts IH] using rev_ind; [contradiction|].
    intros r Er i Hi. apply Forall_app in Hlen as [Hpts Hp].
    rewrite build_snoc in Er. unfold kd_insert in Er.
    destruct (tree_inv_build dim pts Hdim (Hlen' _ Hpts)) as (Hkd & _ & _ & Hrect).
    rewrite Hkd in Er.
    destruct (kd_rect (build dim pts)) as [r0|] eqn:Er0.
    + destruct Hrect as (Hne0 & Hwf0 & _).
      injection Er as <-.
      destruct (IH Hpts Hne0 r0 eq_refl i Hi) as ((p1 & Hp1 & E1) & (p2 & Hp2 & E2)).
      destruct (hyperrect_extend_tight dim r0 (fst p) Hwf0 i Hi) as [[Hm|Hm] [HM|HM]];
        rewrite Hm, HM; split;
        first [ exists p; split; [apply in_or_app; right; now left|reflexivity]
              | exists p1; split; [apply in_or_app; now left|exact E1]
              | exists p2; split; [apply in_or_app; now left|exact E2] ].
    + injection Er as <-. simpl.
      rewrite aget_firstn by exact Hi.
      split; exists p; (split; [apply in_or_app; right; now left|reflexivity]).
Qed.

Lemma build_bounding_region_witness :
  exists r,
    kd_rect (build 2 nearest_tie_points) = Some r /\
    rect_dim r = 2%nat /\
    (forall p, In p nearest_tie_points -> in_rect r (fst p)) /\
    (forall i, (i < 2)%nat ->
       (exists p, In p nearest_tie_points /\ aget (rect_min r) i = aget (fst p) i) /\
       (exists p, In p nearest_tie_points /\ aget (rect_max r) i = aget (fst p) i)).
Proof.
  apply (build_bounding_region 2 nearest_tie_points).
  - lia.
  - repeat constructor.
  - discriminate.
Defined.

(** X4.  For a point [p] of a bounding region, [hyperrect_dist_sq] is 0 at
    [p] itself, and at any query point [q] it is at most the squared
    distance from [q] to [p]: the value the nearest-neighbour search prunes
    with never exceeds the distance to a point of the region. *)
Theorem hyperrect_dist_sq_lower_bound (rect : kdhyperrect) (p q : list Q) :
  in_rect rect p ->
  hyperrect_dist_sq rect p = 0 /\
  0 <= hyperrect_dist_sq rect q /\
  hyperrect_dist_sq rect q <= dist_sq (rect_dim rect) p q.
Proof.
  intro Hin. split; [|split].
  - unfold hyperrect_dist_sq.
    pose (P := fun (_ : nat) (r : Q) => r = 0).
    apply (for_loop_inv P (rect_dim rect) 0); [reflexivity|].
    intros i r Hi Hr. unfold P in *. subst r.
    destruct (Hin i) as [Hlo Hhi]; [lia|].
    replace (Qlt_bool (aget p i) (aget (rect_min rect) i)) with false
      by (symmetry; now apply Qlt_bool_false).
    replace (Qlt_bool (aget (rect_max rect) i) (aget p i)) with false
      by (symmetry; now apply Qlt_bool_false).
    reflexivity.
  - unfold hyperrect_dist_sq.
    pose (P := fun (_ : nat) (r : Q) => 0 <= r).
    apply (for_loop_inv P (rect_dim rect) 0); [unfold P; lra|].
    intros i r Hi Hr. unfold P in *.
    pose proof (SQ_nonneg (aget (rect_min rect) i - aget q i)).
    pose proof (SQ_nonneg (aget (rect_max rect) i - aget q i)).
    destruct (Qlt_bool _ _); [lra|]. destruct (Qlt_bool _ _); lra.
  - unfold hyperrect_dist_sq, dist_sq.
    apply for_loop_le; [lra|].
    intros i u v Hi Huv. destruct (Hin i) as [Hlo Hhi]; [lia|].
    pose proof (SQ_nonneg (aget p i - aget q i)) as Hsq.
    destruct (Qlt_bool (aget q i) (aget (rect_min rect) i)) eqn:E1.
    + apply Qlt_bool_true in E1. unfold SQ in *. nra.
    + destruct (Qlt_bool (aget (rect_max rect) i) (aget q i)) eqn:E2.
      * apply Qlt_bool_true in E2. unfold SQ in *. nra.
      * lra.
Qed.

Lemma hyperrect_dist_sq_lower_bound_witness :
  hyperrect_dist_sq unit_rect [1; 0] = 0 /\
  0 <= hyperrect_dist_sq unit_rect [3; 4] /\
  hyperrect_dist_sq unit_rect [3; 4] <= dist_sq (rect_dim unit_rect) [1; 0] [3; 4].
Proof.
  apply (hyperrect_dist_sq_lower_bound unit_rect [1; 0] [3; 4]).
  intros i Hi. simpl in Hi.
  destruct i as [|[|i]]; [vm_compute; split; discriminate
                         |vm_compute; split; discriminate|lia].
Defined.

(** X5.  [kd_nearest_i] undoes every slice of the bounding region it makes:
    whatever the tree, the query point and the state it starts from, the
    region it returns is the region it was given; and the best squared
    distance it returns is at most the one it was given. *)
Theorem kd_nearest_i_scoped (node : kdnode) (pos : list Q) :
  forall result rd rect,
    snd (kd_nearest_i node pos result rd rect) = rect /\
    snd (fst (kd_nearest_i node pos result rd rect)) <= rd.
Proof.
  induction node as [|p d dt l IHl r IHr]; intros result rd rect;
    [split; [reflexivity|simpl; lra]|].
  cbn [kd_nearest_i]. cbv zeta.
  set (le0 := Qle_bool (aget pos d - aget p d) 0).
  assert (Hsub : forall t, t = l \/ t = r ->
            forall result rd rect,
              snd (kd_nearest_i t pos result rd rect) = rect /\
              snd (fst (kd_nearest_i t pos result rd rect)) <= rd)
    by (intros t [->| ->]; assumption).
  generalize (Hsub (if le0 then l else r) (ltac:(destruct le0; auto))).
  generalize (Hsub (if le0 then r else l) (ltac:(destruct le0; auto))).
  generalize (if le0 then l else r) as t1.
  generalize (if le0 then r else l) as t2.
  generalize (if le0 then Max else Min) as b1.
  generalize (if le0 then Min else Max) as b2.
  intros b2 b1 t2 t1 H2 H1.
  assert (E1 : exists res1 rd1,
    match t1 with
    | Null => (result, rd, rect)
    | Node _ _ _ _ _ =>
        let '(res, d0, rect') :=
          kd_nearest_i t1 pos result rd (coord_set b1 rect d (aget p d)) in
        (res, d0, coord_set b1 rect' d (coord_get b1 rect d))
    end = (res1, rd1, rect) /\ rd1 <= rd).
  { destruct t1 as [|? ? ? ? ?]; [exists result, rd; split; [reflexivity|lra]|].
    destruct (H1 result rd (coord_set b1 rect d (aget p d))) as [Hr Hd].
    destruct (kd_nearest_i _ pos result rd _) as [[res1 rd1] rect1].
    simpl in Hr, Hd. subst rect1. exists res1, rd1.
    split; [now rewrite coord_set_restore|exact Hd]. }
  destruct E1 as (res1 & rd1 & -> & Hrd1).
  assert (E2 : exists res2 rd2,
    (if Qlt_bool (dist_sq (rect_dim rect) p pos) rd1
     then (Node p d dt l r, dist_sq (rect_dim rect) p pos)
     else (res1, rd1)) = (res2, rd2) /\ rd2 <= rd1).
  { destruct (Qlt_bool _ rd1) eqn:E; eexists; eexists; split;
      try reflexivity; [apply Qlt_bool_true in E|]; lra. }
  destruct E2 as (res2 & rd2 & -> & Hrd2).
  destruct t2 as [|? ? ? ? ?]; [split; [reflexivity|simpl; lra]|].
  destruct (Qlt_bool _ rd2).
  - destruct (H2 res2 rd2 (coord_set b2 rect d (aget p d))) as [Hr Hd].
    destruct (kd_nearest_i _ pos res2 rd2 _) as [[res3 rd3] rect3].
    simpl in Hr, Hd. subst rect3. simpl.
    split; [now rewrite coord_set_restore|lra].
  - simpl. split; [now rewrite coord_set_restore|lra].
Qed.

(** X6.  A range query on an index built from [pts], for points, a query
    point and a radius on the grid (where the source computes the squared
    distances and the squared radius without rounding), returns only
    inserted points, each within the radius, and no entry twice when the
    inserted entries are distinct; the size it reports is the number of
    entries, and the cursor starts on the first one. *)
Theorem range_query_sound (dim : nat) (pts : list (list Q * Z)) (q : list Q)
  (range : Q) :
  (0 < dim)%nat -> (dim <= 128)%nat ->
  Forall (fun p => length (fst p) = dim) pts ->
  length q = dim ->
  grid_points pts -> Forall on_grid q -> on_grid range ->
  let rset := kd_nearest_range (build dim pts) q range in
  kd_res_size rset = Z.of_nat (length (rlist rset)) /\
  riter rset = rlist rset /\
  (length (rlist rset) <= length pts)%nat /\
  (forall p, In p (res_points (rlist rset)) ->
     In p pts /\ dist_sq dim (fst p) q <= SQ range) /\
  (NoDup pts -> NoDup (res_points (rlist rset))).
Proof.
  intros Hdim _ Hlen _ _ _ _ rset.
  destruct (tree_inv_build dim pts Hdim (Forall_length_le dim pts Hlen))
    as (Hkd & _ & Hperm & _).
  rewrite (map_stored_id dim pts Hlen) in Hperm.
  destruct (kd_nearest_range_spec (build dim pts) q range)
    as (Hsize & Hiter & Hin & rest & Hrest).
  fold rset in Hsize, Hiter, Hin, Hrest. rewrite Hkd in Hin.
  assert (Hall : Permutation (res_points (rlist rset) ++ rest) pts)
    by (eapply Permutation_trans; eassumption).
  split; [exact Hsize|]. split; [exact Hiter|]. split; [|split].
  - apply Permutation_length in Hall. rewrite length_app in Hall.
    unfold res_points in Hall. rewrite length_map in Hall. lia.
  - intros p Hp. split; [|now apply Hin].
    apply (Permutation_in _ Hall). apply in_or_app. now left.
  - intro Hnd. apply (Permutation_NoDup (Permutation_sym Hall)) in Hnd.
    now apply NoDup_app_remove_r in Hnd.
Qed.

Lemma range_query_sound_witness :
  let rset := kd_nearest_range (build 2 nearest_tie_points) nearest_tie_query 2 in
  kd_res_size rset = Z.of_nat (length (rlist rset)) /\
  riter rset = rlist rset /\
  (length (rlist rset) <= length nearest_tie_points)%nat /\
  (forall p, In p (res_points (rlist rset)) ->
     In p nearest_tie_points /\ dist_sq 2 (fst p) nearest_tie_query <= SQ 2) /\
  (NoDup nearest_tie_points -> NoDup (res_points (rlist rset))).
Proof.
  apply (range_query_sound 2 nearest_tie_points nearest_tie_query 2).
  - lia.
  - lia.
  - repeat constructor.
  - reflexivity.
  - repeat constructor; apply on_grid_Z; simpl; lia.
  - repeat constructor; apply on_grid_Z; simpl; lia.
  - apply (on_grid_Z 2). simpl. lia.
Defined.

(** X7.  For points, a query point and a radius [range >= 0] on the grid
    (where the source computes the squared distances and the distance to a
    splitting plane without rounding), the range query returns every
    inserted point that is strictly closer to the query point than the
    radius. *)
Theorem range_query_complete_inside (dim : nat) (pts : list (list Q * Z))
  (q : list Q) (range : Q) (p : list Q * Z) :
  (0 < dim)%nat -> (dim <= 128)%nat ->
  Forall (fun p => length (fst p) = dim) pts ->
  length q = dim ->
  grid_points pts -> Forall on_grid q -> on_grid range ->
  0 <= range ->
  In p pts ->
  dist_sq dim (fst p) q < SQ range ->
  In p (res_points (rlist (kd_nearest_range (build dim pts) q range))).
Proof.
  intros Hdim _ Hlen _ _ _ _ Hrange Hp Hd.
  destruct (tree_inv_build dim pts Hdim (Forall_length_le dim pts Hlen))
    as (Hkd & Hord & Hperm & _).
  rewrite (map_stored_id dim pts Hlen) in Hperm.
  apply (Permutation_in _ (Permutation_sym Hperm)) in Hp.
  pose proof (find_nearest_complete (kd_root (build dim pts)) q range dim
                Hord Hrange [] p Hp Hd) as H.
  unfold kd_nearest_range. rewrite Hkd.
  destruct (find_nearest _ q range [] false dim) as [ret l]. exact H.
Qed.

Lemma range_query_complete_inside_witness :
  In ([10; 5], 1%Z)
     (res_points (rlist (kd_nearest_range (build 2 nearest_tie_points)
                           nearest_tie_query 2))).
Proof.
  apply (range_query_complete_inside 2 nearest_tie_points nearest_tie_query 2
           ([10; 5], 1%Z)).
  - lia.
  - lia.
  - repeat constructor.
  - reflexivity.
  - repeat constructor; apply on_grid_Z; simpl; lia.
  - repeat constructor; apply on_grid_Z; simpl; lia.
  - apply (on_grid_Z 2). simpl. lia.
  - vm_compute. discriminate.
  - right. now left.
  - vm_compute. reflexivity.
Defined.

(** X8.  Round trip, for points, a query point and a radius on the grid
    (where the source computes without rounding): with distinct inserted
    entries and a radius larger than the distance of every inserted point
    from the query point, the range query returns all the inserted points,
    each exactly once, and reports their number. *)
Theorem range_query_round_trip (dim : nat) (pts : list (list Q * Z))
  (q : list Q) (range : Q) :
  (0 < dim)%nat -> (dim <= 128)%nat ->
  Forall (fun p => length (fst p) = dim) pts ->
  length q = dim ->
  grid_points pts -> Forall on_grid q -> on_grid range ->
  NoDup pts ->
  0 <= range ->
  (forall p, In p pts -> dist_sq dim (fst p) q < SQ range) ->
  Permutation (res_points (rlist (kd_nearest_range (build dim pts) q range))) pts /\
  kd_res_size (kd_nearest_range (build dim pts) q range) = Z.of_nat (length pts).
Proof.
  intros Hdim _ Hlen _ _ _ _ Hnd Hrange Hall.
  destruct (kd_nearest_range_strict dim pts q range Hdim Hlen Hrange)
    as (Hsize & _ & Hsound & Hcomplete & _ & Hnd').
  assert (Hperm : Permutation
            (res_points (rlist (kd_nearest_range (build dim pts) q range))) pts).
  { apply NoDup_Permutation; [now apply Hnd'|exact Hnd|].
    intro p. split; intro Hp.
    - now apply Hsound.
    - apply Hcomplete; auto. }
  split; [exact Hperm|].
  rewrite Hsize. f_equal. apply Permutation_length in Hperm.
  unfold res_points in Hperm. now rewrite length_map in Hperm.
Qed.

Lemma range_query_round_trip_witness :
  Permutation
    (res_points (rlist (kd_nearest_range (build 2 nearest_tie_points)
                          nearest_tie_query 20)))
    nearest_tie_points /\
  kd_res_size (kd_nearest_range (build 2 nearest_tie_points) nearest_tie_query 20)
  = Z.of_nat (length nearest_tie_points).
Proof.
  apply (range_query_round_trip 2 nearest_tie_points nearest_tie_query 20).
  - lia.
  - lia.
  - repeat constructor.
  - reflexivity.
  - repeat constructor; apply on_grid_Z; simpl; lia.
  - repeat constructor; apply on_grid_Z; simpl; lia.
  - apply (on_grid_Z 20). simpl. lia.
  - repeat constructor; simpl; intuition discriminate.
  - vm_compute. discriminate.
  - intros p [<-|[<-|[<-|[]]]]; vm_compute; reflexivity.
Defined.





Lemma riter_iter_next (rset : kdres) (k : nat) :
  riter (Nat.iter k kd_res_next rset) = skipn k (riter rset).
Proof.
  induction k as [|k IH]; [reflexivity|].
  simpl. rewrite IH. clear IH.
  generalize (riter rset) as l. induction k as [|k IH]; intro l.
  - now destruct l.
  - destruct l as [|a l]; [reflexivity|]. simpl. apply IH.
Qed.

(** X10.  Walking a result set.  [kd_res_next] is called only while the
    cursor is on an entry, so that at most [size] calls are made.  After
    [k <= size] calls of [kd_res_next] on the result of a range query,
    [kd_res_end] holds exactly when [k = size]; while [k < size], the
    cursor is on entry [k] of the list, whose payload [kd_res_item_data]
    returns, and the next call of [kd_res_next] returns non-zero exactly
    when an entry is left after the move.  A walk of [size] steps therefore
    reads every entry once. *)
Theorem result_set_walk (kd : kdtree) (pos : list Q) (range : Q) (k : nat) :
  let rset := kd_nearest_range kd pos range in
  let at_k := Nat.iter k kd_res_next rset in
  (Z.of_nat k <= kd_res_size rset)%Z ->
  kd_res_end at_k = (kd_res_size rset =? Z.of_nat k)%Z /\
  ((Z.of_nat k < kd_res_size rset)%Z ->
   kd_res_next_ret at_k = (Z.of_nat k + 1 <? kd_res_size rset)%Z /\
   kd_res_item_data at_k
   = nth k (map snd (res_points (rlist rset))) 0%Z).
Proof.
  intros rset at_k Hbound.
  destruct (kd_nearest_range_spec kd pos range) as (Hsize & Hiter & _).
  fold rset in Hsize, Hiter.
  assert (Hend : forall j, kd_res_end (Nat.iter j kd_res_next rset)
                           = (kd_res_size rset <=? Z.of_nat j)%Z).
  { intro j. unfold kd_res_end. rewrite riter_iter_next, Hiter, Hsize.
    destruct (skipn j (rlist rset)) as [|e rest] eqn:E.
    - symmetry. apply Z.leb_le.
      assert (length (skipn j (rlist rset)) = 0%nat) by now rewrite E.
      rewrite length_skipn in H. lia.
    - symmetry. apply Z.leb_gt.
      assert (length (skipn j (rlist rset)) = S (length rest)) by now rewrite E.
      rewrite length_skipn in H. lia. }
  split.
  { unfold at_k. rewrite Hend.
    destruct (Z.leb_spec (kd_res_size rset) (Z.of_nat k));
      destruct (Z.eqb_spec (kd_res_size rset) (Z.of_nat k));
      try reflexivity; lia. }
  intro Hk. split.
  - unfold kd_res_next_ret, at_k.
    change (kd_res_next (Nat.iter k kd_res_next rset))
      with (Nat.iter (S k) kd_res_next rset).
    rewrite Hend.
    destruct (Z.leb_spec (kd_res_size rset) (Z.of_nat (S k)));
      destruct (Z.ltb_spec (Z.of_nat k + 1) (kd_res_size rset));
      try reflexivity; lia.
  - unfold kd_res_item_data, at_k.
    rewrite riter_iter_next, Hiter.
    assert (Hlt : (k < length (rlist rset))%nat) by lia.
    clear - Hlt. revert k Hlt.
    induction (rlist rset) as [|e l IH]; intros k Hlt; [simpl in Hlt; lia|].
    destruct k as [|k]; [reflexivity|].
    simpl. apply IH. simpl in Hlt. lia.
Qed.

Lemma result_set_walk_witness :
  let rset := kd_nearest_range (build 2 nearest_tie_points) nearest_tie_query 2 in
  let at_k := Nat.iter 1 kd_res_next rset in
  kd_res_end at_k = (kd_res_size rset =? Z.of_nat 1)%Z /\
  ((Z.of_nat 1 < kd_res_size rset)%Z ->
   kd_res_next_ret at_k = (Z.of_nat 1 + 1 <? kd_res_size rset)%Z /\
   kd_res_item_data at_k
   = nth 1 (map snd (res_points (rlist rset))) 0%Z).
Proof.
  apply (result_set_walk (build 2 nearest_tie_points) nearest_tie_query 2 1).
  vm_compute. discriminate.
Defined.

Lemma clear_rec_calls (t : kdnode) :
  Permutation (clear_rec t true) (map snd (points t)) /\ clear_rec t false = [].
Proof.
  induction t as [|p d dt l [IHl IHl'] r [IHr IHr']]; [split; constructor|].
  split.
  - simpl. rewrite map_app, IHl, IHr.
    rewrite app_assoc. rewrite <- Permutation_cons_append. apply Permutation_refl.
  - simpl. now rewrite IHl', IHr'.
Qed.

(** X11.  [kd_clear] hands the payload of every inserted point to the
    destructor exactly once, and calls nothing when no destructor is set;
    what it leaves is an index of the same dimension without a root and
    without a bounding region, on which a nearest-neighbour query finds
    nothing, a range query is empty and a second [kd_clear] calls nothing.
    [kd_free] makes the same destructor calls, and none on a null tree. *)
Theorem kd_clear_releases_all (dim : nat) (pts : list (list Q * Z)) (q : list Q)
  (range : Q) :
  (0 < dim)%nat ->
  Permutation (snd (kd_clear (build dim pts) true)) (map snd pts) /\
  snd (kd_clear (build dim pts) false) = [] /\
  kd_dim (fst (kd_clear (build dim pts) true)) = dim /\
  kd_root (fst (kd_clear (build dim pts) true)) = Null /\
  kd_rect (fst (kd_clear (build dim pts) true)) = None /\
  kd_nearest (fst (kd_clear (build dim pts) true)) q = None /\
  kd_res_size (kd_nearest_range (fst (kd_clear (build dim pts) true)) q range) = 0%Z /\
  snd (kd_clear (fst (kd_clear (build dim pts) true)) true) = [] /\
  Permutation (kd_free (Some (build dim pts)) true) (map snd pts) /\
  kd_free None true = [].
Proof.
  intros _.
  assert (Hd : forall l, kd_dim (build dim l) = dim).
  { intro l. induction l as [|a l IHl] using rev_ind; [reflexivity|].
    rewrite build_snoc. unfold kd_insert. now destruct (kd_rect (build dim l)). }
  assert (Hp : forall l, Permutation (points (kd_root (build dim l)))
                                     (map (stored dim) l)).
  { intro l. induction l as [|a l IHl] using rev_ind; [constructor|].
    rewrite build_snoc, map_app. simpl.
    assert (E : kd_root (kd_insert (build dim l) (fst a) (snd a))
                = insert_rec (kd_root (build dim l)) (fst a) (snd a) 0 dim).
    { unfold kd_insert. rewrite Hd. now destruct (kd_rect (build dim l)). }
    rewrite E, points_insert_rec, IHl.
    apply Permutation_cons_append. }
  assert (Hcalls : Permutation (clear_rec (kd_root (build dim pts)) true)
                               (map snd pts)).
  { rewrite (proj1 (clear_rec_calls _)), (Hp pts), map_map. simpl.
    apply Permutation_refl. }
  unfold kd_free, kd_clear. simpl. rewrite Hd.
  split; [exact Hcalls|]. split; [apply clear_rec_calls|].
  repeat (split; [reflexivity|]). split; [exact Hcalls|reflexivity].
Qed.

Lemma kd_clear_releases_all_witness :
  Permutation (snd (kd_clear (build 2 nearest_tie_points) true))
              (map snd nearest_tie_points) /\
  snd (kd_clear (build 2 nearest_tie_points) false) = [] /\
  kd_dim (fst (kd_clear (build 2 nearest_tie_points) true)) = 2%nat /\
  kd_root (fst (kd_clear (build 2 nearest_tie_points) true)) = Null /\
  kd_rect (fst (kd_clear (build 2 nearest_tie_points) true)) = None /\
  kd_nearest (fst (kd_clear (build 2 nearest_tie_points) true)) nearest_tie_query
  = None /\
  kd_res_size (kd_nearest_range (fst (kd_clear (build 2 nearest_tie_points) true))
                 nearest_tie_query 1) = 0%Z /\
  snd (kd_clear (fst (kd_clear (build 2 nearest_tie_points) true)) true) = [] /\
  Permutation (kd_free (Some (build 2 nearest_tie_points)) true)
              (map snd nearest_tie_points) /\
  kd_free None true = [].
Proof.
  apply (kd_clear_releases_all 2 nearest_tie_points nearest_tie_query 1). lia.
Defined.

(** ** Further properties of the peak utilities *)

Lemma for_loop_split {S : Type} (a b start : nat) (body : nat -> S -> S) (s : S) :
  for_loop (a + b) start body s
  = for_loop b (start + a) body (for_loop a start body s).
Proof.
  revert start s. induction a as [|a IH]; intros start s; simpl.
  - now rewrite Nat.add_0_r.
  - rewrite IH. f_equal. lia.
Qed.

Lemma transition_false_error (old new : status) :
  transition False old new -> (new = ERROR <-> old = ERROR).
Proof.
  intros [->|[[-> ->]|(_ & _ & [])]]; [tauto|split; discriminate].
Qed.

Lemma markDimmerPeaks_step_other (kd : kdtree) (x y h : list Q)
  (r_removal r_neighbors : Q) (i k : nat) (s : Z * list status) :
  i <> k ->
  transition False (sget (snd s) k)
    (sget (snd (markDimmerPeaks_step kd x y h r_removal r_neighbors i s)) k).
Proof.
  intro Hne. destruct s as [removed st]. unfold markDimmerPeaks_step.
  destruct (status_eqb (sget st i) ERROR); [apply transition_refl|].
  cbv zeta. destruct (_ <? 2)%Z; [apply transition_refl|].
  destruct (brighter_scan _ _ h i); [|apply transition_refl].
  simpl snd.
  eapply transition_trans; [|apply mark_neighbors_transition].
  unfold sget at 2. rewrite nth_upd_other by exact Hne. apply transition_refl.
Qed.

Lemma markLowSignificancePeaks_step_other (kd : kdtree) (x y sig : list Q)
  (min_sig r_neighbors : Q) (i k : nat) (s : Z * list status) :
  i <> k ->
  transition False (sget (snd s) k)
    (sget (snd (markLowSignificancePeaks_step kd x y sig min_sig r_neighbors i s)) k).
Proof.
  intro Hne. destruct s as [removed st]. unfold markLowSignificancePeaks_step.
  destruct (status_eqb (sget st i) ERROR); [apply transition_refl|].
  destruct (Qlt_bool min_sig (aget sig i)); [apply transition_refl|].
  simpl snd.
  eapply transition_trans; [|apply mark_neighbors_transition].
  unfold sget at 2. rewrite nth_upd_other by exact Hne. apply transition_refl.
Qed.

Lemma newly_error_snoc (st st' : list status) (m : nat) :
  newly_error st st' (S m)
  = newly_error st st' m
    ++ (if negb (status_eqb (sget st m) ERROR) && status_eqb (sget st' m) ERROR
        then [m] else []).
Proof.
  unfold newly_error. rewrite seq_S, filter_app. simpl.
  now destruct (negb _ && _).
Qed.

(** X12.  The number [markDimmerPeaks] returns is the number of peaks whose
    status it changed to [ERROR]. *)
Theorem markDimmerPeaks_count (x y h : list Q) (st : list status)
  (r_removal r_neighbors : Q) (np : nat) :
  (np <= length st)%nat ->
  fst (markDimmerPeaks x y h st r_removal r_neighbors np)
  = Z.of_nat (length (newly_error st
                        (snd (markDimmerPeaks x y h st r_removal r_neighbors np))
                        np)).
Proof.
  intro Hlen.
  destruct (markDimmerPeaks_marks x y h st r_removal r_neighbors np Hlen) as [HE HC].
  rewrite HC. f_equal. f_equal. unfold dimmer_marked, newly_error.
  apply filter_ext_in. intros k Hk. apply in_seq in Hk.
  destruct (status_eqb (sget st k) ERROR) eqn:E1; [reflexivity|]. simpl.
  apply status_eqb_neq in E1.
  destruct (is_dimmer x y h r_removal np k) eqn:E2.
  - symmetry. apply status_eqb_eq. apply HE; [lia|]. now right.
  - symmetry. apply status_eqb_neq. intro E. apply HE in E; [|lia].
    destruct E; congruence.
Qed.

Lemma markDimmerPeaks_count_witness :
  fst (markDimmerPeaks dim_x dim_y dim_h err_status 3 3 4)
  = Z.of_nat (length (newly_error err_status
                        (snd (markDimmerPeaks dim_x dim_y dim_h err_status 3 3 4))
                        4)).
Proof.
  apply (markDimmerPeaks_count dim_x dim_y dim_h err_status 3 3 4).
  simpl. lia.
Defined.

Lemma markDimmerPeaks_step_length (kd : kdtree) (x y h : list Q)
  (r_removal r_neighbors : Q) (i : nat) (s : Z * list status) :
  length (snd (markDimmerPeaks_step kd x y h r_removal r_neighbors i s))
  = length (snd s).
Proof.
  destruct s as [removed st]. unfold markDimmerPeaks_step.
  destruct (status_eqb (sget st i) ERROR); [reflexivity|].
  cbv zeta. destruct (_ <? 2)%Z; [reflexivity|].
  destruct (brighter_scan _ _ h i); [|reflexivity].
  simpl. now rewrite mark_neighbors_length, upd_length.
Qed.

Lemma markLowSignificancePeaks_step_length (kd : kdtree) (x y sig : list Q)
  (min_sig r_neighbors : Q) (i : nat) (s : Z * list status) :
  length (snd (markLowSignificancePeaks_step kd x y sig min_sig r_neighbors i s))
  = length (snd s).
Proof.
  destruct s as [removed st]. unfold markLowSignificancePeaks_step.
  destruct (status_eqb (sget st i) ERROR); [reflexivity|].
  destruct (Qlt_bool min_sig (aget sig i)); [reflexivity|].
  simpl. now rewrite mark_neighbors_length, upd_length.
Qed.

(** The shape shared by the two suppression loops: when the step of peak
    [i] suppresses it and wakes its converged neighbour [k], and the rule
    never applies to [k] itself, the whole loop leaves [i] in state [ERROR]
    and [k] in state [RUNNING]. *)
Lemma suppression_propagates (step : nat -> Z * list status -> Z * list status)
  (rule : nat -> Prop) (st : list status) (np i k : nat) :
  (forall m s j, (m < np)%nat ->
     transition (rule j) (sget (snd s) j) (sget (snd (step m s)) j)) ->
  (forall m s j, m <> j ->
     transition False (sget (snd s) j) (sget (snd (step m s)) j)) ->
  (forall m s, length (snd (step m s)) = length (snd s)) ->
  (forall s, length (snd s) = length st -> sget (snd s) i <> ERROR ->
     sget (snd (step i s)) i = ERROR /\
     (sget (snd s) k = CONVERGED -> sget (snd (step i s)) k = RUNNING)) ->
  (i < np)%nat -> ~ rule k ->
  sget st i <> ERROR -> sget st k = CONVERGED ->
  sget (snd (for_loop np 0 step (0%Z, st))) i = ERROR /\
  sget (snd (for_loop np 0 step (0%Z, st))) k = RUNNING.
Proof.
  intros Htr Hother Hlen Hstep Hi Hrule Hsti Hstk.
  assert (Hkeep : forall m s, (m < np)%nat ->
            sget (snd s) k = CONVERGED \/ sget (snd s) k = RUNNING ->
            sget (snd (step m s)) k = CONVERGED \/ sget (snd (step m s)) k = RUNNING).
  { intros m s Hm H.
    destruct (Htr m s k Hm) as [E|[[_ E]|(_ & _ & E)]];
      [rewrite E; exact H|now right|contradiction]. }
  assert (Hrun : forall m s, (m < np)%nat ->
            sget (snd s) k = RUNNING -> sget (snd (step m s)) k = RUNNING).
  { intros m s Hm H.
    destruct (Htr m s k Hm) as [E|[[E _]|(_ & _ & E)]];
      [congruence|congruence|contradiction]. }
  replace np with (i + S (np - S i))%nat by lia.
  rewrite for_loop_split. cbn [for_loop]. rewrite Nat.add_0_l.
  set (s_i := for_loop i 0 step (0%Z, st)).
  assert (Hpre : length (snd s_i) = length st /\ sget (snd s_i) i <> ERROR /\
                 (sget (snd s_i) k = CONVERGED \/ sget (snd s_i) k = RUNNING)).
  { pose (P := fun (_ : nat) (s : Z * list status) =>
        length (snd s) = length st /\ sget (snd s) i <> ERROR /\
        (sget (snd s) k = CONVERGED \/ sget (snd s) k = RUNNING)).
    apply (for_loop_inv P i 0).
    - unfold P. simpl. auto.
    - intros m s Hm (HL & HE & HK). unfold P.
      split; [now rewrite Hlen|]. split.
      + intro E. apply HE.
        apply (transition_false_error _ _ (Hother m s i ltac:(lia))). exact E.
      + apply Hkeep; [lia|exact HK]. }
  destruct Hpre as (HL & HE & HK).
  destruct (Hstep s_i HL HE) as [Herr Hwake].
  assert (Hrun_i : sget (snd (step i s_i)) k = RUNNING).
  { destruct HK as [HK|HK]; [now apply Hwake|now apply Hrun]. }
  pose (Q := fun (_ : nat) (s : Z * list status) =>
      sget (snd s) i = ERROR /\ sget (snd s) k = RUNNING).
  apply (for_loop_inv Q (np - S i) (S i)).
  - unfold Q. auto.
  - intros m s Hm [HE' HK']. unfold Q. split.
    + pose proof (Htr m s i ltac:(lia)) as T. rewrite HE' in T.
      now apply transition_error in T.
    + apply Hrun; [lia|exact HK'].
Qed.

Lemma markLowSignificancePeaks_step_strict (x y sig : list Q) (st : list status)
  (min_sig r_neighbors : Q) (np i : nat) (removed : Z) :
  (np <= length st)%nat -> (i < np)%nat -> 0 <= r_neighbors ->
  sget st i <> ERROR ->
  aget sig i <= min_sig ->
  let s' := markLowSignificancePeaks_step (createKDTree x y np) x y sig
              min_sig r_neighbors i (removed, st) in
  fst s' = (removed + 1)%Z /\
  sget (snd s') i = ERROR /\
  forall j, (j < np)%nat -> j <> i ->
    query_dist_sq x y j x y i < SQ r_neighbors ->
    sget st j = CONVERGED ->
    sget (snd s') j = RUNNING.
Proof.
  intros Hlen Hi Hrn Hst Hsig.
  unfold markLowSignificancePeaks_step.
  replace (status_eqb (sget st i) ERROR) with false
    by (symmetry; now apply status_eqb_neq).
  replace (Qlt_bool min_sig (aget sig i)) with false
    by (symmetry; now apply Qlt_bool_false).
  cbv zeta. cbn [fst snd].
  split; [reflexivity|]. split.
  - apply mark_neighbors_error. unfold sget. apply nth_upd_same. lia.
  - intros j Hj Hji Hdj Hcj.
    unfold mark_neighbors.
    destruct (kd_nearest_range_spec (createKDTree x y np)
                [aget x i; aget y i] r_neighbors) as (Hsize & Hiter & _).
    rewrite mark_neighbors_loop by (rewrite Hsize, Nat2Z.id, Hiter; lia).
    rewrite Hsize, Nat2Z.id, Hiter, firstn_all.
    pose proof (kd_nearest_range_complete x y np [aget x i; aget y i]
                  r_neighbors j Hrn Hj Hdj) as Hin.
    unfold res_points in Hin. apply in_map_iff in Hin as (e & Ee & He).
    injection Ee as _ Edata.
    assert (Ek : Z.to_nat (node_data (item e)) = j) by lia.
    rewrite <- Ek.
    apply mark_entries_complete; [exact He| |].
    + rewrite upd_length, Ek. lia.
    + rewrite Ek. unfold sget. rewrite nth_upd_other by congruence. exact Hcj.
Qed.

(** X13.  Suppression by [markDimmerPeaks] and its effect on a neighbour,
    for peak positions and radii on the grid (where the range queries of
    the source compute without rounding): a peak [i] that is not in state
    [ERROR] and has a strictly brighter peak [j] strictly closer than
    [r_removal] ends in state [ERROR], and a converged peak [k] strictly
    closer than [r_neighbors] to [i] that has no brighter peak within
    [r_removal] of itself ends in state [RUNNING]. *)
Theorem markDimmerPeaks_wakes_neighbor (x y h : list Q) (st : list status)
  (r_removal r_neighbors : Q) (np i j k : nat) :
  (np <= length st)%nat ->
  grid_peaks x y np -> on_grid r_removal -> on_grid r_neighbors ->
  0 <= r_removal -> 0 <= r_neighbors ->
  (i < np)%nat -> (j < np)%nat -> (k < np)%nat -> k <> i ->
  sget st i <> ERROR ->
  query_dist_sq x y j x y i < SQ r_removal ->
  aget h i < aget h j ->
  sget st k = CONVERGED ->
  query_dist_sq x y k x y i < SQ r_neighbors ->
  (forall m, (m < np)%nat ->
     query_dist_sq x y m x y k <= SQ r_removal -> aget h m <= aget h k) ->
  let st' := snd (markDimmerPeaks x y h st r_removal r_neighbors np) in
  sget st' i = ERROR /\ sget st' k = RUNNING.
Proof.
  intros Hlen _ _ _ Hr Hrn Hi Hj Hk Hki Hsti Hdj Hhj Hstk Hdk Hbright. cbv zeta.
  unfold markDimmerPeaks.
  apply (suppression_propagates _ (dimmer_rule x y h r_removal np)).
  - intros m s j' Hm. now apply markDimmerPeaks_step_transition.
  - intros m s j' Hne. now apply markDimmerPeaks_step_other.
  - intros m s. apply markDimmerPeaks_step_length.
  - intros [removed s] HL HE. simpl in HL, HE.
    destruct (markDimmerPeaks_step_strict x y h s r_removal r_neighbors np i j
                removed ltac:(lia) Hi Hj Hr Hrn HE Hdj Hhj) as (_ & E1 & E2).
    split; [exact E1|]. intro Hc. now apply E2.
  - exact Hi.
  - intros (_ & m & Hm & Hlt & Hd). specialize (Hbright m Hm Hd). lra.
  - exact Hsti.
  - exact Hstk.
Qed.

Lemma markDimmerPeaks_wakes_neighbor_witness :
  sget (snd (markDimmerPeaks near_x near_y near_h near_status 2 3 3)) 1 = ERROR /\
  sget (snd (markDimmerPeaks near_x near_y near_h near_status 2 3 3)) 0 = RUNNING.
Proof.
  apply (markDimmerPeaks_wakes_neighbor near_x near_y near_h near_status 2 3 3 1 0 0).
  - simpl. lia.
  - intros m Hm. destruct m as [|[|[|m]]]; [..|lia];
      (split; apply on_grid_Z; simpl; lia).
  - apply (on_grid_Z 2). simpl. lia.
  - apply (on_grid_Z 3). simpl. lia.
  - vm_compute. congruence.
  - vm_compute. congruence.
  - lia.
  - lia.
  - lia.
  - lia.
  - vm_compute. congruence.
  - vm_compute. congruence.
  - vm_compute. congruence.
  - vm_compute. congruence.
  - vm_compute. congruence.
  - intros m Hm _. destruct m as [|[|[|m]]]; [vm_compute; congruence..|lia].
Defined.

(** X14.  [markLowSignificancePeaks] leaves a peak in state [ERROR] exactly
    when it was in that state at the call or its significance is not above
    [min_sig]; it keeps the length of the status array, and the number it
    returns is the number of peaks whose status it changed to [ERROR]. *)
Theorem markLowSignificancePeaks_marks (x y sig : list Q) (st : list status)
  (min_sig r_neighbors : Q) (np : nat) :
  (np <= length st)%nat ->
  let r := markLowSignificancePeaks x y sig st min_sig r_neighbors np in
  (forall k, (k < np)%nat ->
     (sget (snd r) k = ERROR <-> sget st k = ERROR \/ aget sig k <= min_sig)) /\
  length (snd r) = length st /\
  fst r = Z.of_nat (length (newly_error st (snd r) np)).
Proof.
  intro Hlen. cbv zeta. unfold markLowSignificancePeaks.
  pose (low := fun k => negb (status_eqb (sget st k) ERROR)
                        && negb (Qlt_bool min_sig (aget sig k))).
  pose (P := fun (m : nat) (s : Z * list status) =>
    length (snd s) = length st /\
    (forall k, sget (snd s) k = ERROR <->
               sget st k = ERROR \/ ((k < m)%nat /\ aget sig k <= min_sig)) /\
    fst s = Z.of_nat (length (filter low (seq 0 m)))).
  assert (HP : P (0 + np)%nat
                 (for_loop np 0
                    (markLowSignificancePeaks_step (createKDTree x y np) x y sig
                       min_sig r_neighbors) (0%Z, st))).
  { apply for_loop_inv.
    - split; [reflexivity|]. split; [|reflexivity].
      intro k. simpl. split; [tauto|]. intros [E|[E _]]; [exact E|lia].
    - intros m [removed s] Hm (HL & HE & HC). simpl in HL, HE, HC.
      assert (Hseq : filter low (seq 0 (S m))
                     = filter low (seq 0 m) ++ (if low m then [m] else [])).
      { rewrite seq_S, filter_app. simpl. now destruct (low m). }
      assert (Hm_err : sget s m = ERROR <-> sget st m = ERROR).
      { rewrite HE. split; [|tauto]. intros [E|[E _]]; [exact E|lia]. }
      unfold P, markLowSignificancePeaks_step.
      rewrite Hseq, length_app, Nat2Z.inj_add, <- HC. unfold low at 1.
      destruct (status_eqb (sget s m) ERROR) eqn:Eerr.
      + apply status_eqb_eq in Eerr. apply Hm_err in Eerr.
        cbn [fst snd]. split; [exact HL|]. split.
        * intro k. rewrite HE. split;
            [intros [E|[E1 E2]]; [tauto|right; split; [lia|exact E2]]|].
          intros [E|[E1 E2]]; [tauto|].
          destruct (Nat.eq_dec k m) as [->|Hne]; [tauto|right; split; [lia|exact E2]].
        * apply status_eqb_eq in Eerr. rewrite Eerr. simpl. lia.
      + apply status_eqb_neq in Eerr.
        assert (Est : status_eqb (sget st m) ERROR = false)
          by (apply status_eqb_neq; intro E; apply Eerr; now apply Hm_err).
        rewrite Est. cbn [negb andb].
        destruct (Qlt_bool min_sig (aget sig m)) eqn:Esig; cbn [fst snd negb].
        * apply Qlt_bool_true in Esig.
          split; [exact HL|]. split.
          -- intro k. rewrite HE. split.
             ++ intros [E|[E1 E2]]; [tauto|right; split; [lia|exact E2]].
             ++ intros [E|[E1 E2]]; [tauto|].
                destruct (Nat.eq_dec k m) as [->|Hne]; [lra|].
                right. split; [lia|exact E2].
          -- simpl. lia.
        * apply Qlt_bool_false in Esig.
          split; [now rewrite mark_neighbors_length, upd_length|]. split.
          -- intro k. rewrite mark_neighbors_error, sget_upd_error by lia.
             rewrite HE. split.
             ++ intros [->|[E|[E1 E2]]]; [right; split; [lia|exact Esig]|tauto|].
                right. split; [lia|exact E2].
             ++ intros [E|[E1 E2]]; [tauto|].
                destruct (Nat.eq_dec k m) as [->|Hne]; [tauto|].
                right. right. split; [lia|exact E2].
          -- simpl. lia. }
  destruct HP as (HL & HE & HC).
  assert (HE' : forall k, (k < np)%nat ->
            (sget (snd (for_loop np 0
                          (markLowSignificancePeaks_step (createKDTree x y np) x y sig
                             min_sig r_neighbors) (0%Z, st))) k = ERROR <->
             sget st k = ERROR \/ aget sig k <= min_sig)).
  { intros k Hk. rewrite HE. simpl. split; [|tauto]. intros [E|[_ E]]; tauto. }
  split; [exact HE'|]. split; [exact HL|].
  rewrite HC. f_equal. f_equal. unfold newly_error.
  apply filter_ext_in. intros k Hk. apply in_seq in Hk. unfold low.
  destruct (status_eqb (sget st k) ERROR) eqn:E1; [reflexivity|]. simpl.
  apply status_eqb_neq in E1.
  destruct (Qlt_bool min_sig (aget sig k)) eqn:E2; simpl; symmetry.
  - apply Qlt_bool_true in E2. apply status_eqb_neq. intro E.
    apply HE' in E; [|lia]. destruct E; [congruence|lra].
  - apply Qlt_bool_false in E2. apply status_eqb_eq. apply HE'; [lia|]. now right.
Qed.

Lemma markLowSignificancePeaks_marks_witness :
  (forall k, (k < 3)%nat ->
     (sget (snd (markLowSignificancePeaks near_x near_y near_sig near_status 4 3 3)) k
      = ERROR <->
      sget near_status k = ERROR \/ aget near_sig k <= 4)) /\
  length (snd (markLowSignificancePeaks near_x near_y near_sig near_status 4 3 3))
  = length near_status /\
  fst (markLowSignificancePeaks near_x near_y near_sig near_status 4 3 3)
  = Z.of_nat (length (newly_error near_status
       (snd (markLowSignificancePeaks near_x near_y near_sig near_status 4 3 3)) 3)).
Proof.
  apply (markLowSignificancePeaks_marks near_x near_y near_sig near_status 4 3 3).
  simpl. lia.
Defined.

(** X15.  Suppression by [markLowSignificancePeaks] and its effect on a
    neighbour, for peak positions and a radius on the grid (where the range
    query of the source computes without rounding): a peak [i] that is not
    in state [ERROR] and whose significance is not above [min_sig] ends in
    state [ERROR], and a converged peak [k] of significance above [min_sig]
    strictly closer than [r_neighbors] to [i] ends in state [RUNNING]. *)
Theorem markLowSignificancePeaks_wakes_neighbor (x y sig : list Q)
  (st : list status) (min_sig r_neighbors : Q) (np i k : nat) :
  (np <= length st)%nat ->
  grid_peaks x y np -> on_grid r_neighbors ->
  0 <= r_neighbors ->
  (i < np)%nat -> (k < np)%nat -> k <> i ->
  sget st i <> ERROR ->
  aget sig i <= min_sig ->
  sget st k = CONVERGED ->
  min_sig < aget sig k ->
  query_dist_sq x y k x y i < SQ r_neighbors ->
  let st' := snd (markLowSignificancePeaks x y sig st min_sig r_neighbors np) in
  sget st' i = ERROR /\ sget st' k = RUNNING.
Proof.
  intros Hlen _ _ Hrn Hi Hk Hki Hsti Hsig Hstk Hsigk Hdk. cbv zeta.
  unfold markLowSignificancePeaks.
  apply (suppression_propagates _ (low_significance_rule sig min_sig np)).
  - intros m s j' Hm. now apply markLowSignificancePeaks_step_transition.
  - intros m s j' Hne. now apply markLowSignificancePeaks_step_other.
  - intros m s. apply markLowSignificancePeaks_step_length.
  - intros [removed s] HL HE. simpl in HL, HE.
    destruct (markLowSignificancePeaks_step_strict x y sig s min_sig r_neighbors
                np i removed ltac:(lia) Hi Hrn HE Hsig) as (_ & E1 & E2).
    split; [exact E1|]. intro Hc. now apply E2.
  - exact Hi.
  - intros (_ & Hle). lra.
  - exact Hsti.
  - exact Hstk.
Qed.

Lemma markLowSignificancePeaks_wakes_neighbor_witness :
  sget (snd (markLowSignificancePeaks near_x near_y near_sig near_status 4 3 3)) 1
  = ERROR /\
  sget (snd (markLowSignificancePeaks near_x near_y near_sig near_status 4 3 3)) 0
  = RUNNING.
Proof.
  apply (markLowSignificancePeaks_wakes_neighbor near_x near_y near_sig
           near_status 4 3 3 1 0).
  - simpl. lia.
  - intros m Hm. destruct m as [|[|[|m]]]; [..|lia];
      (split; apply on_grid_Z; simpl; lia).
  - apply (on_grid_Z 3). simpl. lia.
  - vm_compute. congruence.
  - lia.
  - lia.
  - lia.
  - vm_compute. congruence.
  - vm_compute. congruence.
  - vm_compute. congruence.
  - vm_compute. congruence.
  - vm_compute. congruence.
Defined.

(** X16.  [createKDTree] builds a two-dimensional index that holds, for
    each [i] below [n], the point [(x[i], y[i])] with payload [i], each
    once and nothing else, and in which the same peaks inserted one by one
    into an empty index would result. *)
Theorem createKDTree_contents (x y : list Q) (n : nat) :
  createKDTree x y n = build 2 (peak_points x y n) /\
  kd_dim (createKDTree x y n) = 2%nat /\
  Permutation (points (kd_root (createKDTree x y n))) (peak_points x y n) /\
  length (points (kd_root (createKDTree x y n))) = n /\
  (forall i, (i < n)%nat ->
     In ([aget x i; aget y i], Z.of_nat i) (points (kd_root (createKDTree x y n)))) /\
  kd_ordered 2 (kd_root (createKDTree x y n)).
Proof.
  destruct (tree_inv_createKDTree x y n) as (Hdim & Hord & Hperm & _).
  assert (Hlen : Forall (fun p : list Q * Z => length (fst p) = 2%nat)
                        (peak_points x y n)).
  { apply Forall_forall. intros p Hp.
    apply in_map_iff in Hp as (i & <- & _). reflexivity. }
  rewrite (map_stored_id 2 _ Hlen) in Hperm.
  split; [apply createKDTree_build|]. split; [exact Hdim|].
  split; [exact Hperm|]. split; [|split; [|exact Hord]].
  - rewrite (Permutation_length Hperm). unfold peak_points.
    now rewrite length_map, length_seq.
  - intros i Hi. apply points_createKDTree. now exists i.
Qed.

Lemma runningIfHasNeighbors_length (c_x c_y n_x n_y : list Q) (st : list status)
  (radius : Q) (nc nn : nat) :
  length (runningIfHasNeighbors c_x c_y n_x n_y st radius nc nn) = length st.
Proof.
  unfold runningIfHasNeighbors.
  pose (P := fun (_ : nat) (s : list status) => length s = length st).
  apply (for_loop_inv P nc 0); [reflexivity|].
  intros m s _ HP. unfold P in *.
  destruct (_ || _); [exact HP|].
  destruct (0 <? _)%Z; [now rewrite upd_length|exact HP].
Qed.

(** X17.  [runningIfHasNeighbors], for peak positions and a radius on the
    grid (where the range query of the source computes without rounding),
    keeps the length of the status array and changes no peak that is not
    [CONVERGED] and no peak at or beyond [nc]; a converged current peak
    with a new peak strictly closer than [radius] becomes [RUNNING], and
    one whose new peaks are all farther than [radius] stays [CONVERGED]. *)
Theorem runningIfHasNeighbors_effect (c_x c_y n_x n_y : list Q) (st : list status)
  (radius : Q) (nc nn : nat) :
  (nc <= length st)%nat ->
  grid_peaks c_x c_y nc -> grid_peaks n_x n_y nn -> on_grid radius ->
  0 <= radius ->
  let st' := runningIfHasNeighbors c_x c_y n_x n_y st radius nc nn in
  length st' = length st /\
  (forall i, sget st i <> CONVERGED \/ (nc <= i)%nat -> sget st' i = sget st i) /\
  (forall i, (i < nc)%nat -> sget st i = CONVERGED ->
     ((exists k, (k < nn)%nat /\
                 query_dist_sq n_x n_y k c_x c_y i < SQ radius) ->
      sget st' i = RUNNING) /\
     ((forall k, (k < nn)%nat ->
                 SQ radius < query_dist_sq n_x n_y k c_x c_y i) ->
      sget st' i = CONVERGED)).
Proof.
  intros Hlen _ _ _ Hr. cbv zeta.
  split; [apply runningIfHasNeighbors_length|]. split.
  - intros i Hi. rewrite runningIfHasNeighbors_status by exact Hlen.
    destruct (i <? nc)%nat eqn:E; [|reflexivity].
    destruct Hi as [Hi|Hi]; [|apply Nat.ltb_lt in E; lia].
    unfold running_status. destruct (sget st i); simpl; congruence.
  - intros i Hi Hst. split.
    + intros (k & Hk & Hd).
      now apply (runningIfHasNeighbors_strict c_x c_y n_x n_y st radius nc nn i k).
    + intro Hfar. rewrite runningIfHasNeighbors_status by exact Hlen.
      replace (i <? nc)%nat with true by (symmetry; apply Nat.ltb_lt; lia).
      unfold running_status. rewrite Hst. simpl.
      destruct (kd_nearest_range_spec (createKDTree n_x n_y nn)
                  [aget c_x i; aget c_y i] radius) as (Hsize & _).
      rewrite Hsize.
      destruct (rlist (kd_nearest_range (createKDTree n_x n_y nn)
                         [aget c_x i; aget c_y i] radius)) as [|e rest] eqn:Er;
        [reflexivity|].
      exfalso.
      destruct (kd_nearest_range_sound n_x n_y nn [aget c_x i; aget c_y i] radius e)
        as (k & Hk & _ & _ & Hd); [rewrite Er; now left|].
      specialize (Hfar k Hk). unfold query_dist_sq in Hfar. lra.
Qed.

Lemma runningIfHasNeighbors_effect_witness :
  let st' := runningIfHasNeighbors near_x near_y [0] [1] near_status 2 3 1 in
  length st' = length near_status /\
  (forall i, sget near_status i <> CONVERGED \/ (3 <= i)%nat ->
     sget st' i = sget near_status i) /\
  (forall i, (i < 3)%nat -> sget near_status i = CONVERGED ->
     ((exists k, (k < 1)%nat /\
                 query_dist_sq [0] [1] k near_x near_y i < SQ 2) ->
      sget st' i = RUNNING) /\
     ((forall k, (k < 1)%nat ->
                 SQ 2 < query_dist_sq [0] [1] k near_x near_y i) ->
      sget st' i = CONVERGED)).
Proof.
  apply (runningIfHasNeighbors_effect near_x near_y [0] [1] near_status 2 3 1).
  - simpl. lia.
  - intros m Hm. destruct m as [|[|[|m]]]; [..|lia];
      (split; apply on_grid_Z; simpl; lia).
  - intros m Hm. destruct m as [|m]; [|lia].
    split; apply on_grid_Z; simpl; lia.
  - apply (on_grid_Z 2). simpl. lia.
  - vm_compute. congruence.
Defined.

Lemma nearestKDTree_frame (kd : kdtree) (x y : list Q) (dist : list dval)
  (index : list Z) (radius : Q) (n : nat) :
  length (fst (nearestKDTree kd x y dist index radius n)) = length dist /\
  length (snd (nearestKDTree kd x y dist index radius n)) = length index /\
  forall i, (n <= i)%nat ->
    nth i (fst (nearestKDTree kd x y dist index radius n)) (Dlit 0)
    = nth i dist (Dlit 0) /\
    nth i (snd (nearestKDTree kd x y dist index radius n)) 0%Z
    = nth i index 0%Z.
Proof.
  unfold nearestKDTree.
  pose (P := fun (m : nat) (s : list dval * list Z) =>
    length (fst s) = length dist /\ length (snd s) = length index /\
    forall i, (m <= i)%nat ->
      nth i (fst s) (Dlit 0) = nth i dist (Dlit 0) /\
      nth i (snd s) 0%Z = nth i index 0%Z).
  match goal with |- context [for_loop n 0 ?b (dist, index)] =>
    assert (HP : P (0 + n)%nat (for_loop n 0 b (dist, index))) end.
  { apply for_loop_inv.
    - split; [reflexivity|]. split; [reflexivity|]. intros i _. split; reflexivity.
    - intros m [d ix] Hm (HL1 & HL2 & Hrest). simpl in HL1, HL2, Hrest.
      assert (Hstep : forall v k, P (S m) (upd m v d, upd m k ix)).
      { intros v k. split; [simpl; now rewrite upd_length|].
        split; [simpl; now rewrite upd_length|].
        intros i Hi. simpl. rewrite !nth_upd_other by lia. apply Hrest. lia. }
      destruct (nearest_scan _ (aget x m) (aget y m) _ _) as [[set' min_dd] min_i].
      destruct (0 <=? min_i)%Z; apply Hstep. }
  exact HP.
Qed.

(** X18.  [nearestKDTree], for index points, query points and a radius on
    the grid (where the source computes the squared distances without
    rounding, and the sum [radius * radius + 0.1] is above the squared
    distance of every point the range query returns), keeps the lengths of
    [dist] and [index] and writes only their first [n] entries.  For a
    query point with no index point within [radius] it reports distance -1
    and index -1; for one with an index point strictly closer than
    [radius] it reports an index point of least distance among all index
    points, and that distance. *)
Theorem nearestKDTree_reports (ix iy : list Q) (n_index : nat) (x y : list Q)
  (dist : list dval) (index : list Z) (radius : Q) (n : nat) :
  (n <= length dist)%nat -> (n <= length index)%nat ->
  grid_peaks ix iy n_index -> grid_peaks x y n -> on_grid radius ->
  0 <= radius ->
  let r := nearestKDTree (createKDTree ix iy n_index) x y dist index radius n in
  length (fst r) = length dist /\ length (snd r) = length index /\
  (forall i, (n <= i)%nat ->
     nth i (fst r) (Dlit 0) = nth i dist (Dlit 0) /\
     nth i (snd r) 0%Z = nth i index 0%Z) /\
  (forall i, (i < n)%nat ->
     ((forall k, (k < n_index)%nat -> SQ radius < query_dist_sq ix iy k x y i) ->
      nth i (fst r) (Dlit 0) = Dlit (-1) /\ nth i (snd r) 0%Z = (-1)%Z) /\
     ((exists k, (k < n_index)%nat /\ query_dist_sq ix iy k x y i < SQ radius) ->
      exists j dd, (j < n_index)%nat /\
        nth i (snd r) 0%Z = Z.of_nat j /\
        nth i (fst r) (Dlit 0) = Dsqrt dd /\
        dd == query_dist_sq ix iy j x y i /\
        forall k', (k' < n_index)%nat -> dd <= query_dist_sq ix iy k' x y i)).
Proof.
  intros Hd Hx _ _ _ Hr. cbv zeta.
  destruct (nearestKDTree_frame (createKDTree ix iy n_index) x y dist index radius n)
    as (HL1 & HL2 & Hframe).
  split; [exact HL1|]. split; [exact HL2|]. split; [exact Hframe|].
  intros i Hi.
  destruct (nearestKDTree_entries (createKDTree ix iy n_index) x y dist index
              radius n i Hd Hx Hi) as [E1 E2].
  rewrite E1, E2. split.
  - intro Hfar. now rewrite (nearest_entry_none ix iy n_index x y radius i Hfar).
  - intros (k & Hk & Hdk).
    destruct (nearest_entry_some ix iy n_index x y radius i k Hr Hk Hdk)
      as (j & dd & Hj & E & Hdd & Hmin).
    exists j, dd. rewrite E. cbn [fst snd].
    split; [exact Hj|]. split; [reflexivity|]. split; [reflexivity|].
    split; [exact Hdd|].
    intros k' Hk'.
    destruct (Qlt_le_dec (SQ radius) (query_dist_sq ix iy k' x y i)) as [Hgt|Hle].
    + specialize (Hmin k Hk ltac:(lra)). lra.
    + now apply Hmin.
Qed.

Lemma nearestKDTree_reports_witness :
  let r := nearestKDTree (createKDTree near_x near_y 3) [0; 20] [1; 0]
             [Dlit 0; Dlit 0; Dlit 7] [0; 0; 7]%Z 2 2 in
  length (fst r) = 3%nat /\ length (snd r) = 3%nat /\
  (forall i, (2 <= i)%nat ->
     nth i (fst r) (Dlit 0) = nth i [Dlit 0; Dlit 0; Dlit 7] (Dlit 0) /\
     nth i (snd r) 0%Z = nth i [0; 0; 7]%Z 0%Z) /\
  (forall i, (i < 2)%nat ->
     ((forall k, (k < 3)%nat ->
         SQ 2 < query_dist_sq near_x near_y k [0; 20] [1; 0] i) ->
      nth i (fst r) (Dlit 0) = Dlit (-1) /\ nth i (snd r) 0%Z = (-1)%Z) /\
     ((exists k, (k < 3)%nat /\
         query_dist_sq near_x near_y k [0; 20] [1; 0] i < SQ 2) ->
      exists j dd, (j < 3)%nat /\
        nth i (snd r) 0%Z = Z.of_nat j /\
        nth i (fst r) (Dlit 0) = Dsqrt dd /\
        dd == query_dist_sq near_x near_y j [0; 20] [1; 0] i /\
        forall k', (k' < 3)%nat ->
          dd <= query_dist_sq near_x near_y k' [0; 20] [1; 0] i)).
Proof.
  apply (nearestKDTree_reports near_x near_y 3 [0; 20] [1; 0]
           [Dlit 0; Dlit 0; Dlit 7] [0; 0; 7]%Z 2 2).
  - simpl. lia.
  - simpl. lia.
  - intros m Hm. destruct m as [|[|[|m]]]; [..|lia];
      (split; apply on_grid_Z; simpl; lia).
  - intros m Hm. destruct m as [|[|m]]; [..|lia];
      (split; apply on_grid_Z; simpl; lia).
  - apply (on_grid_Z 2). simpl. lia.
  - vm_compute. congruence.
Defined.

(** ** Further properties of the local maxima scanner *)

Lemma In_zrange (s e k : Z) : In k (zrange s e) <-> (s <= k <= e)%Z.
Proof.
  unfold zrange. rewrite in_map_iff. split.
  - intros (j & <- & Hj). apply in_seq in Hj. lia.
  - intro Hk. exists (Z.to_nat (k - s)). split; [lia|]. apply in_seq. lia.
Qed.

(** X19.  For a radius on the grid (whose square the source computes
    without rounding, and converts to an [int] within its range),
    [isLocalMaxima] returns 1 exactly when no pixel of the search region
    within the disk of squared radius [(int)(radius * radius)] around the
    candidate beats it: a pixel at or below the candidate in both [y] and
    [x] must not be strictly brighter than [cur], any other pixel of the
    disk must be strictly dimmer. *)
Theorem isLocalMaxima_iff (flm : flmData) (cur : Q)
  (sz ez sy cy ey sx cx ex : Z) :
  on_grid (radius flm) ->
  isLocalMaxima flm cur sz ez sy cy ey sx cx ex = true <->
  forall zi yi xi,
    (sz <= zi <= ez)%Z -> (sy <= yi <= ey)%Z -> (sx <= xi <= ex)%Z ->
    ((xi - cx) * (xi - cx) + (yi - cy) * (yi - cy)
     <= trunc (radius flm * radius flm))%Z ->
    if (yi <=? cy)%Z && (xi <=? cx)%Z
    then pixel (images flm) (xsize flm) zi yi xi <= cur
    else pixel (images flm) (xsize flm) zi yi xi < cur.
Proof.
  intros _. unfold isLocalMaxima. split.
  - intros H zi yi xi Hz Hy Hx Hd.
    rewrite forallb_forall in H. specialize (H zi (proj2 (In_zrange _ _ _) Hz)).
    rewrite forallb_forall in H. specialize (H yi (proj2 (In_zrange _ _ _) Hy)).
    rewrite forallb_forall in H. specialize (H xi (proj2 (In_zrange _ _ _) Hx)).
    apply negb_true_iff in H. unfold disqualifies in H. cbv zeta in H.
    replace (_ <=? trunc (radius flm * radius flm))%Z with true in H
      by (symmetry; now apply Z.leb_le).
    destruct ((yi <=? cy)%Z && (xi <=? cx)%Z).
    + now apply Qlt_bool_false.
    + now apply Qle_bool_false.
  - intro H.
    apply forallb_forall. intros zi Hz. apply In_zrange in Hz.
    apply forallb_forall. intros yi Hy. apply In_zrange in Hy.
    apply forallb_forall. intros xi Hx. apply In_zrange in Hx.
    apply negb_true_iff. unfold disqualifies. cbv zeta.
    destruct (_ <=? trunc (radius flm * radius flm))%Z eqn:Hd; [|reflexivity].
    apply Z.leb_le in Hd. specialize (H zi yi xi Hz Hy Hx Hd).
    destruct ((yi <=? cy)%Z && (xi <=? cx)%Z).
    + now apply Qlt_bool_false.
    + now apply Qle_bool_false.
Qed.

Lemma isLocalMaxima_iff_witness :
  isLocalMaxima antidiagonal 5 0 0 0 0 1 0 1 1 = true <->
  forall zi yi xi,
    (0 <= zi <= 0)%Z -> (0 <= yi <= 1)%Z -> (0 <= xi <= 1)%Z ->
    ((xi - 1) * (xi - 1) + (yi - 0) * (yi - 0)
     <= trunc (radius antidiagonal * radius antidiagonal))%Z ->
    if (yi <=? 0)%Z && (xi <=? 1)%Z
    then pixel (images antidiagonal) (xsize antidiagonal) zi yi xi <= 5
    else pixel (images antidiagonal) (xsize antidiagonal) zi yi xi < 5.
Proof.
  apply (isLocalMaxima_iff antidiagonal 5 0 0 0 0 1 0 1 1).
  apply (on_grid_Z 2). simpl. lia.
Defined.

Lemma for_z_mono (body : Z -> Z -> Z) :
  (forall i c, (c <= body i c)%Z) ->
  forall n start c, (c <= for_z n start body c)%Z.
Proof.
  intros Hb n. induction n as [|n IH]; intros start c; simpl; [lia|].
  specialize (IH (start + 1)%Z (body start c)). specialize (Hb start c). lia.
Qed.

Lemma counted_weaken (R R' : scan -> Z -> Prop) (k : ctl) (c : Z) :
  (forall s c', R s c' -> R' s c') -> counted R k c -> counted R' k c.
Proof. intros H. destruct k; simpl; auto. Qed.

(** A scan loop and a counting loop over the same indices stay related. *)
Lemma for_ctl_for_z (R : Z -> scan -> Z -> Prop)
  (bodyc : Z -> scan -> ctl) (bodyz : Z -> Z -> Z) :
  (forall i c, (c <= bodyz i c)%Z) ->
  forall n start s c,
    (forall i s' c', (start <= i < start + Z.of_nat n)%Z -> R i s' c' ->
       counted (R (i + 1)%Z) (bodyc i s') (bodyz i c')) ->
    R start s c ->
    counted (R (start + Z.of_nat n)%Z)
      (for_ctl n start bodyc s) (for_z n start bodyz c).
Proof.
  intros Hmono n. induction n as [|n IH]; intros start s c Hstep H0.
  - simpl. now rewrite Z.add_0_r.
  - cbn [for_ctl for_z].
    pose proof (Hstep start s c ltac:(lia) H0) as Hb.
    destruct (bodyc start s) as [s'|s']; simpl in Hb.
    + replace (start + Z.of_nat (S n))%Z with (start + 1 + Z.of_nat n)%Z by lia.
      apply IH; [|exact Hb].
      intros i s'' c' Hi. apply Hstep. lia.
    + simpl. pose proof (for_z_mono bodyz Hmono n (start + 1)%Z (bodyz start c)).
      lia.
Qed.

Lemma taken_incr_other (t : list (list Z)) (xs zi yi xi z' y' x' : Z) :
  Z.to_nat z' <> Z.to_nat zi \/
  Z.to_nat (y' * xs + x') <> Z.to_nat (yi * xs + xi) ->
  taken_at (taken_incr t xs zi yi xi) xs z' y' x' = taken_at t xs z' y' x'.
Proof.
  intro Hne. unfold taken_incr.
  set (v := (taken_at t xs zi yi xi + 1)%Z). unfold taken_at.
  destruct (Nat.eq_dec (Z.to_nat zi) (Z.to_nat z')) as [E|E].
  - destruct Hne as [Hne|Hne]; [congruence|].
    rewrite E.
    destruct (nth_upd_cases (Z.to_nat z') (Z.to_nat z')
                (upd (Z.to_nat (yi * xs + xi)) v (nth (Z.to_nat z') t [])) [] t)
      as [E'|[_ E']]; rewrite E'; [reflexivity|].
    apply nth_upd_other. congruence.
  - now rewrite nth_upd_other.
Qed.

Lemma scan_index_injective (flm : flmData) (zi yi xi z' y' x' : Z) :
  (0 <= margin flm)%Z ->
  in_scan flm zi yi xi -> in_scan flm z' y' x' ->
  not_before zi yi (xi + 1) z' y' x' ->
  Z.to_nat z' <> Z.to_nat zi \/
  Z.to_nat (y' * xsize flm + x') <> Z.to_nat (yi * xsize flm + xi).
Proof.
  intros Hm (Hz & Hy & Hx) (Hz' & Hy' & Hx') [Hlt|[-> [Hlt|[-> Hlt]]]].
  - left. lia.
  - right.
    assert (0 <= yi * xsize flm)%Z by nia.
    assert ((yi + 1) * xsize flm <= y' * xsize flm)%Z by nia.
    lia.
  - right. assert (0 <= yi * xsize flm)%Z by nia. lia.
Qed.

Lemma visit_counted (flm : flmData) (sz ez sy ey zi yi xi : Z) (s : scan) (c : Z) :
  (0 <= margin flm)%Z ->
  in_scan flm zi yi xi ->
  (np s <= c)%Z -> mask_kept_from flm (s_taken s) zi yi xi ->
  counted (fun s' c' => (np s' <= c')%Z /\
                        mask_kept_from flm (s_taken s') zi yi (xi + 1))
    (visit flm sz ez sy ey zi yi xi s)
    (if Qlt_bool (threshold flm) (pixel (images flm) (xsize flm) zi yi xi)
     then if (taken_at (taken flm) (xsize flm) zi yi xi <? 1)%Z
          then (c + 1)%Z else c
     else c).
Proof.
  intros Hm Hin Hnp Hmask.
  assert (Hweak : mask_kept_from flm (s_taken s) zi yi (xi + 1)).
  { intros z' y' x' Hin' Hnb. apply Hmask; [exact Hin'|].
    unfold not_before in *. lia. }
  unfold visit.
  rewrite (Hmask zi yi xi Hin) by (unfold not_before; lia).
  destruct (Qlt_bool _ _); [|now split].
  destruct (_ <? 1)%Z; [|now split].
  cbv zeta.
  match goal with |- context [isLocalMaxima ?a ?b ?c ?d ?e ?f ?g ?i ?j ?k] =>
    destruct (isLocalMaxima a b c d e f g i j k) end.
  - cbn [np].
    destruct (np s + 1 >=? n_peaks flm)%Z; cbn [counted np s_taken]; [lia|].
    split; [lia|].
    intros z' y' x' Hin' Hnb.
    rewrite taken_incr_other
      by (apply (scan_index_injective flm zi yi xi z' y' x'); assumption).
    now apply Hweak.
  - destruct (np s >=? n_peaks flm)%Z; cbn [counted]; [lia|].
    split; [lia|exact Hweak].
Qed.

(** X20.  With a margin that is not negative, [findLocalMaxima] reports at
    most as many peaks as [calcMaxPeaks] counts on the same data, whatever
    the maximum peak count [n_peaks] is. *)
Theorem findLocalMaxima_at_most_calcMaxPeaks (flm : flmData) (z y x h : list Q) :
  (0 <= margin flm)%Z ->
  (np (snd (findLocalMaxima flm z y x h)) <= calcMaxPeaks flm)%Z.
Proof.
  intro Hm.
  assert (H : counted (fun s c => (np s <= c)%Z)
                (scan_stack flm z y x h) (calcMaxPeaks flm)).
  { unfold scan_stack, calcMaxPeaks.
    apply (counted_weaken
             (fun s c => (np s <= c)%Z /\
                mask_kept_from flm (s_taken s)
                  (0 + Z.of_nat (Z.to_nat (zsize flm))) (margin flm) (margin flm)));
      [tauto|].
    apply (for_ctl_for_z
             (fun zi s c => (np s <= c)%Z /\
                mask_kept_from flm (s_taken s) zi (margin flm) (margin flm))).
    - intros zi c. apply for_z_mono. intros yi c'. apply for_z_mono.
      intros xi c''. destruct (Qlt_bool _ _); [|lia]. destruct (_ <? 1)%Z; lia.
    - intros zi s c Hz [Hnp Hmask]. cbv zeta.
      apply (counted_weaken
               (fun s' c' => (np s' <= c')%Z /\
                  mask_kept_from flm (s_taken s') zi
                    (margin flm
                     + Z.of_nat (Z.to_nat (ysize flm - margin flm - margin flm)))
                    (margin flm))).
      { intros s' c' [Hnp' Hmask']. split; [exact Hnp'|].
        intros z' y' x' Hin Hnb. apply Hmask'; [exact Hin|].
        unfold not_before in *. lia. }
      apply (for_ctl_for_z
               (fun yi s' c' => (np s' <= c')%Z /\
                  mask_kept_from flm (s_taken s') zi yi (margin flm))).
      + intros yi c'. apply for_z_mono.
        intros xi c''. destruct (Qlt_bool _ _); [|lia]. destruct (_ <? 1)%Z; lia.
      + intros yi s' c' Hy [Hnp' Hmask']. cbv zeta.
        apply (counted_weaken
                 (fun s'' c'' => (np s'' <= c'')%Z /\
                    mask_kept_from flm (s_taken s'') zi yi
                      (margin flm
                       + Z.of_nat (Z.to_nat (xsize flm - margin flm - margin flm))))).
        { intros s'' c'' [Hnp'' Hmask'']. split; [exact Hnp''|].
          intros z' y' x' Hin Hnb. apply Hmask''; [exact Hin|].
          destruct Hin as (_ & _ & Hx'). unfold not_before in *. lia. }
        apply (for_ctl_for_z
                 (fun xi s'' c'' => (np s'' <= c'')%Z /\
                    mask_kept_from flm (s_taken s'') zi yi xi)).
        * intros xi c''. destruct (Qlt_bool _ _); [|lia]. destruct (_ <? 1)%Z; lia.
        * intros xi s'' c'' Hx [Hnp'' Hmask''].
          apply visit_counted; auto. unfold in_scan. lia.
        * now split.
      + now split.
    - split; [simpl; lia|]. intros z' y' x' _ _. reflexivity. }
  unfold findLocalMaxima.
  destruct (scan_stack flm z y x h) as [s|s]; exact H.
Qed.

Lemma findLocalMaxima_at_most_calcMaxPeaks_witness :
  Z.le (np (snd (findLocalMaxima room_for_two [0; 0; 0] [0; 0; 0] [0; 0; 0] [0; 0; 0])))
       (calcMaxPeaks room_for_two).
Proof.
  apply (findLocalMaxima_at_most_calcMaxPeaks room_for_two
           [0; 0; 0] [0; 0; 0] [0; 0; 0] [0; 0; 0]).
  simpl. lia.
Defined.

(** *** The scan as one loop *)

Lemma for_ctl_zcount (body : Z -> scan -> ctl) (n : nat) :
  forall start s, for_ctl n start body s = ctl_fold body (zcount start n) s.
Proof.
  induction n as [|n IH]; intros start s; simpl; [reflexivity|].
  destruct (body start s); [apply IH|reflexivity].
Qed.

Lemma ctl_fold_app {A : Type} (body : A -> scan -> ctl) (l1 l2 : list A) :
  forall s,
    ctl_fold body (l1 ++ l2) s
    = match ctl_fold body l1 s with
      | Go s' => ctl_fold body l2 s'
      | Return s' => Return s'
      end.
Proof.
  induction l1 as [|a l1 IH]; intro s; simpl; [reflexivity|].
  destruct (body a s); [apply IH|reflexivity].
Qed.

Lemma ctl_fold_map {A B : Type} (f : A -> B) (body : B -> scan -> ctl)
  (l : list A) :
  forall s, ctl_fold body (map f l) s = ctl_fold (fun a => body (f a)) l s.
Proof.
  induction l as [|a l IH]; intro s; simpl; [reflexivity|].
  destruct (body (f a) s); [apply IH|reflexivity].
Qed.

Lemma ctl_fold_flat {A C : Type} (cells_of : A -> list C)
  (inner : A -> scan -> ctl) (body : C -> scan -> ctl) (l : list A) :
  (forall a s, inner a s = ctl_fold body (cells_of a) s) ->
  forall s, ctl_fold inner l s = ctl_fold body (flat_map cells_of l) s.
Proof.
  intro H. induction l as [|a l IH]; intro s; simpl; [reflexivity|].
  rewrite ctl_fold_app, H.
  destruct (ctl_fold body (cells_of a) s); [apply IH|reflexivity].
Qed.

Lemma scan_stack_cells (flm : flmData) (z y x h : list Q) :
  scan_stack flm z y x h
  = ctl_fold (visit_cell flm) (scan_cells flm) (mkScan 0 (taken flm) z y x h).
Proof.
  unfold scan_stack, scan_cells. rewrite for_ctl_zcount.
  apply ctl_fold_flat. intros zi s. cbv zeta. rewrite for_ctl_zcount.
  apply ctl_fold_flat. intros yi s'. rewrite for_ctl_zcount.
  now rewrite ctl_fold_map.
Qed.

Lemma In_zcount (n : nat) :
  forall start k, In k (zcount start n) <-> (start <= k < start + Z.of_nat n)%Z.
Proof.
  induction n as [|n IH]; intros start k; simpl; [lia|].
  rewrite IH. lia.
Qed.

Lemma In_scan_cells (flm : flmData) (zi yi xi : Z) :
  In (zi, yi, xi) (scan_cells flm) <-> in_scan flm zi yi xi.
Proof.
  unfold scan_cells, in_scan. rewrite in_flat_map. split.
  - intros (z' & Hz & H). apply in_flat_map in H as (y' & Hy & H).
    apply in_map_iff in H as (x' & E & Hx). injection E as -> -> ->.
    apply In_zcount in Hz, Hy, Hx. lia.
  - intros (Hz & Hy & Hx). exists zi. split; [apply In_zcount; lia|].
    apply in_flat_map. exists yi. split; [apply In_zcount; lia|].
    apply in_map_iff. exists xi. split; [reflexivity|apply In_zcount; lia].
Qed.

Lemma scan_ordered_app (l1 l2 : list (Z * Z * Z)) :
  scan_ordered l1 -> scan_ordered l2 ->
  (forall a b, In a l1 -> In b l2 -> strictly_before a b) ->
  scan_ordered (l1 ++ l2).
Proof.
  induction l1 as [|c l1 IH]; intros H1 H2 H12; simpl; [exact H2|].
  destruct H1 as [Hc H1]. split.
  - intros c' Hc'. apply in_app_or in Hc' as [Hc'|Hc'];
      [now apply Hc|apply H12; [now left|exact Hc']].
  - apply IH; auto. intros a b Ha. apply H12. now right.
Qed.

Lemma scan_ordered_filter (f : Z * Z * Z -> bool) (l : list (Z * Z * Z)) :
  scan_ordered l -> scan_ordered (filter f l).
Proof.
  induction l as [|c l IH]; intro H; simpl; [exact I|].
  destruct H as [Hc H]. destruct (f c); [|now apply IH].
  split; [|now apply IH].
  intros c' Hc'. apply filter_In in Hc' as [Hc' _]. now apply Hc.
Qed.

Lemma scan_ordered_cells (flm : flmData) : scan_ordered (scan_cells flm).
Proof.
  unfold scan_cells.
  generalize (Z.to_nat (xsize flm - margin flm - margin flm)) as nx.
  generalize (Z.to_nat (ysize flm - margin flm - margin flm)) as ny.
  generalize (margin flm) as m. intros m ny nx.
  assert (Hx : forall zi yi n start,
            scan_ordered (map (fun xi => (zi, yi, xi)) (zcount start n))).
  { intros zi yi n. induction n as [|n IH]; intro start; simpl; [exact I|].
    split; [|apply IH].
    intros c' Hc'. apply in_map_iff in Hc' as (x' & <- & Hx').
    apply In_zcount in Hx'. unfold strictly_before, not_before. lia. }
  assert (Hy : forall zi n start,
            scan_ordered (flat_map (fun yi => map (fun xi => (zi, yi, xi)) (zcount m nx))
                            (zcount start n))).
  { intros zi n. induction n as [|n IH]; intro start; simpl; [exact I|].
    apply scan_ordered_app; [apply Hx|apply IH|].
    intros a b Ha Hb. apply in_map_iff in Ha as (xa & <- & _).
    apply in_flat_map in Hb as (yb & Hyb & Hb).
    apply in_map_iff in Hb as (xb & <- & _).
    apply In_zcount in Hyb. unfold strictly_before, not_before. lia. }
  generalize (Z.to_nat (zsize flm)) as nz. generalize 0%Z as start.
  intros start nz. revert start.
  induction nz as [|nz IH]; intro start; simpl; [exact I|].
  apply scan_ordered_app; [apply Hy|apply IH|].
  intros a b Ha Hb.
  apply in_flat_map in Ha as (ya & _ & Ha).
  apply in_map_iff in Ha as (xa & <- & _).
  apply in_flat_map in Hb as (zb & Hzb & Hb).
  apply in_flat_map in Hb as (yb & _ & Hb).
  apply in_map_iff in Hb as (xb & <- & _).
  apply In_zcount in Hzb. unfold strictly_before, not_before. lia.
Qed.

Lemma visit_cell_go (flm : flmData) (c : Z * Z * Z) (s : scan) :
  cell_taken flm (s_taken s) c = cell_taken flm (taken flm) c ->
  (np s < n_peaks flm)%Z ->
  qualifies flm c = false ->
  visit_cell flm c s = Go s.
Proof.
  destruct c as [[zi yi] xi]. unfold cell_taken, qualifies, visit_cell, visit.
  intros Ht Hnp Hq. rewrite Ht.
  destruct (Qlt_bool _ _); [|reflexivity].
  destruct (_ <? 1)%Z; [|reflexivity].
  simpl in Hq. unfold maximum_at, z_lo, z_hi, y_lo, y_hi, x_lo, x_hi in *.
  cbv zeta in *. rewrite Hq.
  replace (np s >=? n_peaks flm)%Z with false; [reflexivity|].
  symmetry. rewrite Z.geb_leb. apply Z.leb_gt. lia.
Qed.

Lemma visit_cell_record (flm : flmData) (c : Z * Z * Z) (s : scan) :
  cell_taken flm (s_taken s) c = cell_taken flm (taken flm) c ->
  qualifies flm c = true ->
  visit_cell flm c s
  = if (np s + 1 >=? n_peaks flm)%Z
    then Return (record_peak flm c s) else Go (record_peak flm c s).
Proof.
  destruct c as [[zi yi] xi].
  unfold cell_taken, qualifies, visit_cell, visit, record_peak.
  intros Ht Hq. rewrite Ht.
  apply andb_true_iff in Hq as [Hq Hmax]. apply andb_true_iff in Hq as [Hthr Htk].
  rewrite Hthr, Htk.
  unfold maximum_at, z_lo, z_hi, y_lo, y_hi, x_lo, x_hi in *.
  cbv zeta in *. rewrite Hmax. reflexivity.
Qed.

Lemma taken_incr_same (flm : flmData) (t : list (list Z)) (c : Z * Z * Z) :
  cell_in_range flm t c ->
  let '(zi, yi, xi) := c in
  cell_taken flm (taken_incr t (xsize flm) zi yi xi) c
  = (cell_taken flm t c + 1)%Z.
Proof.
  destruct c as [[zi yi] xi]. intros [Hz Hi].
  unfold cell_taken, taken_incr. unfold taken_at at 1.
  rewrite nth_upd_same by exact Hz. now rewrite nth_upd_same by exact Hi.
Qed.

Lemma taken_incr_range (flm : flmData) (t : list (list Z)) (zi yi xi : Z)
  (c : Z * Z * Z) :
  cell_in_range flm t c ->
  cell_in_range flm (taken_incr t (xsize flm) zi yi xi) c.
Proof.
  destruct c as [[z' y'] x']. intros [Hz Hi].
  unfold cell_in_range, taken_incr. rewrite upd_length. split; [exact Hz|].
  match goal with |- context [upd (Z.to_nat zi) ?row t] =>
    destruct (nth_upd_cases (Z.to_nat zi) (Z.to_nat z') row [] t) as [E|[E1 E]]
  end; rewrite E; [exact Hi|].
  rewrite upd_length. now rewrite E1.
Qed.

Lemma cell_index_distinct (flm : flmData) (t : list (list Z)) (c c' : Z * Z * Z) :
  (0 <= margin flm)%Z ->
  cell_in_scan flm c -> cell_in_scan flm c' -> strictly_before c c' ->
  let '(zi, yi, xi) := c in
  cell_taken flm (taken_incr t (xsize flm) zi yi xi) c' = cell_taken flm t c' /\
  cell_taken flm (let '(z', y', x') := c' in taken_incr t (xsize flm) z' y' x') c
  = cell_taken flm t c.
Proof.
  destruct c as [[zi yi] xi], c' as [[z' y'] x']. intros Hm Hc Hc' Hlt.
  unfold cell_taken.
  pose proof (scan_index_injective flm zi yi xi z' y' x' Hm Hc Hc' Hlt) as Hne.
  split; apply taken_incr_other; [exact Hne|].
  destruct Hne as [Hne|Hne]; [left|right]; congruence.
Qed.

Lemma record_peak_reports (flm : flmData) (c : Z * Z * Z) (s : scan)
  (fd : list (Z * Z * Z)) :
  room flm s ->
  np s = Z.of_nat (length fd) -> (np s < n_peaks flm)%Z ->
  (forall j, (j < length fd)%nat -> reports flm s j (nth j fd (0, 0, 0)%Z)) ->
  room flm (record_peak flm c s) /\
  forall j, (j < length (fd ++ [c]))%nat ->
    reports flm (record_peak flm c s) j (nth j (fd ++ [c]) (0, 0, 0)%Z).
Proof.
  intros (R1 & R2 & R3 & R4) Hnp Hlt Hrep.
  assert (Ei : Z.to_nat (np s) = length fd) by lia.
  destruct c as [[zi yi] xi]. unfold record_peak. rewrite Ei. split.
  - unfold room. cbn [out_z out_y out_x out_h]. now rewrite !upd_length.
  - intros j Hj. rewrite length_app in Hj. simpl in Hj.
    destruct (Nat.eq_dec j (length fd)) as [->|Hne].
    + rewrite app_nth2, Nat.sub_diag by lia. simpl.
      rewrite !nth_upd_same by lia. auto.
    + rewrite app_nth1 by lia.
      specialize (Hrep j ltac:(lia)).
      destruct (nth j fd (0, 0, 0)%Z) as [[zj yj] xj].
      unfold reports in *. cbn [out_z out_y out_x out_h].
      rewrite !nth_upd_other by lia. exact Hrep.
Qed.

(** The scan over the pixels [rest], after the pixels [done]: what it
    visits, counts, writes and marks. *)
Lemma ctl_fold_visit (flm : flmData) :
  (0 <= margin flm)%Z ->
  forall rest done s,
    scan_ordered rest ->
    (forall c, In c rest -> cell_in_scan flm c) ->
    (forall c, In c done -> cell_in_scan flm c) ->
    (forall d c, In d done -> In c rest -> strictly_before d c) ->
    (forall c, In c rest ->
       cell_taken flm (s_taken s) c = cell_taken flm (taken flm) c) ->
    np s = Z.of_nat (length (filter (qualifies flm) done)) ->
    (np s < n_peaks flm)%Z ->
    exists visited unvisited,
      rest = visited ++ unvisited /\
      let r := ctl_fold (visit_cell flm) rest s in
      let s' := ctl_scan r in
      np s' = Z.of_nat (length (filter (qualifies flm) (done ++ visited))) /\
      match r with
      | Go _ => unvisited = [] /\ (np s' < n_peaks flm)%Z
      | Return _ => np s' = n_peaks flm
      end /\
      (forall c, In c unvisited ->
         cell_taken flm (s_taken s') c = cell_taken flm (taken flm) c) /\
      (room flm s ->
       (forall j, (j < length (filter (qualifies flm) done))%nat ->
          reports flm s j (nth j (filter (qualifies flm) done) (0, 0, 0)%Z)) ->
       forall j, (j < length (filter (qualifies flm) (done ++ visited)))%nat ->
         reports flm s' j
           (nth j (filter (qualifies flm) (done ++ visited)) (0, 0, 0)%Z)) /\
      ((forall c, In c (done ++ rest) -> cell_in_range flm (s_taken s) c) ->
       (forall c, In c done ->
          cell_taken flm (s_taken s) c
          = (cell_taken flm (taken flm) c + if qualifies flm c then 1 else 0)%Z) ->
       forall c, In c (done ++ visited) ->
         cell_taken flm (s_taken s') c
         = (cell_taken flm (taken flm) c + if qualifies flm c then 1 else 0)%Z).
Proof.
  intros Hm rest.
  induction rest as [|c l IH]; intros done s Hord Hin Hdin Hbef Hmask Hnp Hlt.
  - exists [], []. split; [reflexivity|]. cbn [ctl_fold ctl_scan].
    rewrite app_nil_r. split; [exact Hnp|]. split; [now split|].
    split; [intros c []|]. split; [intros _ H; exact H|intros _ H; exact H].
  - destruct Hord as [Hc Hord].
    assert (Hin' : forall c', In c' l -> cell_in_scan flm c')
      by (intros c' H; apply Hin; now right).
    assert (Hdin' : forall c', In c' (done ++ [c]) -> cell_in_scan flm c').
    { intros c' H. apply in_app_or in H as [H|[<-|[]]];
        [now apply Hdin|apply Hin; now left]. }
    assert (Hbef' : forall d c', In d (done ++ [c]) -> In c' l ->
                      strictly_before d c').
    { intros d c' Hd Hc'. apply in_app_or in Hd as [Hd|[<-|[]]];
        [apply Hbef; [exact Hd|now right]|now apply Hc]. }
    assert (Hmc : cell_taken flm (s_taken s) c = cell_taken flm (taken flm) c)
      by (apply Hmask; now left).
    assert (Hperm : forall c', In c' ((done ++ [c]) ++ l) <-> In c' (done ++ c :: l)).
    { intro c'. now rewrite <- app_assoc. }
    cbn [ctl_fold].
    destruct (qualifies flm c) eqn:Hq.
    + (* the pixel is written *)
      rewrite visit_cell_record by assumption.
      set (s1 := record_peak flm c s).
      assert (Hfd : filter (qualifies flm) (done ++ [c])
                    = filter (qualifies flm) done ++ [c]).
      { rewrite filter_app. simpl. now rewrite Hq. }
      assert (Hnp1 : np s1 = Z.of_nat (length (filter (qualifies flm) (done ++ [c])))).
      { rewrite Hfd, length_app. simpl. unfold s1.
        destruct c as [[zi yi] xi]. cbn [record_peak np]. lia. }
      assert (Ht1 : s_taken s1 = (let '(zi, yi, xi) := c in
                                  taken_incr (s_taken s) (xsize flm) zi yi xi)).
      { unfold s1. now destruct c as [[zi yi] xi]. }
      assert (A3 : forall c', In c' l ->
                cell_taken flm (s_taken s1) c' = cell_taken flm (taken flm) c').
      { intros c' Hc'. rewrite Ht1.
        pose proof (cell_index_distinct flm (s_taken s) c c' Hm
                      (Hin c (or_introl eq_refl)) (Hin' c' Hc') (Hc c' Hc')) as H.
        destruct c as [[zi yi] xi]. destruct H as [H _]. rewrite H.
        apply Hmask. now right. }
      assert (A4 : room flm s ->
                (forall j, (j < length (filter (qualifies flm) done))%nat ->
                   reports flm s j (nth j (filter (qualifies flm) done) (0, 0, 0)%Z)) ->
                room flm s1 /\
                forall j, (j < length (filter (qualifies flm) (done ++ [c])))%nat ->
                  reports flm s1 j
                    (nth j (filter (qualifies flm) (done ++ [c])) (0, 0, 0)%Z)).
      { intros Hroom Hrep. rewrite Hfd.
        now apply record_peak_reports. }
      assert (A5 : (forall c', In c' (done ++ c :: l) ->
                      cell_in_range flm (s_taken s) c') ->
                (forall c', In c' done ->
                   cell_taken flm (s_taken s) c'
                   = (cell_taken flm (taken flm) c'
                      + if qualifies flm c' then 1 else 0)%Z) ->
                (forall c', In c' ((done ++ [c]) ++ l) ->
                   cell_in_range flm (s_taken s1) c') /\
                forall c', In c' (done ++ [c]) ->
                  cell_taken flm (s_taken s1) c'
                  = (cell_taken flm (taken flm) c'
                     + if qualifies flm c' then 1 else 0)%Z).
      { intros Hrange Hdone. split.
        - intros c' Hc'. apply Hperm in Hc'. rewrite Ht1.
          destruct c as [[zi yi] xi]. apply taken_incr_range. now apply Hrange.
        - intros c' Hc'. rewrite Ht1.
          apply in_app_or in Hc' as [Hd|[<-|[]]].
          + pose proof (cell_index_distinct flm (s_taken s) c' c Hm
                          (Hdin c' Hd) (Hin c (or_introl eq_refl))
                          (Hbef c' c Hd (or_introl eq_refl))) as H.
            destruct c' as [[z' y'] x']. destruct H as [_ H].
            rewrite H. now apply Hdone.
          + pose proof (taken_incr_same flm (s_taken s) c
                          (Hrange c ltac:(apply in_or_app; right; now left))) as H.
            destruct c as [[zi yi] xi]. rewrite H, Hmc, Hq. reflexivity. }
      destruct (np s + 1 >=? n_peaks flm)%Z eqn:E; rewrite Z.geb_leb in E.
      * apply Z.leb_le in E.
        exists [c], l. split; [reflexivity|]. cbn [ctl_scan].
        split; [exact Hnp1|]. split.
        { rewrite Hnp1, Hfd, length_app. simpl. lia. }
        split; [exact A3|]. split.
        { intros Hroom Hrep. now apply A4. }
        { intros Hrange Hdone. now apply A5. }
      * apply Z.leb_gt in E.
        destruct (IH (done ++ [c]) s1 Hord Hin' Hdin' Hbef' A3 Hnp1)
          as (visited & unvisited & -> & H1 & H2 & H3 & H4 & H5).
        { rewrite Hnp1, Hfd, length_app. simpl. lia. }
        exists (c :: visited), unvisited. split; [reflexivity|].
        cbv zeta in *. rewrite <- app_assoc in H1, H4. simpl in H1, H4.
        split; [exact H1|]. split; [exact H2|]. split; [exact H3|]. split.
        { intros Hroom Hrep. destruct (A4 Hroom Hrep) as [Hr1 Hrep1].
          now apply H4. }
        { intros Hrange Hdone. destruct (A5 Hrange Hdone) as [Hr1 Hd1].
          intros c0 Hc0. apply (H5 Hr1 Hd1). rewrite <- app_assoc. exact Hc0. }
    + (* the pixel is passed over *)
      rewrite visit_cell_go by assumption.
      assert (Hfd : filter (qualifies flm) (done ++ [c])
                    = filter (qualifies flm) done).
      { rewrite filter_app. simpl. rewrite Hq. apply app_nil_r. }
      destruct (IH (done ++ [c]) s Hord Hin' Hdin' Hbef'
                  ltac:(intros c' Hc'; apply Hmask; now right)
                  ltac:(now rewrite Hfd) Hlt)
        as (visited & unvisited & -> & H1 & H2 & H3 & H4 & H5).
      exists (c :: visited), unvisited. split; [reflexivity|].
      cbv zeta in *. rewrite <- app_assoc in H1, H4. simpl in H1, H4.
      split; [exact H1|]. split; [exact H2|]. split; [exact H3|]. split.
      { intros Hroom Hrep. apply H4; [exact Hroom|]. now rewrite Hfd. }
      { intros Hrange Hdone c0 Hc0. apply H5.
        - intros c' Hc'. apply Hrange. now apply Hperm.
        - intros c' Hc'. apply in_app_or in Hc' as [Hd|[<-|[]]];
            [now apply Hdone|].
          rewrite Hmc, Hq. lia.
        - rewrite <- app_assoc. exact Hc0. }
Qed.

Lemma findLocalMaxima_scan (flm : flmData) (z y x h : list Q) :
  snd (findLocalMaxima flm z y x h)
  = ctl_scan (ctl_fold (visit_cell flm) (scan_cells flm)
                (mkScan 0 (taken flm) z y x h)) /\
  taken (fst (findLocalMaxima flm z y x h))
  = s_taken (snd (findLocalMaxima flm z y x h)).
Proof.
  unfold findLocalMaxima. rewrite scan_stack_cells.
  destruct (ctl_fold _ _ _); split; reflexivity.
Qed.

Lemma scan_cells_visit (flm : flmData) (z y x h : list Q) :
  (0 <= margin flm)%Z -> (1 <= n_peaks flm)%Z ->
  let s := snd (findLocalMaxima flm z y x h) in
  exists visited unvisited,
    scan_cells flm = visited ++ unvisited /\
    np s = Z.of_nat (length (filter (qualifies flm) visited)) /\
    ((unvisited = [] /\ (np s < n_peaks flm)%Z) \/ np s = n_peaks flm) /\
    (forall c, In c unvisited ->
       cell_taken flm (s_taken s) c = cell_taken flm (taken flm) c) /\
    (room flm (mkScan 0 (taken flm) z y x h) ->
     forall j, (j < length (filter (qualifies flm) visited))%nat ->
       reports flm s j (nth j (filter (qualifies flm) visited) (0, 0, 0)%Z)) /\
    ((forall c, In c (scan_cells flm) -> cell_in_range flm (taken flm) c) ->
     forall c, In c visited ->
       cell_taken flm (s_taken s) c
       = (cell_taken flm (taken flm) c + if qualifies flm c then 1 else 0)%Z).
Proof.
  intros Hm Hn. cbv zeta.
  rewrite (proj1 (findLocalMaxima_scan flm z y x h)).
  destruct (ctl_fold_visit flm Hm (scan_cells flm) []
              (mkScan 0 (taken flm) z y x h) (scan_ordered_cells flm))
    as (visited & unvisited & E & H1 & H2 & H3 & H4 & H5).
  - intros [[zi yi] xi] Hc. now apply In_scan_cells.
  - intros c [].
  - intros d c [].
  - reflexivity.
  - reflexivity.
  - simpl. lia.
  - exists visited, unvisited. cbv zeta in *. simpl app in *.
    split; [exact E|]. split; [exact H1|]. split.
    { destruct (ctl_fold _ _ _); [now left|now right]. }
    split; [exact H3|]. split.
    { intros Hroom. apply H4; [exact Hroom|]. simpl. intros j Hj. lia. }
    { intros Hrange. apply H5; [exact Hrange|]. intros c []. }
Qed.

(** X21.  [findLocalMaxima], for a radius on the grid (with which the
    source computes the search region and the squared radius without
    rounding), a margin that is not negative, a maximum peak count of at
    least 1 and output arrays with room for it: the pixels it reports are,
    in the order of the scan, the pixels inside the margins that are above
    the threshold, not taken at the call and a local maximum, up to the
    maximum peak count; entry [j] of the output arrays holds the z value,
    the coordinates and the intensity of the [j]-th such pixel. *)
Theorem findLocalMaxima_reports (flm : flmData) (z y x h : list Q) :
  on_grid (radius flm) ->
  (0 <= margin flm)%Z -> (1 <= n_peaks flm)%Z ->
  (Z.to_nat (n_peaks flm) <= length z)%nat ->
  (Z.to_nat (n_peaks flm) <= length y)%nat ->
  (Z.to_nat (n_peaks flm) <= length x)%nat ->
  (Z.to_nat (n_peaks flm) <= length h)%nat ->
  let s := snd (findLocalMaxima flm z y x h) in
  let found := filter (qualifies flm) (scan_cells flm) in
  (forall zi yi xi, In (zi, yi, xi) found <->
     in_scan flm zi yi xi /\
     threshold flm < pixel (images flm) (xsize flm) zi yi xi /\
     (taken_at (taken flm) (xsize flm) zi yi xi < 1)%Z /\
     maximum_at flm zi yi xi = true) /\
  scan_ordered found /\
  np s = Z.min (Z.of_nat (length found)) (n_peaks flm) /\
  forall j, (j < Z.to_nat (np s))%nat ->
    reports flm s j (nth j found (0, 0, 0)%Z).
Proof.
  intros _ Hm Hn Lz Ly Lx Lh. cbv zeta.
  split; [|split; [apply scan_ordered_filter, scan_ordered_cells|]].
  - intros zi yi xi. rewrite filter_In, In_scan_cells. unfold qualifies.
    rewrite !andb_true_iff, Qlt_bool_true, Z.ltb_lt. tauto.
  - destruct (scan_cells_visit flm z y x h Hm Hn)
      as (visited & unvisited & E & H1 & H2 & _ & H4 & _).
    cbv zeta in *. rewrite E, filter_app, length_app.
    split.
    + destruct H2 as [[-> Hlt]|Heq]; [simpl; lia|lia].
    + intros j Hj. rewrite app_nth1 by lia.
      apply H4; [|lia]. unfold room. simpl. auto.
Qed.

Lemma findLocalMaxima_reports_witness :
  let s := snd (findLocalMaxima room_for_two [0; 0; 0] [0; 0; 0] [0; 0; 0] [0; 0; 0]) in
  let found := filter (qualifies room_for_two) (scan_cells room_for_two) in
  (forall zi yi xi, In (zi, yi, xi) found <->
     in_scan room_for_two zi yi xi /\
     threshold room_for_two
     < pixel (images room_for_two) (xsize room_for_two) zi yi xi /\
     (taken_at (taken room_for_two) (xsize room_for_two) zi yi xi < 1)%Z /\
     maximum_at room_for_two zi yi xi = true) /\
  scan_ordered found /\
  np s = Z.min (Z.of_nat (length found)) (n_peaks room_for_two) /\
  forall j, (j < Z.to_nat (np s))%nat ->
    reports room_for_two s j (nth j found (0, 0, 0)%Z).
Proof.
  apply (findLocalMaxima_reports room_for_two [0; 0; 0] [0; 0; 0] [0; 0; 0] [0; 0; 0]);
    try (simpl; lia).
  apply (on_grid_Z 0). simpl. lia.
Defined.





Lemma for_z_count {C : Type} (P : C -> bool) (cells_of : Z -> list C)
  (body : Z -> Z -> Z) :
  (forall i c, body i c = (c + Z.of_nat (length (filter P (cells_of i))))%Z) ->
  forall n start c,
    for_z n start body c
    = (c + Z.of_nat (length (filter P (flat_map cells_of (zcount start n)))))%Z.
Proof.
  intros Hb n. induction n as [|n IH]; intros start c; simpl; [lia|].
  rewrite IH, Hb, filter_app, length_app. lia.
Qed.

(** X23.  [calcMaxPeaks] returns the number of pixels inside the margins
    that are above the threshold and not taken; every pixel that
    [findLocalMaxima] can report is among them. *)
Theorem calcMaxPeaks_counts (flm : flmData) :
  calcMaxPeaks flm
  = Z.of_nat (length (filter (candidate flm) (scan_cells flm))) /\
  (forall zi yi xi, In (zi, yi, xi) (filter (candidate flm) (scan_cells flm)) <->
     in_scan flm zi yi xi /\
     threshold flm < pixel (images flm) (xsize flm) zi yi xi /\
     (taken_at (taken flm) (xsize flm) zi yi xi < 1)%Z) /\
  (forall c, qualifies flm c = true -> candidate flm c = true).
Proof.
  split; [|split].
  - unfold calcMaxPeaks, scan_cells.
    rewrite (for_z_count (candidate flm)
               (fun zi => flat_map (fun yi =>
                  map (fun xi => (zi, yi, xi))
                    (zcount (margin flm)
                       (Z.to_nat (xsize flm - margin flm - margin flm))))
                  (zcount (margin flm)
                     (Z.to_nat (ysize flm - margin flm - margin flm)))));
      [reflexivity|].
    intros zi c.
    apply (for_z_count (candidate flm)
             (fun yi => map (fun xi => (zi, yi, xi))
                (zcount (margin flm)
                   (Z.to_nat (xsize flm - margin flm - margin flm))))).
    intros yi c'.
    rewrite (for_z_count (candidate flm) (fun xi => [(zi, yi, xi)])).
    + reflexivity.
    + intros xi c''. simpl.
      destruct (Qlt_bool _ _); [|simpl; lia].
      destruct (_ <? 1)%Z; simpl; lia.
  - intros zi yi xi. rewrite filter_In, In_scan_cells. unfold candidate.
    rewrite andb_true_iff, Qlt_bool_true, Z.ltb_lt. tauto.
  - intros [[zi yi] xi]. unfold qualifies, candidate.
    rewrite !andb_true_iff. tauto.
Qed.


